(** * skimage_in_jax.registration: phase cross-correlation in JAX

    A shallow embedding of [src/skimage_in_jax/registration.py]:
    [_upsampled_dft], [phase_cross_correlation], [_compute_error] and
    [_compute_phasediff].

    Conventions of the embedding.
    - Array elements are complex numbers over the real numbers of the
      Standard Library: the floating-point arithmetic of the array
      engine is idealised to exact real arithmetic, and an element type
      ([dtype]) is carried as a tag.
    - An array is its shape, its element type and its elements in
      row-major order.
    - Python integers that configure a call ([upsample_factor], region
      sizes) are in [Z]; the scalar floating-point computations made by
      [math.ceil] and [math.floor] on them are in [Q].
    - Python exceptions are values of [exn], with the message the code
      gives them; a call runs in the monad [M], which also records the
      array-engine operations the call performed before it returned or
      raised.
    - The images are arrays of the engine ([jax.Array]), so that the
      attribute [.real] of a complex image is an element-wise pass of
      the engine. *)

From Stdlib Require Import String Ascii.
From Stdlib Require Import Reals Lra Lia ZArith List Bool.
From Stdlib Require Import QArith Qround Permutation.
From Stdlib Require Import DecimalString.
Import ListNotations.

Local Open Scope R_scope.

(** ** Complex scalars *)

Module Cx.

Definition C : Type := (R * R)%type.

Definition re (z : C) : R := fst z.
Definition im (z : C) : R := snd z.

Definition zero : C := (0, 0).
Definition one : C := (1, 0).
(** Python's [1j]. *)
Definition j : C := (0, 1).

Definition of_R (x : R) : C := (x, 0).

Definition add (a b : C) : C := (re a + re b, im a + im b).
Definition sub (a b : C) : C := (re a - re b, im a - im b).
Definition opp (a : C) : C := (- re a, - im a).
Definition mul (a b : C) : C :=
  (re a * re b - im a * im b, re a * im b + im a * re b).
Definition conj (a : C) : C := (re a, - im a).

(** Division of a complex number by a real one, componentwise. *)
Definition div_R (a : C) (x : R) : C := (re a / x, im a / x).

(** [jnp.abs] on one element. *)
Definition abs (a : C) : R := sqrt (re a * re a + im a * im a).

(** [jnp.exp] on one complex element. *)
Definition exp (a : C) : C := (Rtrigo_def.exp (re a) * cos (im a),
                               Rtrigo_def.exp (re a) * sin (im a)).

Definition sum (l : list C) : C := fold_right add zero l.

End Cx.

Definition C : Type := Cx.C.

(** ** Python exceptions and the call monad *)

Inductive exn : Type :=
| NotImplementedError (msg : string)
| ValueError (msg : string)
| TypeError (msg : string).

(** The array-engine operations a call can perform on image-sized data. *)
Inductive numeric_op : Type :=
| op_fftn | op_ifftn
| op_multiply | op_divide | op_conj | op_abs | op_maximum | op_real
| op_exp | op_tensordot
| op_argmax | op_sum.

(** A computation yields the operations performed, in order, and either
    the exception raised or the value returned. *)
Definition M (A : Type) : Type := (list numeric_op * (exn + A))%type.

Definition ret {A} (a : A) : M A := ([], inr a).
Definition raise {A} (e : exn) : M A := ([], inl e).
Definition bind {A B} (m : M A) (f : A -> M B) : M B :=
  match m with
  | (t, inl e) => (t, inl e)
  | (t, inr a) => let (t', r) := f a in (t ++ t', r)
  end.
(** Perform the engine operation [o], whose value is [a]. *)
Definition perform {A} (o : numeric_op) (a : A) : M A := ([o], inr a).

Definition trace {A} (m : M A) : list numeric_op := fst m.
Definition outcome {A} (m : M A) : exn + A := snd m.

Declare Scope py_scope.
Delimit Scope py_scope with py.
Notation "x <- m ;; k" := (bind m (fun x => k))
  (at level 61, m at next level, right associativity) : py_scope.
Notation "' p <- m ;; k" := (bind m (fun x => let p := x in k))
  (at level 61, p pattern, m at next level, right associativity) : py_scope.
Local Open Scope py_scope.

(** ** Arrays *)

Inductive scalar_type : Type := float32 | float64 | complex64 | complex128.

Definition is_complex (d : scalar_type) : bool :=
  match d with complex64 | complex128 => true | _ => false end.

(** Element type of [x.real]. *)
Definition real_dtype (d : scalar_type) : scalar_type :=
  match d with
  | float32 | complex64 => float32
  | float64 | complex128 => float64
  end.

(** Element type of a DFT of an array of type [d]. *)
Definition complex_dtype (d : scalar_type) : scalar_type :=
  match d with
  | float32 | complex64 => complex64
  | float64 | complex128 => complex128
  end.

(** [jax.dtypes.result_type] on two element types: the wider precision,
    complex as soon as one side is complex. *)
Definition result_type (a b : scalar_type) : scalar_type :=
  match real_dtype a, real_dtype b, is_complex a || is_complex b with
  | float32, float32, false => float32
  | float32, float32, true => complex64
  | _, _, false => float64
  | _, _, true => complex128
  end.

(** [jnp.finfo(d).eps]. *)
Definition finfo_eps (d : scalar_type) : R :=
  match real_dtype d with
  | float32 => / 2 ^ 23
  | _ => / 2 ^ 52
  end.

(** Value of one element after [astype(d)]: a real element type drops
    the imaginary part. *)
Definition cast (d : scalar_type) (z : C) : C :=
  if is_complex d then z else Cx.of_R (Cx.re z).

Record ndarray : Type := mk_ndarray {
  shape : list nat;
  dtype : scalar_type;
  flat : list C
}.

Definition prod (s : list nat) : nat := fold_right Nat.mul 1%nat s.

Definition ndim (a : ndarray) : nat := length (shape a).
Definition size (a : ndarray) : nat := prod (shape a).

(** An array is well formed when it holds as many elements as its shape
    says. *)
Definition wf (a : ndarray) : Prop := length (flat a) = prod (shape a).

(** Row-major position of a multi-index. *)
Fixpoint ravel (s idx : list nat) : nat :=
  match s, idx with
  | _ :: ds, i :: idx' => i * prod ds + ravel ds idx'
  | _, _ => 0
  end.

(** [jnp.unravel_index]. *)
Fixpoint unravel_index (i : nat) (s : list nat) : list nat :=
  match s with
  | [] => []
  | _ :: ds => (i / prod ds)%nat :: unravel_index (i mod prod ds) ds
  end.

(** All multi-indices of a shape, in row-major order. *)
Fixpoint indices (s : list nat) : list (list nat) :=
  match s with
  | [] => [[]]
  | d :: ds => flat_map (fun i => map (cons i) (indices ds)) (seq 0 d)
  end.

(** [a[idx]] for a full multi-index. *)
Definition get (a : ndarray) (idx : list nat) : C :=
  nth (ravel (shape a) idx) (flat a) Cx.zero.

(** The array of shape [s] whose element at [idx] is [f idx]. *)
Definition build (s : list nat) (d : scalar_type) (f : list nat -> C) : ndarray :=
  {| shape := s; dtype := d; flat := map f (indices s) |}.

Definition in_bounds (idx s : list nat) : Prop := Forall2 lt idx s.

Definition map_arr (d : scalar_type) (f : C -> C) (a : ndarray) : ndarray :=
  {| shape := shape a; dtype := d; flat := map f (flat a) |}.

Definition zip_arr (d : scalar_type) (f : C -> C -> C) (a b : ndarray) : ndarray :=
  {| shape := shape a; dtype := d;
     flat := map (fun p => f (fst p) (snd p)) (combine (flat a) (flat b)) |}.

(** Sum of [f] over [0 .. n-1], and over all multi-indices of a shape. *)
Definition csum_n (n : nat) (f : nat -> C) : C := Cx.sum (map f (seq 0 n)).
Definition csum_idx (s : list nat) (f : list nat -> C) : C :=
  Cx.sum (map f (indices s)).

(** [rows n cnt l]: the first [cnt] consecutive runs of length [n] of [l]. *)
Fixpoint rows (n cnt : nat) (l : list C) : list (list C) :=
  match cnt with
  | O => []
  | S c => firstn n l :: rows n c (skipn n l)
  end.

Definition dot (u v : list C) : C :=
  Cx.sum (map (fun p => Cx.mul (fst p) (snd p)) (combine u v)).

(** ** The array engine ([jax.numpy]) *)

(** The values the engine operations compute. *)
Module val.

(** [1j * 2 * jnp.pi]. *)
Definition im2pi : C := Cx.mul (Cx.mul Cx.j (Cx.of_R 2)) (Cx.of_R PI).

(** Angle of the N-dimensional DFT at output index [k] and input index
    [n], in turns: [sum_d k_d n_d / N_d]. *)
Fixpoint dft_angle (s k n : list nat) : R :=
  match s, k, n with
  | d :: ds, kd :: ks, nd :: ns => INR kd * INR nd / INR d + dft_angle ds ks ns
  | _, _, _ => 0
  end.

(** Phase factor [exp(sign * 2 pi i * angle)]. *)
Definition twiddle (sign : C) (s k n : list nat) : C :=
  Cx.exp (Cx.mul (Cx.mul sign im2pi) (Cx.of_R (dft_angle s k n))).

(** The forward DFT over all axes:
    [X[k] = sum_n x[n] exp(-2 pi i sum_d k_d n_d / N_d)]. *)
Definition fftn (a : ndarray) : ndarray :=
  build (shape a) (complex_dtype (dtype a))
    (fun k => csum_idx (shape a)
                (fun n => Cx.mul (get a n) (twiddle (Cx.opp Cx.one) (shape a) k n))).

(** The inverse DFT over all axes:
    [x[k] = (1 / size) sum_n X[n] exp(2 pi i sum_d k_d n_d / N_d)]. *)
Definition ifftn (a : ndarray) : ndarray :=
  build (shape a) (complex_dtype (dtype a))
    (fun k => Cx.div_R
                (csum_idx (shape a)
                   (fun n => Cx.mul (get a n) (twiddle Cx.one (shape a) k n)))
                (INR (size a))).

Definition conj (a : ndarray) : ndarray := map_arr (dtype a) Cx.conj a.

Definition multiply (a b : ndarray) : ndarray :=
  zip_arr (result_type (dtype a) (dtype b)) Cx.mul a b.

Definition abs (a : ndarray) : ndarray :=
  map_arr (real_dtype (dtype a)) (fun z => Cx.of_R (Cx.abs z)) a.

Definition maximum (a : ndarray) (x : R) : ndarray :=
  map_arr (dtype a) (fun z => Cx.of_R (Rmax (Cx.re z) x)) a.

Definition divide (a b : ndarray) : ndarray :=
  zip_arr (result_type (dtype a) (dtype b)) (fun z w => Cx.div_R z (Cx.re w)) a b.

Definition real (a : ndarray) : ndarray :=
  map_arr (real_dtype (dtype a)) (fun z => Cx.of_R (Cx.re z)) a.

Definition sum (a : ndarray) : R := Cx.re (Cx.sum (flat a)).

(** Position of the first maximum of a list, scanning from position [i]
    with the best value [best] found at [besti]. *)
Fixpoint argmax_from (best : R) (besti i : nat) (l : list R) : nat :=
  match l with
  | [] => besti
  | x :: t =>
      if Rlt_dec best x then argmax_from x i (S i) t
      else argmax_from best besti (S i) t
  end.

(** Position of the first maximum of a list; [0] on the empty list. *)
Definition argmax (l : list R) : nat :=
  match l with
  | [] => 0%nat
  | x :: t => argmax_from x 0 1 t
  end.

Definition exp_scaled (z : C) (a : ndarray) : ndarray :=
  map_arr (complex_dtype (dtype a)) (fun x => Cx.exp (Cx.mul z x)) a.

End val.

(** The engine operations as calls: each records itself and yields its
    value, or raises. *)
Module jnp.

Definition im2pi : C := val.im2pi.

(** [jnp.fft.fftn(a)]. *)
Definition fftn (a : ndarray) : M ndarray := perform op_fftn (val.fftn a).

(** [jnp.fft.ifftn(a)]. *)
Definition ifftn (a : ndarray) : M ndarray := perform op_ifftn (val.ifftn a).

Definition asarray (a : ndarray) : ndarray := a.

(** [a.conj()]. *)
Definition conj (a : ndarray) : M ndarray := perform op_conj (val.conj a).

(** [a * b] on arrays of one shape. *)
Definition multiply (a b : ndarray) : M ndarray :=
  perform op_multiply (val.multiply a b).

(** [jnp.abs(a)]: a real array. *)
Definition abs (a : ndarray) : M ndarray := perform op_abs (val.abs a).

(** [jnp.maximum(a, x)] for a real array and a real scalar. *)
Definition maximum (a : ndarray) (x : R) : M ndarray :=
  perform op_maximum (val.maximum a x).

(** [a / b] for an array [a] and a real array [b] of one shape. *)
Definition divide (a b : ndarray) : M ndarray :=
  perform op_divide (val.divide a b).

(** [jnp.real(a)]. *)
Definition real (a : ndarray) : M ndarray := perform op_real (val.real a).

(** [jnp.sum(a)] of a real array. *)
Definition sum (a : ndarray) : M R := perform op_sum (val.sum a).

(** [jnp.argmax(a)] of a real array, flattened; an empty array is refused. *)
Definition argmax (a : ndarray) : M nat :=
  match flat a with
  | [] => raise (ValueError "attempt to get argmax of an empty sequence")
  | _ :: _ => perform op_argmax (val.argmax (map Cx.re (flat a)))
  end.

(** [jnp.exp(z * a)] for a complex scalar [z] and a real array [a]. *)
Definition exp_scaled (z : C) (a : ndarray) : M ndarray :=
  perform op_exp (val.exp_scaled z a).

(** [a.astype(d, copy=False)]. *)
Definition astype (d : scalar_type) (a : ndarray) : ndarray :=
  map_arr d (cast d) a.

(** [jnp.arange(n)] as real numbers; empty when [n <= 0]. *)
Definition arange (n : Z) : list R := map INR (seq 0 (Z.to_nat n)).

(** [jnp.fft.fftfreq(n, d)]: the signed sample index over [n * d]. *)
Definition fftfreq_index (n i : nat) : Z :=
  if (i <=? (n - 1) / 2)%nat then Z.of_nat i else (Z.of_nat i - Z.of_nat n)%Z.

Definition fftfreq (n : nat) (d : R) : list R :=
  map (fun i => IZR (fftfreq_index n i) / (INR n * d)) (seq 0 n).

(** [u[:, None] * v]: the matrix of all products, as a two-dimensional
    real array. *)
Definition outer (d : scalar_type) (u v : list R) : ndarray :=
  {| shape := [length u; length v]; dtype := d;
     flat := flat_map (fun x => map (fun y => Cx.of_R (x * y)) v) u |}.

(** [jnp.tensordot(a, b, axes=(1, -1))]: the matrix [a] contracted along
    its columns with the last axis of [b]; the contracted axis is
    replaced by the rows of [a] and comes first in the result. *)
Definition tensordot (a b : ndarray) : M ndarray :=
  match shape a, rev (shape b) with
  | [K; N], n :: _ =>
      if (N =? n)%nat then
        perform op_tensordot
          {| shape := K :: removelast (shape b);
             dtype := result_type (dtype a) (dtype b);
             flat := flat_map
                       (fun krow =>
                          map (dot krow)
                            (rows n (prod (removelast (shape b))) (flat b)))
                       (rows N K (flat a)) |}
      else raise (TypeError "tensordot: contracted axes differ in length")
  | _, _ => raise (TypeError "tensordot: axis out of range")
  end.

End jnp.

(** ** Python and scalar helpers *)

(** [str.lower] on the ASCII letters. *)
Definition lower_ascii (c : ascii) : ascii :=
  let n := nat_of_ascii c in
  if ((65 <=? n) && (n <=? 90))%nat then ascii_of_nat (n + 32) else c.

Fixpoint lower (s : string) : string :=
  match s with
  | EmptyString => EmptyString
  | String c t => String (lower_ascii c) (lower t)
  end.

Definition is_None {A} (o : option A) : bool :=
  match o with None => true | Some _ => false end.

(** [repr] of a non-negative integer. *)
Definition repr_int (n : nat) : string := NilZero.string_of_uint (Nat.to_uint n).

(** [repr] of a tuple of integers, as [f"{a.shape}"] prints a shape:
    [()], [(2,)], [(2, 3)]. *)
Definition repr_tuple (s : list nat) : string :=
  match s with
  | [] => "()"
  | [d] => "(" ++ repr_int d ++ ",)"
  | _ => "(" ++ String.concat ", " (map repr_int s) ++ ")"
  end%string.

(** The one-character string holding a double quote. *)
Definition double_quote : string := String (ascii_of_nat 34) EmptyString.

(** [for x in l: s = body(x, s)]. *)
Fixpoint for_each {A S} (l : list A) (body : A -> S -> M S) (s : S) : M S :=
  match l with
  | [] => ret s
  | x :: t => s' <- body x s ;; for_each t body s'
  end.

Definition map2 {A B D} (f : A -> B -> D) (u : list A) (v : list B) : list D :=
  map (fun p => f (fst p) (snd p)) (combine u v).

(** [jnp.where(c, x, y)] on vectors of one length. *)
Definition where_ (c : list bool) (x y : list R) : list R :=
  map2 (fun (b : bool) (p : R * R) => if b then fst p else snd p) c (combine x y).

Definition Rgtb (x y : R) : bool := if Rlt_dec y x then true else false.

(** [jnp.floor] on one element. *)
Definition Rfloor (x : R) : R := IZR (Int_part x).

(** [jnp.round] on one element: to the nearest integer, ties to even. *)
Definition Rround (x : R) : R :=
  let f := Int_part x in
  let d := x - IZR f in
  if Rlt_dec d (1 / 2) then IZR f
  else if Rlt_dec (1 / 2) d then IZR (f + 1)
  else if Z.even f then IZR f else IZR (f + 1).

(** [jnp.arctan2(y, x)] on real numbers.  Where [y] is a zero and [x]
    is negative or a zero, the engine answers by the signs of the
    floating-point zeros: for [x < 0] it returns [pi] at [y = +0.0] and
    [-pi] at [y = -0.0].  A real number carries no such sign: the value
    given here on the negative real axis and at the origin is the one
    the engine returns for positive zeros, and it says nothing about
    the engine for negative ones. *)
Definition arctan2 (y x : R) : R :=
  if Rlt_dec 0 x then atan (y / x)
  else if Rlt_dec x 0 then
    (if Rle_dec 0 y then atan (y / x) + PI else atan (y / x) - PI)
  else if Rlt_dec 0 y then PI / 2
  else if Rlt_dec y 0 then - (PI / 2)
  else 0.

(** ** [_upsampled_dft] *)

(** One pass of the loop of [_upsampled_dft] for the dimension
    properties [(n_items, ups_size, ax_offset)]. *)
Definition upsampled_dft_step (upsample_factor : Z)
    (p : nat * (Z * R)) (data : ndarray) : M ndarray :=
  let '(n_items, (ups_size, ax_offset)) := p in
  let kernel :=
    jnp.outer (real_dtype (dtype data))
      (map (fun x => x - ax_offset) (jnp.arange ups_size))
      (jnp.fftfreq n_items (IZR upsample_factor)) in
  kernel <- jnp.exp_scaled (Cx.opp jnp.im2pi) kernel ;;
  let kernel := jnp.astype (dtype data) kernel in
  jnp.tensordot kernel data.

(** [upsampled_region_size] is one integer ([inl]) or a sequence of
    integers ([inr]); [axis_offsets] is [None] or a sequence. *)
Definition _upsampled_dft (data : ndarray) (upsampled_region_size : Z + list Z)
    (upsample_factor : Z) (axis_offsets : option (list R)) : M ndarray :=
  upsampled_region_size <-
    match upsampled_region_size with
    | inl n => ret (repeat n (ndim data))
    | inr l =>
        if negb (length l =? ndim data)%nat then
          raise (ValueError
            "shape of upsampled region sizes must be equal to input data's number of dimensions.")
        else ret l
    end ;;
  axis_offsets <-
    match axis_offsets with
    | None => ret (repeat 0 (ndim data))
    | Some l =>
        if negb (length l =? ndim data)%nat then
          raise (ValueError
            "number of axis offsets must be equal to input data's number of dimensions.")
        else ret l
    end ;;
  let dim_properties :=
    combine (shape data) (combine upsampled_region_size axis_offsets) in
  for_each (rev dim_properties) (upsampled_dft_step upsample_factor) data.

(** ** [_compute_error] and [_compute_phasediff] *)

(** The quotient by [amp] is the total division of the real numbers:
    at [amp = 0], where the engine produces a non-finite float, the
    value given here carries no meaning. *)
Definition _compute_error (cross_correlation_max : C) (src_amp target_amp : R) : R :=
  let amp := src_amp * target_amp in
  let error :=
    Cx.sub (Cx.of_R 1)
      (Cx.div_R (Cx.mul cross_correlation_max (Cx.conj cross_correlation_max)) amp) in
  sqrt (Cx.abs error).

Definition _compute_phasediff (cross_correlation_max : C) : R :=
  arctan2 (Cx.im cross_correlation_max) (Cx.re cross_correlation_max).

(** ** [phase_cross_correlation] *)

(** [jnp.sum(jnp.real(f * jnp.conj(f)))]. *)
Definition sum_real_sq (f : ndarray) : M R :=
  fc <- jnp.conj f ;;
  p <- jnp.multiply f fc ;;
  r <- jnp.real p ;;
  jnp.sum r.

(** [jnp.unravel_index(jnp.argmax(jnp.abs(a)), a.shape)]. *)
Definition argmax_abs (a : ndarray) : M (list nat) :=
  m <- jnp.abs a ;;
  i <- jnp.argmax m ;;
  ret (unravel_index i (shape a)).

(** [a.real]: the real parts of a complex array, computed by an
    element-wise pass of the engine; a real array is returned as it
    is. *)
Definition real_part (a : ndarray) : M ndarray :=
  if is_complex (dtype a) then jnp.real a else ret a.

(** The message of the shape error:
    [f"images must be same shape, got {reference_image.shape=} != {moving_image.shape=}"]. *)
Definition shape_error_message (reference_image moving_image : ndarray) : string :=
  ("images must be same shape, got reference_image.shape="
   ++ repr_tuple (shape reference_image)
   ++ " != moving_image.shape="
   ++ repr_tuple (shape moving_image))%string.

(** The message of the space error, which quotes the two accepted
    values in double quotes. *)
Definition space_error_message : string :=
  ("space argument must be " ++ double_quote ++ "real" ++ double_quote
   ++ " or " ++ double_quote ++ "fourier" ++ double_quote)%string.

Definition phase_cross_correlation
    (reference_image moving_image : ndarray)
    (upsample_factor : Z) (space : string) (disambiguate : bool)
    (reference_mask moving_mask : option ndarray)
    (overlap_ratio : R) (normalization : option string)
  : M (list R * R * R) :=
  if negb (is_None reference_mask) || negb (is_None moving_mask) then
    raise (NotImplementedError "Masked phase cross-correlation is not implemented.")
  else
  reference_real <- real_part reference_image ;;
  moving_real <- real_part moving_image ;;
  let float_dtype := result_type (dtype reference_real) (dtype moving_real) in
  if negb (if list_eq_dec Nat.eq_dec (shape reference_image) (shape moving_image)
           then true else false) then
    raise (ValueError (shape_error_message reference_image moving_image))
  else
  freqs <-
    (if String.eqb (lower space) "fourier" then
       ret (jnp.asarray reference_image, jnp.asarray moving_image)
     else if String.eqb (lower space) "real" then
       src_freq <- jnp.fftn reference_image ;;
       target_freq <- jnp.fftn moving_image ;;
       ret (src_freq, target_freq)
     else raise (ValueError space_error_message)) ;;
  let src_freq := fst freqs in
  let target_freq := snd freqs in
  target_conj <- jnp.conj target_freq ;;
  image_product <- jnp.multiply src_freq target_conj ;;
  image_product <-
    match normalization with
    | Some n =>
        if String.eqb n "phase" then
          let eps := finfo_eps float_dtype in
          mag <- jnp.abs image_product ;;
          den <- jnp.maximum mag (100 * eps) ;;
          jnp.divide image_product den
        else raise (ValueError "normalization must be either phase or None")
    | None => ret image_product
    end ;;
  cross_correlation <- jnp.ifftn image_product ;;
  maxima <- argmax_abs cross_correlation ;;
  let shape_ := shape src_freq in
  let midpoint := map (fun d => Rfloor (INR d / 2)) shape_ in
  let shift := map INR maxima in
  let shift :=
    where_ (map2 Rgtb shift midpoint) (map2 Rminus shift (map INR shape_)) shift in
  res <-
    (if (upsample_factor =? 1)%Z then
       s <- sum_real_sq src_freq ;;
       let src_amp := s / INR (size src_freq) in
       t <- sum_real_sq target_freq ;;
       let target_amp := t / INR (size target_freq) in
       let CCmax := get cross_correlation maxima in
       ret (shift, CCmax, src_amp, target_amp)
     else
       let uf := IZR upsample_factor in
       let shift := map (fun x => Rround (x * uf) / uf) shift in
       let upsampled_region_size := Qceiling (inject_Z upsample_factor * (3 # 2)) in
       let dftshift := Qfloor (inject_Z upsampled_region_size / 2) in
       let sample_region_offset := map (fun x => IZR dftshift - x * uf) shift in
       ipc <- jnp.conj image_product ;;
       up <- _upsampled_dft ipc (inl upsampled_region_size) upsample_factor
               (Some sample_region_offset) ;;
       cross_correlation <- jnp.conj up ;;
       maxima <- argmax_abs cross_correlation ;;
       let CCmax := get cross_correlation maxima in
       let maxima := map (fun m => INR m - IZR dftshift) maxima in
       let shift := map2 Rplus shift (map (fun m => m / uf) maxima) in
       src_amp <- sum_real_sq src_freq ;;
       target_amp <- sum_real_sq target_freq ;;
       ret (shift, CCmax, src_amp, target_amp)) ;;
  let '(shift, CCmax, src_amp, target_amp) := res in
  let shift :=
    where_ (map (fun d => (d =? 1)%nat) shape_) (repeat 0 (length shift)) shift in
  if disambiguate then
    raise (NotImplementedError "disambiguation is not yet supported")
  else
  let error := _compute_error CCmax src_amp target_amp in
  let phasediff := _compute_phasediff CCmax in
  ret (shift, error, phasediff).

(** * Quantities used in the statements *)

(** The matrix with [K] rows and [n] columns whose entry [(k, m)] is
    [h k m]. *)
Definition matrix (d : scalar_type) (K n : nat) (h : nat -> nat -> C) : ndarray :=
  {| shape := [K; n]; dtype := d;
     flat := flat_map (fun k => map (h k) (seq 0 n)) (seq 0 K) |}.

(** Entry [(k, m)] of the kernel built for an axis of length [n_items]:
    [exp(-2 pi i (k - ax_offset) fftfreq(n_items, upsample_factor)[m])]. *)
Definition kernel_entry (upsample_factor : Z) (n_items : nat) (ax_offset : R)
    (k m : nat) : C :=
  Cx.exp (Cx.mul (Cx.opp jnp.im2pi)
            (Cx.of_R ((INR k - ax_offset)
                      * (IZR (jnp.fftfreq_index n_items m)
                         / (INR n_items * IZR upsample_factor))))).

(** One pass of the loop, as a contraction with the kernel matrix of the
    axis: [ups_size] rows, [n_items] columns, its entries cast to the
    element type of the data. *)
Definition contract_axis (uf : Z) (p : nat * (Z * R)) (data : ndarray) : M ndarray :=
  let '(n_items, (ups_size, ax_offset)) := p in
  bind (perform op_exp tt)
    (fun _ => jnp.tensordot
                (matrix (dtype data) (Z.to_nat ups_size) n_items
                   (fun k m => cast (dtype data) (kernel_entry uf n_items ax_offset k m)))
                data).

(** Product over the axes of the kernel entries, cast to [dt], at output
    index [ks] and input index [ns]. *)
Fixpoint cast_kernel_prod (dt : scalar_type) (uf : Z) (ps : list (nat * (Z * R)))
    (ks ns : list nat) : C :=
  match ps, ks, ns with
  | (n, (_, off)) :: ps', k :: ks', m :: ns' =>
      Cx.mul (cast dt (kernel_entry uf n off k m)) (cast_kernel_prod dt uf ps' ks' ns')
  | _, _, _ => Cx.one
  end.

(** The same product for complex data, where the cast keeps the entries. *)
Fixpoint kernel_prod (uf : Z) (ps : list (nat * (Z * R))) (ks ns : list nat) : C :=
  match ps, ks, ns with
  | (n, (_, off)) :: ps', k :: ks', m :: ns' =>
      Cx.mul (kernel_entry uf n off k m) (kernel_prod uf ps' ks' ns')
  | _, _, _ => Cx.one
  end.

Definition region_shape (ps : list (nat * (Z * R))) : list nat :=
  map (fun p => Z.to_nat (fst (snd p))) ps.

(** The region sizes and axis offsets after the argument checks. *)
Definition region_sizes (data : ndarray) (upsampled_region_size : Z + list Z) : list Z :=
  match upsampled_region_size with
  | inl n => repeat n (ndim data)
  | inr l => l
  end.

Definition offsets (data : ndarray) (axis_offsets : option (list R)) : list R :=
  match axis_offsets with
  | None => repeat 0 (ndim data)
  | Some l => l
  end.

Definition dim_properties (data : ndarray) (upsampled_region_size : Z + list Z)
    (axis_offsets : option (list R)) : list (nat * (Z * R)) :=
  combine (shape data)
    (combine (region_sizes data upsampled_region_size) (offsets data axis_offsets)).

(** The sequences, where given, have one entry per axis of the data. *)
Definition lengths_match (data : ndarray)
    (upsampled_region_size : Z + list Z) (axis_offsets : option (list R)) : Prop :=
  length (region_sizes data upsampled_region_size) = ndim data
  /\ length (offsets data axis_offsets) = ndim data.


Definition valid_space (space : string) : Prop :=
  lower space = "real"%string \/ lower space = "fourier"%string.

Definition valid_normalization (normalization : option string) : Prop :=
  normalization = None \/ normalization = Some "phase"%string.

(** The frequency-domain form of an input, by [space]. *)
Definition to_freq (space : string) (a : ndarray) : ndarray :=
  if String.eqb (lower space) "fourier" then a else val.fftn a.

Definition float_dtype_of (reference_image moving_image : ndarray) : scalar_type :=
  result_type (real_dtype (dtype reference_image)) (real_dtype (dtype moving_image)).

(** The cross-power spectrum, normalised to unit magnitude under
    ["phase"]. *)
Definition image_product_of (reference_image moving_image : ndarray)
    (space : string) (normalization : option string) : ndarray :=
  let ip := val.multiply (to_freq space reference_image)
              (val.conj (to_freq space moving_image)) in
  match normalization with
  | Some _ =>
      val.divide ip
        (val.maximum (val.abs ip)
           (100 * finfo_eps (float_dtype_of reference_image moving_image)))
  | None => ip
  end.

(** The cross-correlation surface. *)
Definition cross_correlation_of (reference_image moving_image : ndarray)
    (space : string) (normalization : option string) : ndarray :=
  val.ifftn (image_product_of reference_image moving_image space normalization).

(** Index of the first element of maximum magnitude. *)
Definition peak (a : ndarray) : list nat :=
  unravel_index (val.argmax (map Cx.re (flat (val.abs a)))) (shape a).

(** [sum(Re(f * conj(f)))]. *)
Definition energy (f : ndarray) : R :=
  val.sum (val.real (val.multiply f (val.conj f))).

(** The periodic index [m] on an axis of length [d] as a signed shift. *)
Definition wrap (d m : nat) : R :=
  if (d / 2 <? m)%nat then INR m - INR d else INR m.

Definition integer_shift (shape_ maxima : list nat) : list R := map2 wrap shape_ maxima.

(** Shift components on axes of length one are set to zero. *)
Definition zero_singleton (shape_ : list nat) (shift : list R) : list R :=
  map2 (fun (d : nat) (s : R) => if (d =? 1)%nat then 0 else s) shape_ shift.

(** The inputs are well-formed arrays of one shape with no empty axis. *)
Definition valid_inputs (reference_image moving_image : ndarray) : Prop :=
  wf reference_image /\ wf moving_image
  /\ shape reference_image = shape moving_image
  /\ Forall (fun d => (0 < d)%nat) (shape reference_image).

(** [ceil(upsample_factor * 1.5)]. *)
Definition upsampled_region_size_of (upsample_factor : Z) : Z :=
  Qceiling (inject_Z upsample_factor * (3 # 2)).

(** [floor(upsampled_region_size / 2.0)]. *)
Definition dftshift_of (upsample_factor : Z) : Z :=
  Qfloor (inject_Z (upsampled_region_size_of upsample_factor) / 2).

(** The integer estimate rounded to the upsampled grid. *)
Definition rounded_shift (upsample_factor : Z) (shift : list R) : list R :=
  map (fun x => Rround (x * IZR upsample_factor) / IZR upsample_factor) shift.

(** [dftshift - shift * upsample_factor], per axis. *)
Definition sample_region_offset_of (upsample_factor : Z) (shift : list R) : list R :=
  map (fun x => IZR (dftshift_of upsample_factor) - x * IZR upsample_factor) shift.

(** The value a call returns, [d] if it raises. *)
Definition value_of {A} (m : M A) (d : A) : A :=
  match outcome m with
  | inr a => a
  | inl _ => d
  end.

(** The patch of the upsampled cross-correlation around the integer
    estimate. *)
Definition upsampled_patch (reference_image moving_image : ndarray)
    (space : string) (normalization : option string) (upsample_factor : Z) : ndarray :=
  let ip := image_product_of reference_image moving_image space normalization in
  let shift :=
    rounded_shift upsample_factor
      (integer_shift (shape reference_image) (peak (val.ifftn ip))) in
  val.conj
    (value_of
       (_upsampled_dft (val.conj ip) (inl (upsampled_region_size_of upsample_factor))
          upsample_factor (Some (sample_region_offset_of upsample_factor shift)))
       ip).

(** The rounded estimate plus the offset of the patch peak from the
    patch centre, in upsampled samples. *)
Definition refined_shift (upsample_factor : Z) (shift : list R) (maxima : list nat)
  : list R :=
  map2 Rplus shift
    (map (fun m => (INR m - IZR (dftshift_of upsample_factor)) / IZR upsample_factor)
       maxima).

(** A one-dimensional spectrum of two samples, and a second one. *)
Definition example_reference : ndarray :=
  {| shape := [2%nat]; dtype := complex64; flat := [(1, 0); (-1, -2)] |}.

Definition example_moving : ndarray :=
  {| shape := [2%nat]; dtype := complex64; flat := [(1, 0); (1, 0)] |}.

(** A column: two samples on the first axis, one on the second. *)
Definition example_column : ndarray :=
  {| shape := [2%nat; 1%nat]; dtype := complex64; flat := [(1, 0); (0, 1)] |}.

(** An array of another shape. *)
Definition example_other_shape : ndarray :=
  {| shape := [3%nat]; dtype := complex64; flat := [(1, 0); (0, 0); (0, 0)] |}.



(** The value of [a.real]. *)
Definition real_value (a : ndarray) : ndarray :=
  if is_complex (dtype a) then val.real a else a.

(** The array operations of the two [.real] attributes read for
    [float_dtype]: one element-wise pass per complex image, none for a
    real image. *)
Definition real_pass (a : ndarray) : list numeric_op :=
  if is_complex (dtype a) then [op_real] else [].

Definition real_part_passes (reference_image moving_image : ndarray)
  : list numeric_op :=
  real_pass reference_image ++ real_pass moving_image.



(** [exp(2 pi i q / 4)] for an integer [q], by its residue modulo 4. *)
Definition quarter_turn (q : Z) : C :=
  match (q mod 4)%Z with
  | 0%Z => (1, 0)
  | 1%Z => (0, 1)
  | 2%Z => (-1, 0)
  | _ => (0, -1)
  end.

(** [numpy.fft.fftshift]: the zero-frequency term moves to the centre. *)
Definition fftshift (a : ndarray) : ndarray :=
  build (shape a) (dtype a)
    (fun idx => get a (map2 (fun n j => (j + (n - n / 2)) mod n)%nat (shape a) idx)).

(** [numpy.fft.ifftshift]: the centre moves back to index [0]. *)
Definition ifftshift (a : ndarray) : ndarray :=
  build (shape a) (dtype a)
    (fun idx => get a (map2 (fun n j => (j + n / 2) mod n)%nat (shape a) idx)).

(** Index into the small array of the element that the centred
    embedding puts at [idx] of the big array, if there is one. *)
Fixpoint center_index (small big idx : list nat) : option (list nat) :=
  match small, big, idx with
  | [], [], [] => Some []
  | n :: s, m :: b, j :: i =>
      let c := (m / 2 - n / 2)%nat in
      if ((c <=? j) && (j <? c + n))%nat
      then option_map (cons (j - c)%nat) (center_index s b i)
      else None
  | _, _, _ => None
  end.

(** The array of shape [big], zero but for [a] embedded centre on
    centre. *)
Definition embed_center (a : ndarray) (big : list nat) : ndarray :=
  build big (dtype a)
    (fun idx =>
       match center_index (shape a) big idx with
       | Some i => get a i
       | None => Cx.zero
       end).

(** Zero-padding of a spectrum to [factor] times its shape: the spectrum
    is centred, embedded in the larger array of zeros, and shifted back,
    so that the zero-frequency term stays at index [0]. *)
Definition zero_pad (a : ndarray) (factor : nat) : ndarray :=
  ifftshift (embed_center (fftshift a) (map (Nat.mul factor) (shape a))).

(** [a[start : start + sizes]] on every axis. *)
Definition slice_from (a : ndarray) (start : list Z) (sizes : list nat) : ndarray :=
  build sizes (dtype a)
    (fun k => get a (map2 (fun z j => Z.to_nat (z + Z.of_nat j)) start k)).

(** The window of [sizes] entries per axis whose entry [k] is the entry
    [(k - start) mod shape] of [a], taken periodically. *)
Definition periodic_window (a : ndarray) (start : list Z) (sizes : list nat) : ndarray :=
  build sizes (dtype a)
    (fun k =>
       get a (map2 (fun (zm : Z * nat) (j : nat) =>
                      Z.to_nat ((Z.of_nat j - fst zm) mod Z.of_nat (snd zm)))
                (combine start (shape a)) k)).

(** The reference computation as the specification words it: zero-pad
    the data to [upsample_factor] times its shape, inverse-shift, take
    the full DFT, and slice out the window of shape [region_size]
    starting at [axis_offsets]. *)
Definition padded_dft_window_at_offsets (data : ndarray) (region_size : list nat)
    (upsample_factor : nat) (axis_offsets : list Z) : ndarray :=
  slice_from (val.fftn (zero_pad data upsample_factor)) axis_offsets region_size.

(** The same with the window taken periodically from [- axis_offsets]. *)
Definition padded_dft_window_before_offsets (data : ndarray) (region_size : list nat)
    (upsample_factor : nat) (axis_offsets : list Z) : ndarray :=
  periodic_window (val.fftn (zero_pad data upsample_factor)) axis_offsets region_size.

(** Position in the padded axis of length [m] of sample [i] of an axis
    of length [n], and the sample found at a position. *)
Definition pad_position (n m i : nat) : nat :=
  if (i <=? (n - 1) / 2)%nat then i else (i + m - n)%nat.

Definition pad_sample (n m j : nat) : option nat :=
  if (j <=? (n - 1) / 2)%nat then Some j
  else if (m - n / 2 <=? j)%nat then Some (j + n - m)%nat
  else None.

Fixpoint pad_positions (small big idx : list nat) : list nat :=
  match small, big, idx with
  | n :: s, m :: b, i :: t => pad_position n m i :: pad_positions s b t
  | _, _, _ => []
  end.

Fixpoint pad_samples (small big idx : list nat) : option (list nat) :=
  match small, big, idx with
  | [], [], [] => Some []
  | n :: s, m :: b, j :: t =>
      match pad_sample n m j with
      | Some i => option_map (cons i) (pad_samples s b t)
      | None => None
      end
  | _, _, _ => None
  end.

(** Index into the DFT of the padded array for entry [ks] of the
    periodic window that starts at [- zs]. *)
Definition window_index (zs : list Z) (big ks : list nat) : list nat :=
  map2 (fun (zm : Z * nat) (k : nat) =>
          Z.to_nat ((Z.of_nat k - fst zm) mod Z.of_nat (snd zm)))
    (combine zs big) ks.

(** Offsets moved by whole periods [upsample_factor * shape] of the
    upsampled grid. *)
Definition offsets_moved_by_periods (data : ndarray) (upsample_factor : Z)
    (axis_offsets : list R) (periods : list Z) : list R :=
  map2 (fun (o : R) (tn : Z * nat) =>
          o + IZR (fst tn) * (IZR upsample_factor * INR (snd tn)))
    axis_offsets (combine periods (shape data)).

(** The sum of a list of real numbers. *)
Definition Rsum (l : list R) : R := fold_right Rplus 0 l.

(** The squared magnitude of a complex number. *)
Definition norm_sq (z : C) : R := Cx.re z * Cx.re z + Cx.im z * Cx.im z.

(** The unit phase factor [exp(2 pi i x)]. *)
Definition unit_phase (x : R) : C := (cos (2 * PI * x), sin (2 * PI * x)).

(** The element [z] of the cross-power spectrum after the normalisation
    step, [c] being [100 * eps]. *)
Definition normalize (norm : option string) (c : R) (z : C) : C :=
  match norm with
  | Some _ => Cx.div_R z (Rmax (Cx.abs z) c)
  | None => z
  end.

(** The weight with which a frequency of squared magnitude [a] enters
    the cross-correlation of an image with a translate of itself. *)
Definition spectral_weight (norm : option string) (c : R) (a : R) : R :=
  match norm with
  | Some _ => a / Rmax a c
  | None => a
  end.

(** The spectrum [G] is the spectrum [F] of an image translated by [t]
    samples, periodically: [G[k] = F[k] exp(-2 pi i sum_d k_d t_d / N_d)]. *)
Definition spectrum_translated (F G : ndarray) (t : list nat) : Prop :=
  forall k, in_bounds k (shape F) ->
    get G k = Cx.mul (get F k) (val.twiddle (Cx.opp Cx.one) (shape F) k t).

(** The index [0] on every axis, and the index [1] on axis [d] and [0]
    on the others. *)
Definition origin (n : nat) : list nat := repeat 0%nat n.

Fixpoint unit_index (n d : nat) : list nat :=
  match n with
  | O => []
  | S n' =>
      match d with
      | O => 1%nat :: origin n'
      | S d' => 0%nat :: unit_index n' d'
      end
  end.

(** Where the cross-correlation of an image with its translate by [t]
    peaks, and the shift this index stands for. *)
Definition translation_peak (s t : list nat) : list nat :=
  map2 (fun N t => ((N - t) mod N)%nat) s t.

Definition translation_shift (s t : list nat) : list R :=
  map2 (fun (N t : nat) => if (2 * t <? N)%nat then - INR t else INR N - INR t) s t.

(** The total weight of the spectrum. *)
Definition total_weight (F : ndarray) (norm : option string) (c : R) : R :=
  Rsum (map (fun k => spectral_weight norm c (norm_sq (get F k))) (indices (shape F))).

(** The spectrum [example_reference] of an image translated by one
    sample. *)
Definition example_translated : ndarray :=
  {| shape := [2%nat]; dtype := complex64; flat := [(1, 0); (1, 2)] |}.

(** [jnp.roll(a, t, axis)] over all axes: the image translated by [t]
    samples, periodically. *)
Definition roll (a : ndarray) (t : list nat) : ndarray :=
  build (shape a) (dtype a)
    (fun n =>
       get a (map2 (fun (Nt : nat * nat) (j : nat) =>
                      ((j + (fst Nt - snd Nt)) mod fst Nt)%nat)
                (combine (shape a) t) n)).

(** The offsets [sample_region_offset] that the refinement passes to
    [_upsampled_dft]. *)
Definition patch_offsets (reference_image moving_image : ndarray) (space : string)
    (normalization : option string) (upsample_factor : Z) : list R :=
  sample_region_offset_of upsample_factor
    (rounded_shift upsample_factor
       (integer_shift (shape reference_image)
          (peak (cross_correlation_of reference_image moving_image space
                   normalization)))).

(** The angle, in turns, of the conjugate kernel of [_upsampled_dft] at
    output index [ks] and input index [ns]:
    [sum_d (k_d - offset_d) * fftfreq(N_d, upsample_factor)[n_d]]. *)
Fixpoint patch_angle (uf : Z) (s : list nat) (offs : list R) (ks ns : list nat) : R :=
  match s, offs, ks, ns with
  | N :: s', o :: offs', k :: ks', n :: ns' =>
      (INR k - o) * (IZR (jnp.fftfreq_index N n) / (INR N * IZR uf))
      + patch_angle uf s' offs' ks' ns'
  | _, _, _, _ => 0
  end.

(** The index at which the upsampled patch of an image and an integer
    translate of it peaks: the centre [c] on every axis longer than
    one, and the first sample on the axes of length one, along which
    the patch is constant. *)
Definition patch_center (s : list nat) (c : nat) : list nat :=
  map (fun N => if (N =? 1)%nat then 0%nat else c) s.

(** The first axis longer than one on which [ks] is off the centre
    [c], if there is one. *)
Fixpoint off_center_axis (s : list nat) (c : nat) (ks : list nat) : option nat :=
  match s, ks with
  | N :: s', k :: ks' =>
      if ((1 <? N) && negb (k =? c))%nat then Some 0%nat
      else option_map S (off_center_axis s' c ks')
  | _, _ => None
  end.

(** An image of two samples. *)
Definition example_image : ndarray :=
  {| shape := [2%nat]; dtype := float32; flat := [(3, 0); (1, 0)] |}.

(** [c * a] for a real number [c]. *)
Definition scale (c : R) (a : ndarray) : ndarray :=
  map_arr (dtype a) (Cx.mul (Cx.of_R c)) a.

(** * Properties *)

(** ** Complex arithmetic *)

Ltac cx_unfold :=
  unfold Cx.sub, Cx.add, Cx.mul, Cx.opp, Cx.conj, Cx.div_R, Cx.of_R,
         Cx.zero, Cx.one, Cx.j, Cx.re, Cx.im in *.

Ltac cx_ring :=
  intros; cx_unfold; simpl;
  repeat match goal with z : C |- _ => destruct z end; simpl;
  f_equal; ring.

Lemma Cadd_comm (a b : C) : Cx.add a b = Cx.add b a.
Proof. cx_ring. Qed.

Lemma Cadd_assoc (a b c : C) : Cx.add a (Cx.add b c) = Cx.add (Cx.add a b) c.
Proof. cx_ring. Qed.

Lemma Cadd_0_l (a : C) : Cx.add Cx.zero a = a.
Proof. cx_ring. Qed.

Lemma Cadd_0_r (a : C) : Cx.add a Cx.zero = a.
Proof. cx_ring. Qed.

Lemma Cmul_comm (a b : C) : Cx.mul a b = Cx.mul b a.
Proof. cx_ring. Qed.

Lemma Cmul_assoc (a b c : C) : Cx.mul a (Cx.mul b c) = Cx.mul (Cx.mul a b) c.
Proof. cx_ring. Qed.

Lemma Cmul_0_l (a : C) : Cx.mul Cx.zero a = Cx.zero.
Proof. cx_ring. Qed.

Lemma Cmul_0_r (a : C) : Cx.mul a Cx.zero = Cx.zero.
Proof. cx_ring. Qed.

Lemma Cmul_1_l (a : C) : Cx.mul Cx.one a = a.
Proof. cx_ring. Qed.

Lemma Cmul_1_r (a : C) : Cx.mul a Cx.one = a.
Proof. cx_ring. Qed.

Lemma Cmul_add_distr_l (a b c : C) :
  Cx.mul a (Cx.add b c) = Cx.add (Cx.mul a b) (Cx.mul a c).
Proof. cx_ring. Qed.

(** [exp] turns sums into products. *)
Lemma Cexp_add (a b : C) : Cx.exp (Cx.add a b) = Cx.mul (Cx.exp a) (Cx.exp b).
Proof.
  destruct a as [x1 y1], b as [x2 y2]. unfold Cx.exp, Cx.add, Cx.mul. simpl.
  rewrite exp_plus, cos_plus, sin_plus. f_equal; ring.
Qed.

Lemma Cexp_0 : Cx.exp Cx.zero = Cx.one.
Proof.
  unfold Cx.exp, Cx.zero, Cx.one. simpl. rewrite exp_0, cos_0, sin_0.
  f_equal; ring.
Qed.

(** The phase factor [exp(sign * 2 pi i * x)] for a real [x]. *)
Lemma Cexp_im2pi (x : R) :
  Cx.exp (Cx.mul (Cx.opp jnp.im2pi) (Cx.of_R x))
  = (cos (2 * PI * x), - sin (2 * PI * x)).
Proof.
  unfold Cx.exp, jnp.im2pi. cx_unfold. simpl.
  replace (- (0 * 2 - 1 * 0) * PI - (0 * 0 + 1 * 2) * 0) with 0 by ring.
  replace (- ((0 * 2 - 1 * 0) * PI - (0 * 0 + 1 * 2) * 0) * x
           - - ((0 * 2 - 1 * 0) * 0 + (0 * 0 + 1 * 2) * PI) * 0) with 0 by ring.
  replace (- ((0 * 2 - 1 * 0) * PI - (0 * 0 + 1 * 2) * 0) * 0 +
           - ((0 * 2 - 1 * 0) * 0 + (0 * 0 + 1 * 2) * PI) * x)
    with (- (2 * PI * x)) by ring.
  rewrite exp_0, cos_neg, sin_neg. f_equal; ring.
Qed.

(** The phase factor only depends on [x] up to an integer. *)
Lemma cos_2PI_Z (x : R) (t : Z) : cos (2 * PI * (x + IZR t)) = cos (2 * PI * x).
Proof.
  destruct (Z_le_gt_dec 0 t) as [H | H].
  - replace (2 * PI * (x + IZR t)) with (2 * PI * x + 2 * INR (Z.to_nat t) * PI).
    + apply cos_period.
    + rewrite INR_IZR_INZ, Z2Nat.id by lia. ring.
  - rewrite <- (cos_period (2 * PI * (x + IZR t)) (Z.to_nat (- t))).
    f_equal. rewrite INR_IZR_INZ, Z2Nat.id by lia. rewrite opp_IZR. ring.
Qed.

Lemma sin_2PI_Z (x : R) (t : Z) : sin (2 * PI * (x + IZR t)) = sin (2 * PI * x).
Proof.
  destruct (Z_le_gt_dec 0 t) as [H | H].
  - replace (2 * PI * (x + IZR t)) with (2 * PI * x + 2 * INR (Z.to_nat t) * PI).
    + apply sin_period.
    + rewrite INR_IZR_INZ, Z2Nat.id by lia. ring.
  - rewrite <- (sin_period (2 * PI * (x + IZR t)) (Z.to_nat (- t))).
    f_equal. rewrite INR_IZR_INZ, Z2Nat.id by lia. rewrite opp_IZR. ring.
Qed.

Lemma Cexp_im2pi_period (x y : R) (t : Z) :
  y = x + IZR t ->
  Cx.exp (Cx.mul (Cx.opp jnp.im2pi) (Cx.of_R y))
  = Cx.exp (Cx.mul (Cx.opp jnp.im2pi) (Cx.of_R x)).
Proof.
  intros ->. rewrite !Cexp_im2pi, cos_2PI_Z, sin_2PI_Z. reflexivity.
Qed.

(** ** Finite sums *)

Lemma Csum_app (l1 l2 : list C) : Cx.sum (l1 ++ l2) = Cx.add (Cx.sum l1) (Cx.sum l2).
Proof.
  induction l1 as [| a l1 IH]; simpl.
  - now rewrite Cadd_0_l.
  - now rewrite IH, Cadd_assoc.
Qed.

Lemma Csum_map_ext {A} (f g : A -> C) (l : list A) :
  (forall x, In x l -> f x = g x) -> Cx.sum (map f l) = Cx.sum (map g l).
Proof.
  intros H. f_equal. apply map_ext_in, H.
Qed.

Lemma Csum_map_mul_l {A} (c : C) (f : A -> C) (l : list A) :
  Cx.sum (map (fun x => Cx.mul c (f x)) l) = Cx.mul c (Cx.sum (map f l)).
Proof.
  induction l as [| a l IH]; simpl.
  - now rewrite Cmul_0_r.
  - now rewrite IH, Cmul_add_distr_l.
Qed.

Lemma Csum_map_zero {A} (l : list A) : Cx.sum (map (fun _ => Cx.zero) l) = Cx.zero.
Proof.
  induction l as [| a l IH]; simpl; [reflexivity |].
  now rewrite IH, Cadd_0_l.
Qed.

Lemma Csum_flat_map {A B} (f : A -> list B) (g : B -> C) (l : list A) :
  Cx.sum (map g (flat_map f l)) = Cx.sum (map (fun a => Cx.sum (map g (f a))) l).
Proof.
  induction l as [| a l IH]; simpl; [reflexivity |].
  now rewrite map_app, Csum_app, IH.
Qed.

(** A sum over the indices of a shape is a sum over the first axis of
    sums over the other axes. *)
Lemma csum_idx_cons (d : nat) (ds : list nat) (f : list nat -> C) :
  csum_idx (d :: ds) f = csum_n d (fun i => csum_idx ds (fun n => f (i :: n))).
Proof.
  unfold csum_idx, csum_n. simpl. rewrite Csum_flat_map.
  apply Csum_map_ext. intros i _. now rewrite map_map.
Qed.

Lemma csum_idx_nil (f : list nat -> C) : csum_idx [] f = f [].
Proof. unfold csum_idx. simpl. apply Cadd_0_r. Qed.

Lemma csum_n_ext (n : nat) (f g : nat -> C) :
  (forall i, (i < n)%nat -> f i = g i) -> csum_n n f = csum_n n g.
Proof.
  intros H. apply Csum_map_ext. intros i Hi. apply H. apply in_seq in Hi. lia.
Qed.

(** ** Shapes and multi-indices *)

Lemma nth_flat_map_uniform {A B} (f : A -> list B) (w : nat) (l : list A)
    (k r : nat) (d : B) (da : A) :
  (forall x, In x l -> length (f x) = w) ->
  (k < length l)%nat -> (r < w)%nat ->
  nth (k * w + r) (flat_map f l) d = nth r (f (nth k l da)) d.
Proof.
  revert k. induction l as [| a l IH]; intros k Hw Hk Hr; simpl in Hk; [lia |].
  simpl flat_map. destruct k as [| k].
  - simpl. apply app_nth1. rewrite Hw by now left. exact Hr.
  - rewrite app_nth2 by (rewrite Hw by (now left); simpl; lia).
    rewrite Hw by now left.
    replace (S k * w + r - w)%nat with (k * w + r)%nat by (simpl; lia).
    simpl nth. apply IH; [intros x Hx; apply Hw; now right | lia | exact Hr].
Qed.

Lemma length_flat_map_uniform {A B} (f : A -> list B) (w : nat) (l : list A) :
  (forall x, In x l -> length (f x) = w) ->
  length (flat_map f l) = (length l * w)%nat.
Proof.
  induction l as [| a l IH]; intros Hw; simpl; [reflexivity |].
  rewrite length_app, Hw by now left.
  rewrite IH; [reflexivity | intros x Hx; apply Hw; now right].
Qed.

Lemma length_indices (s : list nat) : length (indices s) = prod s.
Proof.
  induction s as [| d ds IH]; simpl; [reflexivity |].
  rewrite (length_flat_map_uniform _ (prod ds)).
  - now rewrite length_seq.
  - intros x _. now rewrite length_map.
Qed.

Lemma in_bounds_length (idx s : list nat) : in_bounds idx s -> length idx = length s.
Proof. apply Forall2_length. Qed.

Lemma ravel_lt (s idx : list nat) : in_bounds idx s -> (ravel s idx < prod s)%nat.
Proof.
  intros H. induction H as [| i d idx s Hi _ IH]; simpl; [lia | nia].
Qed.

Lemma nth_indices (s idx : list nat) :
  in_bounds idx s -> nth (ravel s idx) (indices s) [] = idx.
Proof.
  intros H. induction H as [| i d idx s Hi Hb IH]; simpl; [reflexivity |].
  rewrite (nth_flat_map_uniform _ (prod s) _ _ _ _ 0%nat).
  - rewrite seq_nth by exact Hi. simpl.
    rewrite (nth_indep _ [] (i :: [])) by (rewrite length_map, length_indices; now apply ravel_lt).
    rewrite (map_nth (cons i)). now rewrite IH.
  - intros x _. now rewrite length_map, length_indices.
  - now rewrite length_seq.
  - now apply ravel_lt.
Qed.

Lemma in_indices (s idx : list nat) : In idx (indices s) <-> in_bounds idx s.
Proof.
  revert idx. induction s as [| d ds IH]; intros idx; simpl.
  - split.
    + intros [<- | []]. constructor.
    + intros H. inversion H. now left.
  - rewrite in_flat_map. split.
    + intros (i & Hi & Hin). apply in_map_iff in Hin as (t & <- & Ht).
      apply in_seq in Hi. constructor; [lia | now apply IH].
    + intros H. inversion H as [| i d' t ds' Hi Ht]; subst.
      exists i. split; [apply in_seq; lia |]. apply in_map, IH, Ht.
Qed.

Lemma get_build (s : list nat) (d : scalar_type) (f : list nat -> C) (idx : list nat) :
  in_bounds idx s -> get (build s d f) idx = f idx.
Proof.
  intros H. unfold get, build. simpl.
  rewrite (nth_indep _ Cx.zero (f []))
    by (rewrite length_map, length_indices; now apply ravel_lt).
  rewrite map_nth. now rewrite nth_indices.
Qed.

Lemma wf_build (s : list nat) (d : scalar_type) (f : list nat -> C) : wf (build s d f).
Proof. unfold wf, build. simpl. now rewrite length_map, length_indices. Qed.

Lemma prod_app (s t : list nat) : prod (s ++ t) = (prod s * prod t)%nat.
Proof.
  induction s as [| d s IH]; simpl; [lia |]. rewrite IH. lia.
Qed.

Lemma ravel_app (s t i j : list nat) :
  length i = length s ->
  ravel (s ++ t) (i ++ j) = (ravel s i * prod t + ravel t j)%nat.
Proof.
  revert i. induction s as [| d s IH]; intros [| a i] H; simpl in *; try discriminate.
  - reflexivity.
  - injection H as H. rewrite IH by exact H. rewrite prod_app. lia.
Qed.

Lemma in_bounds_app (i j s t : list nat) :
  in_bounds i s -> in_bounds j t -> in_bounds (i ++ j) (s ++ t).
Proof. apply Forall2_app. Qed.

Lemma unravel_index_length (i : nat) (s : list nat) :
  length (unravel_index i s) = length s.
Proof.
  revert i. induction s as [| d s IH]; intros i; simpl; [reflexivity |].
  now rewrite IH.
Qed.

Lemma prod_pos (s : list nat) : Forall (fun d => (0 < d)%nat) s -> (0 < prod s)%nat.
Proof.
  induction 1 as [| d s Hd _ IH]; simpl; [lia | nia].
Qed.

Lemma unravel_index_in_bounds (i : nat) (s : list nat) :
  (i < prod s)%nat -> in_bounds (unravel_index i s) s.
Proof.
  revert i. induction s as [| d s IH]; intros i Hi; simpl in *.
  - constructor.
  - assert (Hp : (0 < prod s)%nat) by (destruct (prod s); lia).
    constructor.
    + apply Nat.Div0.div_lt_upper_bound. lia.
    + apply IH. apply Nat.mod_upper_bound. lia.
Qed.

(** ** Contraction along the last axis *)

Lemma rows_length (n cnt : nat) (l : list C) : length (rows n cnt l) = cnt.
Proof.
  revert l. induction cnt as [| c IH]; intros l; simpl; [reflexivity |].
  now rewrite IH.
Qed.

Lemma nth_rows (n cnt : nat) (l : list C) (r : nat) :
  (r < cnt)%nat -> nth r (rows n cnt l) [] = firstn n (skipn (r * n) l).
Proof.
  revert l r. induction cnt as [| c IH]; intros l r Hr; [lia |].
  destruct r as [| r]; simpl.
  - reflexivity.
  - rewrite IH by lia. rewrite skipn_skipn. f_equal. f_equal. lia.
Qed.

Lemma rows_flat_map {A} (g : A -> list C) (n cnt : nat) (l : list A) :
  (forall x, length (g x) = n) -> cnt = length l ->
  rows n cnt (flat_map g l) = map g l.
Proof.
  intros Hg ->. induction l as [| a l IH]; simpl; [reflexivity |].
  assert (H1 : firstn n (g a ++ flat_map g l) = g a).
  { rewrite <- (Hg a). rewrite firstn_app, Nat.sub_diag, firstn_all.
    simpl. apply app_nil_r. }
  assert (H2 : skipn n (g a ++ flat_map g l) = flat_map g l).
  { rewrite <- (Hg a). rewrite skipn_app, Nat.sub_diag, skipn_all.
    reflexivity. }
  now rewrite H1, H2, IH.
Qed.

Lemma dot_nth (u v : list C) :
  length u = length v ->
  dot u v = csum_n (length u) (fun m => Cx.mul (nth m u Cx.zero) (nth m v Cx.zero)).
Proof.
  unfold dot, csum_n. revert v.
  induction u as [| a u IH]; intros [| b v] H; simpl in *; try discriminate.
  - reflexivity.
  - injection H as H. f_equal. rewrite IH by exact H.
    rewrite <- seq_shift, map_map. reflexivity.
Qed.

Lemma tensordot_spec (d : scalar_type) (K n : nat) (h : nat -> nat -> C)
    (s : list nat) (b : ndarray) :
  shape b = s ++ [n] -> wf b ->
  exists out,
    jnp.tensordot (matrix d K n h) b = ([op_tensordot], inr out)
    /\ shape out = K :: s
    /\ dtype out = result_type d (dtype b)
    /\ wf out
    /\ forall k j, (k < K)%nat -> in_bounds j s ->
         get out (k :: j)
         = csum_n n (fun m => Cx.mul (h k m) (get b (j ++ [m]))).
Proof.
  intros Hs Hwf. unfold jnp.tensordot, matrix.
  cbn [shape dtype flat]. rewrite Hs, rev_app_distr. cbn [rev app].
  rewrite Nat.eqb_refl, removelast_last.
  rewrite rows_flat_map by (try (intros; rewrite length_map); now rewrite length_seq).
  eexists. split; [reflexivity |].
  assert (Hlen : forall krow : list C,
             length (map (dot krow) (rows n (prod s) (flat b))) = prod s)
    by (intros; now rewrite length_map, rows_length).
  cbn [shape dtype flat]. repeat split.
  - unfold wf. cbn [shape flat prod fold_right].
    rewrite (length_flat_map_uniform _ (prod s)) by (intros; apply Hlen).
    now rewrite length_map, length_seq.
  - intros k j Hk Hj. unfold get at 1. cbn [shape flat ravel].
    fold (prod s).
    rewrite (nth_flat_map_uniform _ (prod s) _ _ _ _ [])
      by (try (intros; apply Hlen); try (now rewrite length_map, length_seq);
          now apply ravel_lt).
    rewrite (nth_indep _ [] (map (h 0%nat) (seq 0 n)))
      by (now rewrite length_map, length_seq).
    rewrite (map_nth (fun k => map (h k) (seq 0 n))), seq_nth by exact Hk.
    cbn [Nat.add].
    pose proof (ravel_lt _ _ Hj) as Hr.
    rewrite (nth_indep _ Cx.zero (dot (map (h k) (seq 0 n)) []))
      by (now rewrite length_map, rows_length).
    rewrite (map_nth (dot (map (h k) (seq 0 n)))).
    rewrite nth_rows by exact Hr.
    assert (Hfl : length (firstn n (skipn (ravel s j * n) (flat b))) = n).
    { rewrite length_firstn, length_skipn. unfold wf in Hwf.
      rewrite Hwf, Hs, prod_app. simpl. nia. }
    rewrite dot_nth by (now rewrite length_map, length_seq, Hfl).
    rewrite length_map, length_seq.
    apply csum_n_ext. intros m Hm. f_equal.
    + rewrite (nth_indep _ Cx.zero (h k 0%nat)) by (now rewrite length_map, length_seq).
      rewrite (map_nth (h k)), seq_nth by exact Hm. reflexivity.
    + rewrite nth_firstn. apply Nat.ltb_lt in Hm as Hm'. rewrite Hm'.
      rewrite nth_skipn. unfold get. rewrite Hs.
      rewrite ravel_app by now apply in_bounds_length.
      simpl. f_equal. lia.
Qed.

(** ** The call monad *)

Lemma bind_ret_r {A} (m : M A) : bind m ret = m.
Proof.
  destruct m as [t [e | a]]; simpl; [reflexivity |]. now rewrite app_nil_r.
Qed.

Lemma bind_assoc {A B D} (m : M A) (f : A -> M B) (g : B -> M D) :
  bind (bind m f) g = bind m (fun a => bind (f a) g).
Proof.
  destruct m as [t [e | a]]; simpl; [reflexivity |].
  destruct (f a) as [t1 [e | b]]; simpl; [reflexivity |].
  destruct (g b) as [t2 r]. now rewrite app_assoc.
Qed.

Lemma bind_value {A B} (t : list numeric_op) (a : A) (f : A -> M B) :
  bind (t, inr a) f = (t ++ trace (f a), outcome (f a)).
Proof. simpl. now destruct (f a). Qed.

Lemma for_each_app {A S} (l1 l2 : list A) (body : A -> S -> M S) (s : S) :
  for_each (l1 ++ l2) body s = bind (for_each l1 body s) (for_each l2 body).
Proof.
  revert s. induction l1 as [| x l1 IH]; intros s; simpl.
  - now destruct (for_each l2 body s).
  - rewrite bind_assoc. destruct (body x s) as [t [e | s']]; simpl; [reflexivity |].
    now rewrite IH.
Qed.

Lemma for_each_single {A S} (x : A) (body : A -> S -> M S) (s : S) :
  for_each [x] body s = body x s.
Proof. simpl. apply bind_ret_r. Qed.

(** ** The kernel of [_upsampled_dft] *)

Lemma map_flat_map {A B D} (f : B -> D) (g : A -> list B) (l : list A) :
  map f (flat_map g l) = flat_map (fun x => map f (g x)) l.
Proof.
  induction l as [| a l IH]; simpl; [reflexivity |]. now rewrite map_app, IH.
Qed.

Lemma flat_map_map {A B D} (f : A -> B) (g : B -> list D) (l : list A) :
  flat_map g (map f l) = flat_map (fun x => g (f x)) l.
Proof.
  induction l as [| a l IH]; simpl; [reflexivity |]. now rewrite IH.
Qed.

Lemma result_type_same (d : scalar_type) : result_type d d = d.
Proof. destruct d; reflexivity. Qed.

Lemma cast_complex (d : scalar_type) (z : C) : is_complex d = true -> cast d z = z.
Proof. unfold cast. now intros ->. Qed.

Lemma upsampled_dft_step_contract (uf : Z) (p : nat * (Z * R)) (data : ndarray) :
  upsampled_dft_step uf p data = contract_axis uf p data.
Proof.
  destruct p as [n_items [ups_size ax_offset]].
  unfold upsampled_dft_step, contract_axis, jnp.exp_scaled, val.exp_scaled, perform, bind.
  match goal with
  | |- (let (_, _) := jnp.tensordot ?a _ in _) = (let (_, _) := jnp.tensordot ?b _ in _) =>
      replace a with b; [reflexivity |]
  end.
  unfold matrix, jnp.astype, map_arr, jnp.outer, jnp.arange, jnp.fftfreq.
  cbn [shape dtype flat]. f_equal.
  - now rewrite !length_map, !length_seq.
  - rewrite !map_flat_map, !flat_map_map. apply flat_map_ext. intros k.
    rewrite !map_map. apply map_ext. intros m. reflexivity.
Qed.

Lemma upsampled_loop_contracts (uf : Z) (l : list (nat * (Z * R))) (data : ndarray) :
  for_each l (upsampled_dft_step uf) data = for_each l (contract_axis uf) data.
Proof.
  revert data. induction l as [| x l IH]; intros data; simpl; [reflexivity |].
  rewrite upsampled_dft_step_contract.
  destruct (contract_axis uf x data) as [t [e | s']]; simpl; [reflexivity |].
  now rewrite IH.
Qed.

Lemma cast_kernel_prod_complex (dt : scalar_type) (uf : Z) (ps : list (nat * (Z * R)))
    (ks ns : list nat) :
  is_complex dt = true -> cast_kernel_prod dt uf ps ks ns = kernel_prod uf ps ks ns.
Proof.
  intros Hc. revert ks ns.
  induction ps as [| [n [K off]] ps IH]; intros [| k ks] [| m ns]; simpl; try reflexivity.
  now rewrite IH, cast_complex.
Qed.

(** The loop of [_upsampled_dft] over the dimension properties [ps],
    run on data whose trailing axes are those of [ps] and whose leading
    axes [pre] are left alone: the trailing axes are replaced, in order,
    by the regions, which come first in the result. *)
Lemma upsampled_loop_spec (uf : Z) (ps : list (nat * (Z * R))) :
  forall (pre : list nat) (data : ndarray),
    shape data = pre ++ map fst ps -> wf data ->
    exists out,
      for_each (rev ps) (upsampled_dft_step uf) data
      = (concat (repeat [op_exp; op_tensordot] (length ps)), inr out)
      /\ shape out = region_shape ps ++ pre
      /\ dtype out = dtype data
      /\ wf out
      /\ forall ks i, in_bounds ks (region_shape ps) -> in_bounds i pre ->
           get out (ks ++ i)
           = csum_idx (map fst ps)
               (fun n => Cx.mul (cast_kernel_prod (dtype data) uf ps ks n)
                           (get data (i ++ n))).
Proof.
  induction ps as [| [n [K off]] ps IH]; intros pre data Hs Hwf.
  - exists data. simpl in *. rewrite app_nil_r in Hs.
    repeat split; try assumption.
    intros ks i Hks Hi. inversion Hks; subst. simpl.
    now rewrite csum_idx_nil, Cmul_1_l, app_nil_r.
  - simpl in Hs.
    destruct (IH (pre ++ [n]) data) as (inner & Hrun & Hsh & Hdt & Hwfi & Hget);
      [now rewrite <- app_assoc | assumption |].
    destruct (tensordot_spec (dtype inner) (Z.to_nat K) n
                (fun k m => cast (dtype inner) (kernel_entry uf n off k m))
                (region_shape ps ++ pre) inner)
      as (out & Hrun2 & Hsh2 & Hdt2 & Hwf2 & Hget2);
      [now rewrite Hsh, app_assoc | assumption |].
    exists out. split; [| split; [| split; [| split]]].
    + simpl rev. rewrite for_each_app, Hrun, bind_value, for_each_single.
      rewrite upsampled_dft_step_contract. unfold contract_axis.
      rewrite Hrun2. simpl. f_equal.
      change (op_exp :: op_tensordot
                :: concat (repeat [op_exp; op_tensordot] (length ps)))
        with (concat ([op_exp; op_tensordot]
                        :: repeat [op_exp; op_tensordot] (length ps))).
      rewrite repeat_cons, concat_app. simpl. reflexivity.
    + now rewrite Hsh2.
    + now rewrite Hdt2, result_type_same, Hdt.
    + assumption.
    + intros ks i Hks Hi. simpl in Hks.
      inversion Hks as [| k K' ks' Ks' Hk Hks']; subst. simpl.
      rewrite Hget2 by (try assumption; now apply in_bounds_app).
      rewrite csum_idx_cons. apply csum_n_ext. intros m Hm.
      rewrite <- app_assoc, Hget;
        [| assumption | apply in_bounds_app; [assumption | now repeat constructor]].
      unfold csum_idx. rewrite <- Csum_map_mul_l. apply Csum_map_ext.
      intros nn _. now rewrite <- app_assoc, Cmul_assoc, Hdt.
Qed.

Lemma map_fst_combine {A B} (l : list A) (l' : list B) :
  length l = length l' -> map fst (combine l l') = l.
Proof.
  revert l'. induction l as [| a l IH]; intros [| b l'] H; simpl in *;
    try discriminate; [reflexivity |].
  injection H as H. now rewrite IH.
Qed.

Lemma map_snd_combine {A B} (l : list A) (l' : list B) :
  length l = length l' -> map snd (combine l l') = l'.
Proof.
  revert l'. induction l as [| a l IH]; intros [| b l'] H; simpl in *;
    try discriminate; [reflexivity |].
  injection H as H. now rewrite IH.
Qed.

Lemma upsampled_dft_unfold (data : ndarray) (urs : Z + list Z) (uf : Z)
    (ao : option (list R)) :
  lengths_match data urs ao ->
  _upsampled_dft data urs uf ao
  = for_each (rev (dim_properties data urs ao)) (upsampled_dft_step uf) data.
Proof.
  intros [Hr Ho]. unfold _upsampled_dft, dim_properties.
  destruct urs as [n | l]; destruct ao as [o |]; simpl in *;
    repeat match goal with
           | H : length ?l = ndim data |- context [(length ?l =? ndim data)%nat] =>
               rewrite H, Nat.eqb_refl; simpl
           end;
    match goal with |- ?x = ?y => destruct y as [t r]; simpl; reflexivity end.
Qed.

(** Any call whose sequences match the dimensionality of well-formed
    data returns, with one [exp] and one [tensordot] per axis. *)
Lemma upsampled_dft_run (data : ndarray) (urs : Z + list Z) (uf : Z)
    (ao : option (list R)) :
  wf data -> lengths_match data urs ao ->
  let ps := dim_properties data urs ao in
  exists out,
    _upsampled_dft data urs uf ao
    = (concat (repeat [op_exp; op_tensordot] (ndim data)), inr out)
    /\ shape out = map Z.to_nat (region_sizes data urs)
    /\ dtype out = dtype data
    /\ wf out
    /\ forall ks,
         in_bounds ks (map Z.to_nat (region_sizes data urs)) ->
         get out ks
         = csum_idx (shape data)
             (fun ns => Cx.mul (cast_kernel_prod (dtype data) uf ps ks ns) (get data ns)).
Proof.
  intros Hwf Hl ps. pose proof Hl as [Hr Ho]. unfold ndim in *.
  assert (Hfst : map fst ps = shape data).
  { unfold ps, dim_properties. apply map_fst_combine.
    rewrite length_combine, Hr, Ho. unfold ndim. lia. }
  assert (Hreg : region_shape ps = map Z.to_nat (region_sizes data urs)).
  { unfold region_shape, ps, dim_properties.
    rewrite <- (map_map snd (fun q => Z.to_nat (fst q))), map_snd_combine
      by (rewrite length_combine, Hr, Ho; unfold ndim; lia).
    rewrite <- (map_map fst Z.to_nat), map_fst_combine by (now rewrite Hr, Ho).
    reflexivity. }
  assert (Hlen : length ps = length (shape data)) by (now rewrite <- Hfst, length_map).
  rewrite upsampled_dft_unfold by assumption. fold ps.
  destruct (upsampled_loop_spec uf ps [] data)
    as (out & Hrun & Hsh & Hdt & Hwfo & Hget);
    [now rewrite Hfst | assumption |].
  exists out. rewrite Hrun, Hlen. split; [reflexivity |].
  rewrite app_nil_r, Hreg in Hsh. repeat split; try assumption.
  intros ks Hks. rewrite <- Hreg in Hks.
  specialize (Hget ks [] Hks (Forall2_nil _)).
  rewrite app_nil_r, Hfst in Hget. exact Hget.
Qed.


(** ** Running [phase_cross_correlation] *)

Lemma bind_ret_l {A B} (a : A) (f : A -> M B) : bind (ret a) f = f a.
Proof. unfold bind, ret. now destruct (f a). Qed.

Lemma outcome_bind_perform {A B} (o : numeric_op) (v : A) (f : A -> M B) :
  outcome (bind (perform o v) f) = outcome (f v).
Proof. unfold bind, perform, outcome. now destruct (f v). Qed.


Lemma outcome_bind_eq {A B} (m : M A) (t : list numeric_op) (a : A) (f : A -> M B) :
  m = (t, inr a) -> outcome (bind m f) = outcome (f a).
Proof. intros ->. unfold bind, outcome. now destruct (f a). Qed.

Lemma trace_bind_eq {A B} (m : M A) (t : list numeric_op) (a : A) (f : A -> M B) :
  m = (t, inr a) -> trace (bind m f) = t ++ trace (f a).
Proof. intros ->. unfold bind, trace. now destruct (f a). Qed.

Lemma bind_run_eq {A B} (m : M A) (t : list numeric_op) (a : A) (f : A -> M B) :
  m = (t, inr a) -> bind m f = (t ++ trace (f a), outcome (f a)).
Proof. intros ->. unfold bind, trace, outcome. now destruct (f a). Qed.

(** The [.real] attribute never raises. *)
Lemma real_part_run (a : ndarray) : real_part a = (real_pass a, inr (real_value a)).
Proof.
  unfold real_part, real_pass, real_value, jnp.real, perform, ret.
  now destruct (is_complex (dtype a)).
Qed.

Lemma dtype_real_value (a : ndarray) : dtype (real_value a) = real_dtype (dtype a).
Proof.
  unfold real_value. destruct a as [s d f]. cbn [dtype].
  destruct d; reflexivity.
Qed.

(** The two [.real] attributes at the head of [phase_cross_correlation],
    in a goal about the outcome, about the trace, or about the call. *)
Ltac outcome_real_parts ref mov :=
  rewrite (outcome_bind_eq _ _ _ _ (real_part_run ref)); cbv beta;
  rewrite (outcome_bind_eq _ _ _ _ (real_part_run mov)); cbv beta;
  rewrite ?dtype_real_value.


Ltac call_real_parts ref mov :=
  rewrite (bind_run_eq _ _ _ _ (real_part_run ref)); cbv beta;
  rewrite (trace_bind_eq _ _ _ _ (real_part_run mov)),
          (outcome_bind_eq _ _ _ _ (real_part_run mov)); cbv beta;
  rewrite ?dtype_real_value.

(** The quantities of the algorithm, as values. *)

Lemma flat_nonempty (a : ndarray) :
  wf a -> Forall (fun d => (0 < d)%nat) (shape a) -> flat a <> [].
Proof.
  intros Hwf Hpos E. unfold wf in Hwf. rewrite E in Hwf. simpl in Hwf.
  apply prod_pos in Hpos. lia.
Qed.

Lemma argmax_abs_run (a : ndarray) :
  flat a <> [] -> argmax_abs a = ([op_abs; op_argmax], inr (peak a)).
Proof.
  intros H. unfold argmax_abs, jnp.abs, jnp.argmax, peak.
  destruct (flat a) as [| x t] eqn:E; [congruence |].
  unfold val.abs, map_arr, perform, bind, ret. cbn [flat shape map].
  rewrite E. cbn [map app]. reflexivity.
Qed.

Lemma sum_real_sq_run (f : ndarray) :
  sum_real_sq f = ([op_conj; op_multiply; op_real; op_sum], inr (energy f)).
Proof. reflexivity. Qed.

(** ** The integer-pixel shift *)

Lemma Rfloor_half (d : nat) : Rfloor (INR d / 2) = INR (d / 2).
Proof.
  unfold Rfloor. rewrite (INR_IZR_INZ (d / 2)). f_equal. symmetry.
  apply Int_part_spec. rewrite <- INR_IZR_INZ.
  pose proof (Nat.div_mod_eq d 2) as E.
  pose proof (Nat.mod_upper_bound d 2 ltac:(lia)) as Hr.
  assert (ER : INR d = 2 * INR (d / 2) + INR (d mod 2)).
  { rewrite E at 1. rewrite plus_INR, mult_INR. simpl. lra. }
  assert (H0 : 0 <= INR (d mod 2)) by apply pos_INR.
  assert (H1 : INR (d mod 2) <= 1).
  { replace 1 with (INR 1) by reflexivity. apply le_INR. lia. }
  lra.
Qed.

Lemma Rgtb_INR (m k : nat) : Rgtb (INR m) (INR k) = (k <? m)%nat.
Proof.
  unfold Rgtb. destruct (Rlt_dec (INR k) (INR m)) as [H | H].
  - apply INR_lt in H. symmetry. now apply Nat.ltb_lt.
  - symmetry. apply Nat.ltb_ge. apply Nat.nlt_ge. intros Hlt. apply H. now apply lt_INR.
Qed.

(** The shift computed from the peak: the signed form of the peak index. *)
Lemma where_integer_shift (shape_ maxima : list nat) :
  where_ (map2 Rgtb (map INR maxima) (map (fun d => Rfloor (INR d / 2)) shape_))
         (map2 Rminus (map INR maxima) (map INR shape_))
         (map INR maxima)
  = map2 (fun m d => wrap d m) maxima shape_.
Proof.
  unfold where_, map2. revert shape_.
  induction maxima as [| m maxima IH]; intros [| d shape_]; simpl; try reflexivity.
  rewrite IH. f_equal. rewrite Rfloor_half, Rgtb_INR. reflexivity.
Qed.

Lemma map2_swap {A B D} (f : A -> B -> D) (u : list A) (v : list B) :
  map2 (fun b a => f a b) v u = map2 f u v.
Proof.
  unfold map2. revert v. induction u as [| a u IH]; intros [| b v]; simpl;
    try reflexivity.
  now rewrite IH.
Qed.

Lemma where_zero_singleton (shape_ : list nat) (shift : list R) :
  where_ (map (fun d => (d =? 1)%nat) shape_) (repeat 0 (length shift)) shift
  = zero_singleton shape_ shift.
Proof.
  unfold where_, zero_singleton, map2. revert shift.
  induction shape_ as [| d shape_ IH]; intros [| s shift]; simpl; try reflexivity.
  now rewrite IH.
Qed.

Lemma length_map2 {A B D} (f : A -> B -> D) (u : list A) (v : list B) :
  length (map2 f u v) = Nat.min (length u) (length v).
Proof. unfold map2. now rewrite length_map, length_combine. Qed.

Lemma nth_map2 {A B D} (f : A -> B -> D) (u : list A) (v : list B)
    (i : nat) (da : A) (db : B) (dd : D) :
  (i < length u)%nat -> (i < length v)%nat ->
  nth i (map2 f u v) dd = f (nth i u da) (nth i v db).
Proof.
  unfold map2. revert v i.
  induction u as [| a u IH]; intros [| b v] [| i] Hu Hv; simpl in *; try lia.
  - reflexivity.
  - apply IH; lia.
Qed.

Ltac run_step :=
  first [ rewrite outcome_bind_perform
        | rewrite bind_ret_l
        | rewrite bind_assoc ];
  cbv beta zeta; cbn [fst snd].

Lemma frequencies_run (space : string) (ref mov : ndarray) :
  valid_space space ->
  (if (lower space =? "fourier")%string
   then ret (jnp.asarray ref, jnp.asarray mov)
   else
     if (lower space =? "real")%string
     then
       src_freq <- jnp.fftn ref;;
       target_freq <- jnp.fftn mov;; ret (src_freq, target_freq)
     else raise (ValueError space_error_message))
  = (if (lower space =? "fourier")%string then [] else [op_fftn; op_fftn],
     inr (to_freq space ref, to_freq space mov)).
Proof.
  intros Hsp. unfold to_freq. destruct Hsp as [E | E]; rewrite E; reflexivity.
Qed.

Lemma normalization_run (ref mov : ndarray) (space : string) (norm : option string) :
  valid_normalization norm ->
  match norm with
  | Some n =>
      if (n =? "phase")%string
      then
        mag <- jnp.abs (val.multiply (to_freq space ref) (val.conj (to_freq space mov)));;
        den <- jnp.maximum mag
                 (100 * finfo_eps (result_type (real_dtype (dtype ref))
                                               (real_dtype (dtype mov))));;
        jnp.divide (val.multiply (to_freq space ref) (val.conj (to_freq space mov))) den
      else raise (ValueError "normalization must be either phase or None")
  | None => ret (val.multiply (to_freq space ref) (val.conj (to_freq space mov)))
  end
  = (match norm with Some _ => [op_abs; op_maximum; op_divide] | None => [] end,
     inr (image_product_of ref mov space norm)).
Proof.
  intros [-> | ->]; reflexivity.
Qed.

Lemma shape_to_freq (space : string) (a : ndarray) : shape (to_freq space a) = shape a.
Proof. unfold to_freq. now destruct (lower space =? "fourier")%string. Qed.

Lemma shape_image_product (ref mov : ndarray) (space : string) (norm : option string) :
  shape (image_product_of ref mov space norm) = shape ref.
Proof.
  unfold image_product_of. destruct norm; cbn [shape val.divide val.multiply zip_arr];
    apply shape_to_freq.
Qed.

Lemma cross_correlation_nonempty (ref mov : ndarray) (space : string)
    (norm : option string) :
  Forall (fun d => (0 < d)%nat) (shape ref) ->
  flat (cross_correlation_of ref mov space norm) <> [].
Proof.
  intros Hpos. apply flat_nonempty.
  - apply wf_build.
  - unfold cross_correlation_of, val.ifftn. cbn [shape build].
    now rewrite shape_image_product.
Qed.

Lemma pcc_outcome_integer (ref mov : ndarray) (space : string) (dis : bool)
    (ov : R) (norm : option string) :
  valid_inputs ref mov -> valid_space space -> valid_normalization norm ->
  outcome (phase_cross_correlation ref mov 1 space dis None None ov norm)
  = if dis then inl (NotImplementedError "disambiguation is not yet supported")
    else
      let src := to_freq space ref in
      let tgt := to_freq space mov in
      let cc := cross_correlation_of ref mov space norm in
      let CCmax := get cc (peak cc) in
      inr (zero_singleton (shape ref) (integer_shift (shape ref) (peak cc)),
           _compute_error CCmax (energy src / INR (size src)) (energy tgt / INR (size tgt)),
           _compute_phasediff CCmax).
Proof.
  intros (Hwr & Hwm & Hsh & Hpos) Hsp Hn.
  unfold phase_cross_correlation. cbn [is_None negb orb].
  outcome_real_parts ref mov.
  destruct (list_eq_dec Nat.eq_dec (shape ref) (shape mov)) as [_ | Hne];
    [| contradiction].
  cbn [negb].
  pose proof (normalization_run ref mov space norm Hn) as Hnr.
  rewrite (outcome_bind_eq _ _ _ _ (frequencies_run space ref mov Hsp)). cbn [fst snd].
  unfold jnp.conj, jnp.multiply, jnp.abs, jnp.maximum, jnp.divide, jnp.ifftn in *.
  do 2 run_step.
  rewrite (outcome_bind_eq _ _ _ _ Hnr).
  run_step. fold (cross_correlation_of ref mov space norm).
  rewrite (outcome_bind_eq _ _ _ _
             (argmax_abs_run _ (cross_correlation_nonempty ref mov space norm Hpos))).
  cbn [Z.eqb Pos.eqb].
  run_step.
  rewrite (outcome_bind_eq _ _ _ _ (sum_real_sq_run _)).
  run_step.
  rewrite (outcome_bind_eq _ _ _ _ (sum_real_sq_run _)).
  run_step.
  destruct dis; cbn [outcome raise ret snd]; [reflexivity |].
  rewrite where_zero_singleton, where_integer_shift, map2_swap, !shape_to_freq.
  reflexivity.
Qed.

(** ** The subpixel refinement *)

Lemma upsampled_region_size_closed (uf : Z) :
  upsampled_region_size_of uf = ((3 * uf + 1) / 2)%Z.
Proof.
  unfold upsampled_region_size_of, Qceiling, Qfloor.
  cbn [Qopp Qmult inject_Z Qnum Qden Pos.mul].
  pose proof (Z.div_mod (- (uf * 3)) 2 ltac:(lia)).
  pose proof (Z.mod_pos_bound (- (uf * 3)) 2 ltac:(lia)).
  pose proof (Z.div_mod (3 * uf + 1) 2 ltac:(lia)).
  pose proof (Z.mod_pos_bound (3 * uf + 1) 2 ltac:(lia)).
  lia.
Qed.

Lemma dftshift_closed (uf : Z) :
  dftshift_of uf = ((3 * uf + 1) / 2 / 2)%Z.
Proof.
  unfold dftshift_of. rewrite upsampled_region_size_closed.
  unfold Qfloor, Qdiv. cbn [Qinv Qmult inject_Z Qnum Qden Pos.mul].
  now rewrite Z.mul_1_r.
Qed.

Lemma wf_to_freq (space : string) (a : ndarray) : wf a -> wf (to_freq space a).
Proof.
  unfold to_freq. destruct (lower space =? "fourier")%string; [trivial |].
  intros _. apply wf_build.
Qed.

Lemma wf_image_product (ref mov : ndarray) (space : string) (norm : option string) :
  wf ref -> wf mov -> shape ref = shape mov ->
  wf (image_product_of ref mov space norm).
Proof.
  intros Hr Hm Hs. apply (wf_to_freq space) in Hr, Hm.
  assert (Hs' : shape (to_freq space ref) = shape (to_freq space mov))
    by (now rewrite !shape_to_freq).
  unfold wf in *. unfold image_product_of.
  destruct norm; cbn [val.divide val.multiply val.maximum val.abs val.conj
                      zip_arr map_arr flat shape];
    rewrite ?length_map, ?length_combine, ?length_map, ?length_combine, ?length_map;
    rewrite Hr, Hm, Hs'; lia.
Qed.

Lemma peak_length (a : ndarray) : length (peak a) = length (shape a).
Proof. apply unravel_index_length. Qed.

Lemma integer_shift_length (shape_ maxima : list nat) :
  length maxima = length shape_ ->
  length (integer_shift shape_ maxima) = length shape_.
Proof. intros H. unfold integer_shift. rewrite length_map2, H. lia. Qed.

Lemma shape_cross_correlation (ref mov : ndarray) (space : string)
    (norm : option string) :
  shape (cross_correlation_of ref mov space norm) = shape ref.
Proof. unfold cross_correlation_of, val.ifftn. cbn [shape build]. apply shape_image_product. Qed.

(** The call of [_upsampled_dft] made by the refinement returns a patch
    with [upsampled_region_size] samples on every axis. *)
Lemma refinement_patch_run (ref mov : ndarray) (space : string)
    (norm : option string) (uf : Z) :
  valid_inputs ref mov ->
  let ip := image_product_of ref mov space norm in
  let shift :=
    rounded_shift uf (integer_shift (shape ref) (peak (val.ifftn ip))) in
  exists out,
    _upsampled_dft (val.conj ip) (inl (upsampled_region_size_of uf)) uf
      (Some (sample_region_offset_of uf shift))
    = (concat (repeat [op_exp; op_tensordot] (length (shape ref))), inr out)
    /\ shape out = repeat (Z.to_nat (upsampled_region_size_of uf)) (length (shape ref))
    /\ wf out.
Proof.
  intros (Hwr & Hwm & Hsh & Hpos) ip shift.
  assert (Hship : shape (val.conj ip) = shape ref)
    by (unfold val.conj, map_arr; cbn [shape]; apply shape_image_product).
  destruct (upsampled_dft_run (val.conj ip) (inl (upsampled_region_size_of uf)) uf
              (Some (sample_region_offset_of uf shift)))
    as (out & Hrun & Hso & _ & Hwfo & _).
  - unfold wf, val.conj, map_arr. cbn [flat shape]. rewrite length_map.
    now apply wf_image_product.
  - split; cbn [region_sizes offsets]; unfold ndim; rewrite Hship.
    + apply repeat_length.
    + unfold sample_region_offset_of, shift, rounded_shift.
      rewrite !length_map. apply integer_shift_length.
      rewrite peak_length. unfold val.ifftn, ip. cbn [shape build].
      now rewrite shape_image_product.
  - exists out. unfold ndim in *. rewrite Hship in *. cbn [region_sizes] in Hso.
    unfold ndim in Hso. rewrite Hship, map_repeat in Hso. auto.
Qed.

Lemma repeat_pos_Forall (n k : nat) :
  (0 < n)%nat -> Forall (fun d => (0 < d)%nat) (repeat n k).
Proof. intros H. induction k; simpl; constructor; assumption. Qed.

Lemma pcc_outcome_upsampled (ref mov : ndarray) (uf : Z) (space : string)
    (dis : bool) (ov : R) (norm : option string) :
  valid_inputs ref mov -> valid_space space -> valid_normalization norm ->
  (1 < uf)%Z ->
  outcome (phase_cross_correlation ref mov uf space dis None None ov norm)
  = if dis then inl (NotImplementedError "disambiguation is not yet supported")
    else
      let cc := cross_correlation_of ref mov space norm in
      let shift := rounded_shift uf (integer_shift (shape ref) (peak cc)) in
      let patch := upsampled_patch ref mov space norm uf in
      let CCmax := get patch (peak patch) in
      inr (zero_singleton (shape ref) (refined_shift uf shift (peak patch)),
           _compute_error CCmax (energy (to_freq space ref)) (energy (to_freq space mov)),
           _compute_phasediff CCmax).
Proof.
  intros Hv Hsp Hn Huf. pose proof Hv as (Hwr & Hwm & Hsh & Hpos).
  destruct (refinement_patch_run ref mov space norm uf Hv) as (out & Hrun & Hso & Hwfo).
  unfold phase_cross_correlation. cbn [is_None negb orb].
  outcome_real_parts ref mov.
  destruct (list_eq_dec Nat.eq_dec (shape ref) (shape mov)) as [_ | Hne];
    [| contradiction].
  cbn [negb].
  pose proof (normalization_run ref mov space norm Hn) as Hnr.
  rewrite (outcome_bind_eq _ _ _ _ (frequencies_run space ref mov Hsp)). cbn [fst snd].
  unfold jnp.conj, jnp.multiply, jnp.abs, jnp.maximum, jnp.divide, jnp.ifftn in *.
  do 2 run_step.
  rewrite (outcome_bind_eq _ _ _ _ Hnr).
  run_step. fold (cross_correlation_of ref mov space norm).
  rewrite (outcome_bind_eq _ _ _ _
             (argmax_abs_run _ (cross_correlation_nonempty ref mov space norm Hpos))).
  replace (uf =? 1)%Z with false by (symmetry; apply Z.eqb_neq; lia).
  do 2 run_step.
  rewrite where_integer_shift, map2_swap, !shape_to_freq.
  fold (integer_shift (shape ref) (peak (cross_correlation_of ref mov space norm))).
  change (Qceiling (inject_Z uf * (3 # 2))) with (upsampled_region_size_of uf).
  change (Qfloor (inject_Z (upsampled_region_size_of uf) / 2)) with (dftshift_of uf).
  fold (rounded_shift uf
          (integer_shift (shape ref) (peak (cross_correlation_of ref mov space norm)))).
  fold (sample_region_offset_of uf
          (rounded_shift uf
             (integer_shift (shape ref) (peak (cross_correlation_of ref mov space norm))))).
  change (val.ifftn (image_product_of ref mov space norm))
    with (cross_correlation_of ref mov space norm) in Hrun.
  assert (Hpatch : upsampled_patch ref mov space norm uf = val.conj out).
  { unfold upsampled_patch, value_of.
    change (val.ifftn (image_product_of ref mov space norm))
      with (cross_correlation_of ref mov space norm).
    now rewrite Hrun. }
  assert (Hne : flat (val.conj out) <> []).
  { apply flat_nonempty.
    - unfold wf, val.conj, map_arr. cbn [flat shape]. now rewrite length_map.
    - unfold val.conj, map_arr. cbn [shape]. rewrite Hso. apply repeat_pos_Forall.
      rewrite upsampled_region_size_closed.
      assert (2 <= (3 * uf + 1) / 2)%Z by (apply Z.div_le_lower_bound; lia).
      lia. }
  rewrite !bind_assoc.
  rewrite (outcome_bind_eq _ _ _ _ Hrun), !bind_assoc.
  run_step. rewrite !bind_assoc.
  rewrite (outcome_bind_eq _ _ _ _ (argmax_abs_run _ Hne)), !bind_assoc.
  rewrite (outcome_bind_eq _ _ _ _ (sum_real_sq_run _)), !bind_assoc.
  rewrite (outcome_bind_eq _ _ _ _ (sum_real_sq_run _)).
  run_step.
  destruct dis; cbn [outcome raise ret snd]; [reflexivity |].
  rewrite where_zero_singleton, Hpatch, map_map. reflexivity.
Qed.

(** ** The peak *)

Lemma argmax_from_bound (l : list R) (best : R) (besti i : nat) :
  (besti < i)%nat -> (val.argmax_from best besti i l < i + length l)%nat.
Proof.
  revert best besti i. induction l as [| x l IH]; intros best besti i H; simpl.
  - lia.
  - destruct (Rlt_dec best x).
    + specialize (IH x i (S i) ltac:(lia)). lia.
    + specialize (IH best besti (S i) ltac:(lia)). lia.
Qed.

Lemma argmax_bound (l : list R) : l <> [] -> (val.argmax l < length l)%nat.
Proof.
  destruct l as [| x l]; [congruence |]. intros _. simpl.
  pose proof (argmax_from_bound l x 0 1 ltac:(lia)). lia.
Qed.

Lemma peak_in_bounds (a : ndarray) :
  wf a -> flat a <> [] -> in_bounds (peak a) (shape a).
Proof.
  intros Hwf Hne. unfold peak. apply unravel_index_in_bounds.
  unfold wf in Hwf. rewrite <- Hwf.
  replace (length (flat a)) with (length (map Cx.re (flat (val.abs a))))
    by (unfold val.abs, map_arr; cbn [flat]; now rewrite !length_map).
  apply argmax_bound. unfold val.abs, map_arr. cbn [flat].
  destruct (flat a); [congruence | discriminate].
Qed.

Lemma cross_correlation_peak_in_bounds (ref mov : ndarray) (space : string)
    (norm : option string) :
  Forall (fun d => (0 < d)%nat) (shape ref) ->
  in_bounds (peak (cross_correlation_of ref mov space norm)) (shape ref).
Proof.
  intros Hpos.
  pose proof (shape_cross_correlation ref mov space norm) as E.
  rewrite <- E. apply peak_in_bounds.
  - apply wf_build.
  - now apply cross_correlation_nonempty.
Qed.

Lemma upsampled_patch_shape (ref mov : ndarray) (space : string)
    (norm : option string) (uf : Z) :
  valid_inputs ref mov ->
  shape (upsampled_patch ref mov space norm uf)
  = repeat (Z.to_nat (upsampled_region_size_of uf)) (length (shape ref))
  /\ wf (upsampled_patch ref mov space norm uf).
Proof.
  intros Hv.
  destruct (refinement_patch_run ref mov space norm uf Hv) as (out & Hrun & Hso & Hwfo).
  unfold upsampled_patch, value_of. rewrite Hrun. cbn [outcome snd].
  unfold wf. change (shape (val.conj out)) with (shape out).
  change (flat (val.conj out)) with (map Cx.conj (flat out)).
  rewrite length_map. auto.
Qed.

Lemma upsampled_region_size_pos (uf : Z) :
  (1 < uf)%Z -> (0 < Z.to_nat (upsampled_region_size_of uf))%nat.
Proof.
  intros H. rewrite upsampled_region_size_closed.
  assert (2 <= (3 * uf + 1) / 2)%Z by (apply Z.div_le_lower_bound; lia).
  lia.
Qed.

Lemma upsampled_patch_peak_in_bounds (ref mov : ndarray) (space : string)
    (norm : option string) (uf : Z) :
  valid_inputs ref mov -> (1 < uf)%Z ->
  in_bounds (peak (upsampled_patch ref mov space norm uf))
    (repeat (Z.to_nat (upsampled_region_size_of uf)) (length (shape ref))).
Proof.
  intros Hv Huf. destruct (upsampled_patch_shape ref mov space norm uf Hv) as [Hs Hw].
  rewrite <- Hs. apply peak_in_bounds; [assumption |].
  apply flat_nonempty; [assumption |]. rewrite Hs.
  apply repeat_pos_Forall. now apply upsampled_region_size_pos.
Qed.

(** ** Singleton axes *)

Lemma nth_zero_singleton (shape_ : list nat) (shift : list R) (d : nat) :
  length shift = length shape_ -> (d < length shape_)%nat ->
  nth d (zero_singleton shape_ shift) 0
  = if (nth d shape_ 0%nat =? 1)%nat then 0 else nth d shift 0.
Proof.
  intros Hl Hd. unfold zero_singleton.
  rewrite (nth_map2 _ _ _ _ 0%nat 0) by lia. reflexivity.
Qed.

Lemma length_zero_singleton (shape_ : list nat) (shift : list R) :
  length shift = length shape_ -> length (zero_singleton shape_ shift) = length shape_.
Proof. intros H. unfold zero_singleton. rewrite length_map2. lia. Qed.

Lemma refined_shift_length (uf : Z) (shift : list R) (maxima : list nat) :
  length (refined_shift uf shift maxima) = Nat.min (length shift) (length maxima).
Proof. unfold refined_shift. now rewrite length_map2, length_map. Qed.

Lemma rounded_shift_length (uf : Z) (shift : list R) :
  length (rounded_shift uf shift) = length shift.
Proof. apply length_map. Qed.

(** ** Example inputs *)

Lemma example_valid_inputs : valid_inputs example_reference example_moving.
Proof.
  unfold valid_inputs, wf. simpl. repeat split; try reflexivity.
  repeat constructor.
Qed.

Lemma example_column_valid : valid_inputs example_column example_column.
Proof.
  unfold valid_inputs, wf. simpl. repeat split; try reflexivity.
  repeat constructor.
Qed.

(** ** Argument checks *)

Lemma mask_check_precedence_eq
    (ref mov : ndarray) (uf : Z) (space : string) (dis : bool)
    (rm mm : option ndarray) (ov : R) (norm : option string) :
  rm <> None \/ mm <> None ->
  phase_cross_correlation ref mov uf space dis rm mm ov norm
  = ([], inl (NotImplementedError "Masked phase cross-correlation is not implemented.")).
Proof.
  intros H. unfold phase_cross_correlation.
  destruct rm, mm; try reflexivity.
  destruct H as [H | H]; congruence.
Qed.

(** C10. A mask that is not [None] makes [phase_cross_correlation] raise
    the not-implemented error whatever the other arguments are, before
    any other check and before any array operation. *)
Theorem mask_check_takes_precedence
    (reference_image moving_image : ndarray) (upsample_factor : Z) (space : string)
    (disambiguate : bool) (reference_mask moving_mask : option ndarray)
    (overlap_ratio : R) (normalization : option string) :
  reference_mask <> None \/ moving_mask <> None ->
  phase_cross_correlation reference_image moving_image upsample_factor space
    disambiguate reference_mask moving_mask overlap_ratio normalization
  = ([], inl (NotImplementedError "Masked phase cross-correlation is not implemented.")).
Proof. apply mask_check_precedence_eq. Qed.

Lemma mask_check_takes_precedence_witness :
  phase_cross_correlation example_reference example_other_shape 0 "frank" true
    (Some example_reference) None 0 (Some "nonexisting"%string)
  = ([], inl (NotImplementedError "Masked phase cross-correlation is not implemented.")).
Proof.
  apply mask_check_takes_precedence. left. discriminate.
Defined.

(** C9. The result of [phase_cross_correlation] does not depend on
    [overlap_ratio]: two calls that differ only in it perform the same
    operations and have the same outcome. *)
Theorem overlap_ratio_is_ignored
    (reference_image moving_image : ndarray) (upsample_factor : Z) (space : string)
    (disambiguate : bool) (reference_mask moving_mask : option ndarray)
    (overlap_ratio overlap_ratio' : R) (normalization : option string) :
  phase_cross_correlation reference_image moving_image upsample_factor space
    disambiguate reference_mask moving_mask overlap_ratio normalization
  = phase_cross_correlation reference_image moving_image upsample_factor space
      disambiguate reference_mask moving_mask overlap_ratio' normalization.
Proof. reflexivity. Qed.

Lemma pcc_invalid_space (ref mov : ndarray) (uf : Z) (space : string)
    (dis : bool) (ov : R) (norm : option string) :
  shape ref = shape mov -> ~ valid_space space ->
  phase_cross_correlation ref mov uf space dis None None ov norm
  = (real_part_passes ref mov, inl (ValueError space_error_message)).
Proof.
  intros Hsh Hsp. unfold phase_cross_correlation. cbn [is_None negb orb].
  call_real_parts ref mov.
  destruct (list_eq_dec Nat.eq_dec (shape ref) (shape mov)) as [_ | Hne];
    [| contradiction].
  cbn [negb]. unfold valid_space in Hsp.
  destruct (String.eqb_spec (lower space) "fourier"); [tauto |].
  destruct (String.eqb_spec (lower space) "real"); [tauto |].
  unfold real_part_passes. cbn [bind raise trace outcome fst snd].
  now rewrite !app_nil_r.
Qed.

Lemma pcc_shape_mismatch (ref mov : ndarray) (uf : Z) (space : string)
    (dis : bool) (ov : R) (norm : option string) :
  shape ref <> shape mov ->
  phase_cross_correlation ref mov uf space dis None None ov norm
  = (real_part_passes ref mov, inl (ValueError (shape_error_message ref mov))).
Proof.
  intros Hsh. unfold phase_cross_correlation. cbn [is_None negb orb].
  call_real_parts ref mov.
  destruct (list_eq_dec Nat.eq_dec (shape ref) (shape mov)) as [E | _];
    [contradiction |].
  unfold real_part_passes. cbn [negb raise trace outcome fst snd].
  now rewrite !app_nil_r.
Qed.

Lemma pcc_invalid_normalization (ref mov : ndarray) (uf : Z) (space : string)
    (dis : bool) (ov : R) (norm : option string) :
  shape ref = shape mov -> valid_space space -> ~ valid_normalization norm ->
  phase_cross_correlation ref mov uf space dis None None ov norm
  = (real_part_passes ref mov
       ++ (if String.eqb (lower space) "fourier" then [] else [op_fftn; op_fftn])
       ++ [op_conj; op_multiply],
     inl (ValueError "normalization must be either phase or None")).
Proof.
  intros Hsh Hsp Hn. unfold phase_cross_correlation. cbn [is_None negb orb].
  call_real_parts ref mov.
  destruct (list_eq_dec Nat.eq_dec (shape ref) (shape mov)) as [_ | Hne];
    [| contradiction].
  cbn [negb]. rewrite (frequencies_run space ref mov Hsp).
  unfold valid_normalization in Hn.
  destruct norm as [n |]; [| tauto].
  destruct (String.eqb_spec n "phase") as [-> | _]; [tauto |].
  unfold real_part_passes. rewrite <- app_assoc. reflexivity.
Qed.

Lemma valid_space_dec (space : string) : {valid_space space} + {~ valid_space space}.
Proof.
  unfold valid_space.
  destruct (string_dec (lower space) "real") as [E | E]; [left; now left |].
  destruct (string_dec (lower space) "fourier") as [E' | E']; [left; now right |].
  right. tauto.
Qed.

(** Unmasked images with an unrecognised [space] raise [ValueError]:
    the one of the shapes if they differ, the one of [space] if not. *)
Lemma pcc_invalid_space_value_error (ref mov : ndarray) (uf : Z) (space : string)
    (dis : bool) (ov : R) (norm : option string) :
  ~ valid_space space ->
  exists msg,
    outcome (phase_cross_correlation ref mov uf space dis None None ov norm)
    = inl (ValueError msg).
Proof.
  intros Hsp.
  destruct (list_eq_dec Nat.eq_dec (shape ref) (shape mov)) as [Hsh | Hsh].
  - rewrite pcc_invalid_space by assumption. eexists. reflexivity.
  - rewrite pcc_shape_mismatch by assumption. eexists. reflexivity.
Qed.

Lemma pcc_invalid_normalization_value_error (ref mov : ndarray) (uf : Z)
    (space : string) (dis : bool) (ov : R) (norm : option string) :
  ~ valid_normalization norm ->
  exists msg,
    outcome (phase_cross_correlation ref mov uf space dis None None ov norm)
    = inl (ValueError msg).
Proof.
  intros Hn.
  destruct (list_eq_dec Nat.eq_dec (shape ref) (shape mov)) as [Hsh | Hsh].
  - destruct (valid_space_dec space) as [Hsp | Hsp].
    + rewrite pcc_invalid_normalization by assumption. eexists. reflexivity.
    + rewrite pcc_invalid_space by assumption. eexists. reflexivity.
  - rewrite pcc_shape_mismatch by assumption. eexists. reflexivity.
Qed.

(** C6, amended. The checks of [phase_cross_correlation] run in the
    order mask, shape, [space], [normalization], [disambiguate], and the
    first one that fails decides the error.  A mask that is not [None]
    raises [NotImplementedError], whatever the other arguments.  With
    both masks [None]: images of different shapes raise the [ValueError]
    of the shapes; images of one shape and a [space] that is neither
    "real" nor "fourier" once lowercased raise the [ValueError] of
    [space]; images of one shape, a recognised [space] and a
    [normalization] other than "phase" and [None] raise the [ValueError]
    of [normalization]; so an unrecognised [space] or [normalization]
    always raises some [ValueError]; and [disambiguate=True] raises
    [NotImplementedError] when the images are well formed, of one shape
    and without an empty axis, [space] and [normalization] are
    recognised and [upsample_factor >= 1].  A [NotImplementedError] is
    never a [ValueError].  [_upsampled_dft] raises [ValueError] when the
    sequence of region sizes, or of axis offsets, has not one entry per
    axis of the data; the message is the one of the region sizes if both
    are wrong. *)
Theorem invalid_arguments_are_rejected
    (reference_image moving_image : ndarray) (upsample_factor : Z) (space : string)
    (disambiguate : bool) (reference_mask moving_mask : option ndarray)
    (overlap_ratio : R) (normalization : option string)
    (data : ndarray) (upsampled_region_size : Z + list Z) (factor : Z)
    (axis_offsets : option (list R)) :
  let call :=
    phase_cross_correlation reference_image moving_image upsample_factor space
      disambiguate reference_mask moving_mask overlap_ratio normalization in
  let dft := _upsampled_dft data upsampled_region_size factor axis_offsets in
  (reference_mask <> None \/ moving_mask <> None ->
   outcome call
   = inl (NotImplementedError "Masked phase cross-correlation is not implemented."))
  /\ (reference_mask = None -> moving_mask = None ->
      shape reference_image <> shape moving_image ->
      outcome call
      = inl (ValueError (shape_error_message reference_image moving_image)))
  /\ (reference_mask = None -> moving_mask = None ->
      shape reference_image = shape moving_image -> ~ valid_space space ->
      outcome call = inl (ValueError space_error_message))
  /\ (reference_mask = None -> moving_mask = None ->
      shape reference_image = shape moving_image -> valid_space space ->
      ~ valid_normalization normalization ->
      outcome call = inl (ValueError "normalization must be either phase or None"))
  /\ (reference_mask = None -> moving_mask = None ->
      ~ valid_space space \/ ~ valid_normalization normalization ->
      exists msg, outcome call = inl (ValueError msg))
  /\ (reference_mask = None -> moving_mask = None ->
      valid_inputs reference_image moving_image -> valid_space space ->
      valid_normalization normalization -> (1 <= upsample_factor)%Z ->
      disambiguate = true ->
      outcome call = inl (NotImplementedError "disambiguation is not yet supported"))
  /\ (forall msg msg', NotImplementedError msg <> ValueError msg')
  /\ (forall l, upsampled_region_size = inr l -> length l <> ndim data ->
      dft = ([], inl (ValueError
        "shape of upsampled region sizes must be equal to input data's number of dimensions.")))
  /\ (forall l, axis_offsets = Some l -> length l <> ndim data ->
      (exists msg, dft = ([], inl (ValueError msg)))
      /\ (length (region_sizes data upsampled_region_size) = ndim data ->
          dft = ([], inl (ValueError
            "number of axis offsets must be equal to input data's number of dimensions.")))).
Proof.
  intros call dft.
  refine (conj _ (conj _ (conj _ (conj _ (conj _ (conj _ (conj _ (conj _ _)))))))).
  - intros H. unfold call. now rewrite mask_check_precedence_eq.
  - intros -> -> Hsh. unfold call. now rewrite pcc_shape_mismatch.
  - intros -> -> Hsh Hsp. unfold call. now rewrite pcc_invalid_space.
  - intros -> -> Hsh Hsp Hn. unfold call. now rewrite pcc_invalid_normalization.
  - intros -> -> [Hsp | Hn]; unfold call.
    + now apply pcc_invalid_space_value_error.
    + now apply pcc_invalid_normalization_value_error.
  - intros -> -> Hv Hsp Hn Huf ->. unfold call.
    destruct (Z.eq_dec upsample_factor 1) as [-> | Hne].
    + now rewrite pcc_outcome_integer.
    + rewrite pcc_outcome_upsampled by (try assumption; lia). reflexivity.
  - intros msg msg'. discriminate.
  - intros l -> Hl. unfold dft, _upsampled_dft.
    apply Nat.eqb_neq in Hl. rewrite Hl. reflexivity.
  - intros l -> Hl. unfold dft, _upsampled_dft. apply Nat.eqb_neq in Hl.
    destruct upsampled_region_size as [n | l']; cbn [region_sizes].
    + rewrite bind_ret_l, Hl. split; [eexists |]; reflexivity.
    + destruct (length l' =? ndim data)%nat eqn:El.
      * cbn [negb]. rewrite bind_ret_l, Hl. split; [eexists |]; reflexivity.
      * split; [eexists; reflexivity |].
        intros E. apply Nat.eqb_neq in El. contradiction.
Qed.

Lemma invalid_arguments_are_rejected_witness :
  outcome (phase_cross_correlation example_reference example_moving 1 "frank" false
             (Some example_reference) None 0 None)
  = inl (NotImplementedError "Masked phase cross-correlation is not implemented.")
  /\ outcome (phase_cross_correlation example_reference example_other_shape 1 "real"
                false None None 0 None)
     = inl (ValueError
              "images must be same shape, got reference_image.shape=(2,) != moving_image.shape=(3,)")
  /\ outcome (phase_cross_correlation example_reference example_moving 1 "frank" false
                None None 0 None)
     = inl (ValueError space_error_message)
  /\ outcome (phase_cross_correlation example_reference example_moving 1 "Fourier" false
                None None 0 (Some "nonexisting"%string))
     = inl (ValueError "normalization must be either phase or None")
  /\ (exists msg,
        outcome (phase_cross_correlation example_reference example_other_shape 1
                   "frank" true None None 0 (Some "nonexisting"%string))
        = inl (ValueError msg))
  /\ outcome (phase_cross_correlation example_reference example_moving 2 "REAL" true
                None None 0 (Some "phase"%string))
     = inl (NotImplementedError "disambiguation is not yet supported")
  /\ _upsampled_dft example_reference (inr [3; 2; 1; 4]%Z) 1 None
     = ([], inl (ValueError
         "shape of upsampled region sizes must be equal to input data's number of dimensions."))
  /\ _upsampled_dft example_reference (inl 3%Z) 1 (Some [3; 2; 1; 4])
     = ([], inl (ValueError
         "number of axis offsets must be equal to input data's number of dimensions.")).
Proof.
  assert (Hfrank : ~ valid_space "frank").
  { intros [H | H]; discriminate H. }
  assert (Hnorm : ~ valid_normalization (Some "nonexisting"%string)).
  { intros [H | H]; discriminate H. }
  refine (conj _ (conj _ (conj _ (conj _ (conj _ (conj _ (conj _ _))))))).
  - destruct (invalid_arguments_are_rejected example_reference example_moving 1 "frank"
                false (Some example_reference) None 0 None
                example_reference (inl 1%Z) 1 None) as (H & _).
    apply H. left. discriminate.
  - destruct (invalid_arguments_are_rejected example_reference example_other_shape 1
                "real" false None None 0 None example_reference (inl 1%Z) 1 None)
      as (_ & H & _).
    apply H; try reflexivity. simpl. discriminate.
  - destruct (invalid_arguments_are_rejected example_reference example_moving 1 "frank"
                false None None 0 None example_reference (inl 1%Z) 1 None)
      as (_ & _ & H & _).
    apply H; try reflexivity. exact Hfrank.
  - destruct (invalid_arguments_are_rejected example_reference example_moving 1 "Fourier"
                false None None 0 (Some "nonexisting"%string)
                example_reference (inl 1%Z) 1 None) as (_ & _ & _ & H & _).
    apply H; try reflexivity; [right; reflexivity | exact Hnorm].
  - destruct (invalid_arguments_are_rejected example_reference example_other_shape 1
                "frank" true None None 0 (Some "nonexisting"%string)
                example_reference (inl 1%Z) 1 None) as (_ & _ & _ & _ & H & _).
    apply H; try reflexivity. left. exact Hfrank.
  - destruct (invalid_arguments_are_rejected example_reference example_moving 2 "REAL"
                true None None 0 (Some "phase"%string)
                example_reference (inl 1%Z) 1 None) as (_ & _ & _ & _ & _ & H & _).
    apply H; try reflexivity;
      [exact example_valid_inputs | left; reflexivity | right; reflexivity | lia].
  - destruct (invalid_arguments_are_rejected example_reference example_moving 1 "real"
                false None None 0 None example_reference (inr [3; 2; 1; 4]%Z) 1 None)
      as (_ & _ & _ & _ & _ & _ & _ & H & _).
    apply (H [3; 2; 1; 4]%Z); [reflexivity | unfold ndim; simpl; lia].
  - destruct (invalid_arguments_are_rejected example_reference example_moving 1 "real"
                false None None 0 None example_reference (inl 3%Z) 1
                (Some [3; 2; 1; 4])) as (_ & _ & _ & _ & _ & _ & _ & _ & H).
    destruct (H [3; 2; 1; 4]) as [_ H']; [reflexivity | unfold ndim; simpl; lia |].
    apply H'. reflexivity.
Defined.

(** C6 as stated fails, because an earlier check decides the error.  An
    unrecognised [space] does not raise [ValueError] when a mask is
    given: the call raises [NotImplementedError].  [disambiguate=True]
    does not raise [NotImplementedError] when [normalization] is
    unrecognised or the shapes differ: the call raises [ValueError]. *)
Lemma error_kind_is_decided_by_the_first_failing_check :
  ~ valid_space "frank"
  /\ outcome (phase_cross_correlation example_reference example_moving 1 "frank" false
                (Some example_reference) None 0 None)
     = inl (NotImplementedError "Masked phase cross-correlation is not implemented.")
  /\ outcome (phase_cross_correlation example_reference example_moving 1 "fourier" true
                None None 0 (Some "nonexisting"%string))
     = inl (ValueError "normalization must be either phase or None")
  /\ outcome (phase_cross_correlation example_reference example_other_shape 1 "fourier"
                true None None 0 None)
     = inl (ValueError
              "images must be same shape, got reference_image.shape=(2,) != moving_image.shape=(3,)")
  /\ ~ (forall ref mov uf space dis rmask mmask ov norm,
          ~ valid_space space ->
          exists msg,
            outcome (phase_cross_correlation ref mov uf space dis rmask mmask ov norm)
            = inl (ValueError msg))
  /\ ~ (forall ref mov uf space dis rmask mmask ov norm,
          dis = true ->
          exists msg,
            outcome (phase_cross_correlation ref mov uf space dis rmask mmask ov norm)
            = inl (NotImplementedError msg)).
Proof.
  assert (Hfrank : ~ valid_space "frank").
  { intros [H | H]; discriminate H. }
  assert (Hnorm : ~ valid_normalization (Some "nonexisting"%string)).
  { intros [H | H]; discriminate H. }
  assert (Hmask :
    outcome (phase_cross_correlation example_reference example_moving 1 "frank" false
               (Some example_reference) None 0 None)
    = inl (NotImplementedError "Masked phase cross-correlation is not implemented.")).
  { rewrite mask_check_precedence_eq; [reflexivity | left; discriminate]. }
  assert (Hdis :
    outcome (phase_cross_correlation example_reference example_moving 1 "fourier" true
               None None 0 (Some "nonexisting"%string))
    = inl (ValueError "normalization must be either phase or None")).
  { rewrite pcc_invalid_normalization;
      [reflexivity | reflexivity | right; reflexivity | exact Hnorm]. }
  refine (conj Hfrank (conj Hmask (conj Hdis (conj _ (conj _ _))))).
  - rewrite pcc_shape_mismatch; [reflexivity | simpl; discriminate].
  - intros H.
    destruct (H example_reference example_moving 1%Z "frank"%string false
                (Some example_reference) None 0 None Hfrank) as [msg E].
    rewrite Hmask in E. discriminate E.
  - intros H.
    destruct (H example_reference example_moving 1%Z "fourier"%string true
                None None 0 (Some "nonexisting"%string) eq_refl) as [msg E].
    rewrite Hdis in E. discriminate E.
Qed.

Lemma integer_estimate_length (ref mov : ndarray) (space : string)
    (norm : option string) :
  length (integer_shift (shape ref) (peak (cross_correlation_of ref mov space norm)))
  = length (shape ref).
Proof.
  apply integer_shift_length. now rewrite peak_length, shape_cross_correlation.
Qed.

Lemma refined_estimate_length (ref mov : ndarray) (space : string)
    (norm : option string) (uf : Z) :
  valid_inputs ref mov ->
  length (refined_shift uf
            (rounded_shift uf
               (integer_shift (shape ref)
                  (peak (cross_correlation_of ref mov space norm))))
            (peak (upsampled_patch ref mov space norm uf)))
  = length (shape ref).
Proof.
  intros Hv. destruct (upsampled_patch_shape ref mov space norm uf Hv) as [Hs _].
  rewrite refined_shift_length, rounded_shift_length, integer_estimate_length.
  rewrite peak_length, Hs, repeat_length. lia.
Qed.

(** C7. On every valid call, in the integer-only branch and in the
    upsampled branch alike, the returned shift has one component per
    axis and the component of every axis of length one is exactly [0],
    whatever the data. *)
Theorem singleton_axes_have_zero_shift
    (reference_image moving_image : ndarray) (upsample_factor : Z) (space : string)
    (overlap_ratio : R) (normalization : option string) :
  valid_inputs reference_image moving_image -> valid_space space ->
  valid_normalization normalization -> (1 <= upsample_factor)%Z ->
  exists shift error phasediff,
    outcome (phase_cross_correlation reference_image moving_image upsample_factor
               space false None None overlap_ratio normalization)
    = inr (shift, error, phasediff)
    /\ length shift = ndim reference_image
    /\ forall d, (d < ndim reference_image)%nat ->
         nth d (shape reference_image) 0%nat = 1%nat -> nth d shift 0 = 0.
Proof.
  intros Hv Hsp Hn Huf. unfold ndim.
  destruct (Z.eq_dec upsample_factor 1) as [-> | Hne].
  - rewrite pcc_outcome_integer by assumption. cbv zeta.
    do 3 eexists. split; [reflexivity |].
    pose proof (integer_estimate_length reference_image moving_image space
                  normalization) as Hl.
    split; [now apply length_zero_singleton |].
    intros d Hd H1. rewrite nth_zero_singleton, H1 by assumption. reflexivity.
  - rewrite pcc_outcome_upsampled by (try assumption; lia). cbv zeta.
    do 3 eexists. split; [reflexivity |].
    pose proof (refined_estimate_length reference_image moving_image space
                  normalization upsample_factor Hv) as Hl.
    split; [now apply length_zero_singleton |].
    intros d Hd H1. rewrite nth_zero_singleton, H1 by assumption. reflexivity.
Qed.

Lemma singleton_axes_have_zero_shift_witness :
  exists shift error phasediff,
    outcome (phase_cross_correlation example_column example_column 20
               "fourier" false None None 0 (Some "phase"%string))
    = inr (shift, error, phasediff)
    /\ length shift = 2%nat
    /\ nth 1 shift 0 = 0.
Proof.
  destruct (singleton_axes_have_zero_shift example_column example_column 20
              "fourier" 0 (Some "phase"%string))
    as (shift & error & phasediff & Hrun & Hlen & Hzero).
  - exact example_column_valid.
  - right. reflexivity.
  - right. reflexivity.
  - lia.
  - exists shift, error, phasediff. split; [exact Hrun |]. split; [exact Hlen |].
    apply Hzero; [unfold ndim; simpl; lia | reflexivity].
Defined.

(** C4. With [upsample_factor > 1] a valid call uses
    [upsampled_region_size = ceil(upsample_factor * 1.5)],
    [dftshift = floor(upsampled_region_size / 2)] and
    [sample_region_offset = dftshift - shift * upsample_factor] on every
    axis, where [shift] is the integer estimate rounded to the upsampled
    grid; the patch is the conjugate of [_upsampled_dft] of the
    conjugate cross-power spectrum with these arguments; the refined
    shift is the rounded estimate plus [(patch peak index - dftshift) /
    upsample_factor], returned with the singleton axes set to zero; and
    the amplitudes given to [_compute_error] are the plain sums of
    [Re(freq * conj(freq))].  With [upsample_factor = 1] the amplitudes
    are these sums divided by the number of elements. *)
Theorem refinement_uses_sums_and_integer_branch_means
    (reference_image moving_image : ndarray) (upsample_factor : Z) (space : string)
    (overlap_ratio : R) (normalization : option string) :
  valid_inputs reference_image moving_image -> valid_space space ->
  valid_normalization normalization -> (1 < upsample_factor)%Z ->
  let src_freq := to_freq space reference_image in
  let target_freq := to_freq space moving_image in
  let image_product :=
    image_product_of reference_image moving_image space normalization in
  let cross_correlation := val.ifftn image_product in
  let upsampled_region_size := Qceiling (inject_Z upsample_factor * (3 # 2)) in
  let dftshift := Qfloor (inject_Z upsampled_region_size / 2) in
  let shift :=
    map (fun x => Rround (x * IZR upsample_factor) / IZR upsample_factor)
      (integer_shift (shape reference_image) (peak cross_correlation)) in
  let sample_region_offset :=
    map (fun x => IZR dftshift - x * IZR upsample_factor) shift in
  (exists up,
     outcome (_upsampled_dft (val.conj image_product) (inl upsampled_region_size)
                upsample_factor (Some sample_region_offset)) = inr up
     /\ let patch := val.conj up in
        let maxima := peak patch in
        let CCmax := get patch maxima in
        outcome (phase_cross_correlation reference_image moving_image upsample_factor
                   space false None None overlap_ratio normalization)
        = inr (zero_singleton (shape reference_image)
                 (map2 Rplus shift
                    (map (fun m => (INR m - IZR dftshift) / IZR upsample_factor) maxima)),
               _compute_error CCmax (energy src_freq) (energy target_freq),
               _compute_phasediff CCmax))
  /\ (let CCmax := get cross_correlation (peak cross_correlation) in
      outcome (phase_cross_correlation reference_image moving_image 1
                 space false None None overlap_ratio normalization)
      = inr (zero_singleton (shape reference_image)
               (integer_shift (shape reference_image) (peak cross_correlation)),
             _compute_error CCmax
               (energy src_freq / INR (size src_freq))
               (energy target_freq / INR (size target_freq)),
             _compute_phasediff CCmax)).
Proof.
  intros Hv Hsp Hn Huf. cbv zeta. split.
  - destruct (refinement_patch_run reference_image moving_image space normalization
                upsample_factor Hv) as (out & Hrun & _).
    exists out. split.
    + unfold sample_region_offset_of, rounded_shift, dftshift_of,
        upsampled_region_size_of in Hrun. now rewrite Hrun.
    + rewrite pcc_outcome_upsampled by assumption. cbv zeta.
      assert (Hp : upsampled_patch reference_image moving_image space normalization
                     upsample_factor = val.conj out).
      { unfold upsampled_patch, value_of. now rewrite Hrun. }
      rewrite Hp. reflexivity.
  - now rewrite pcc_outcome_integer.
Qed.

Lemma refinement_uses_sums_and_integer_branch_means_witness :
  outcome (phase_cross_correlation example_reference example_moving 1
             "fourier" false None None 0 None)
  = inr (zero_singleton [2%nat]
           (integer_shift [2%nat]
              (peak (val.ifftn (image_product_of example_reference example_moving
                                  "fourier" None)))),
         _compute_error
           (get (val.ifftn (image_product_of example_reference example_moving
                              "fourier" None))
              (peak (val.ifftn (image_product_of example_reference example_moving
                                  "fourier" None))))
           (energy example_reference / INR 2) (energy example_moving / INR 2),
         _compute_phasediff
           (get (val.ifftn (image_product_of example_reference example_moving
                              "fourier" None))
              (peak (val.ifftn (image_product_of example_reference example_moving
                                  "fourier" None))))).
Proof.
  destruct (refinement_uses_sums_and_integer_branch_means example_reference
              example_moving 2 "fourier" 0 None) as [_ H].
  - exact example_valid_inputs.
  - right. reflexivity.
  - left. reflexivity.
  - lia.
  - exact H.
Defined.

(** ** The operations performed before an error *)









(** ** Range of the shift *)

Lemma wrap_is_integer (d m : nat) : exists z : Z, wrap d m = IZR z.
Proof.
  unfold wrap. destruct (d / 2 <? m)%nat.
  - exists (Z.of_nat m - Z.of_nat d)%Z. now rewrite minus_IZR, <- !INR_IZR_INZ.
  - exists (Z.of_nat m). now rewrite <- INR_IZR_INZ.
Qed.

(** The signed form of an index below [d] lies in [(-d/2, d/2]]. *)
Lemma wrap_range (d m : nat) :
  (m < d)%nat -> - INR d / 2 < wrap d m <= INR d / 2.
Proof.
  intros Hm. unfold wrap.
  pose proof (Nat.div_mod_eq d 2) as E.
  pose proof (Nat.mod_upper_bound d 2 ltac:(lia)) as Hr.
  assert (Hd : 0 < INR d) by (apply lt_0_INR; lia).
  assert (Hm0 : 0 <= INR m) by apply pos_INR.
  destruct (d / 2 <? m)%nat eqn:Hc.
  - apply Nat.ltb_lt in Hc.
    assert (H2 : (d < 2 * m)%nat) by lia.
    apply lt_INR in H2, Hm. rewrite mult_INR in H2. simpl in H2. lra.
  - apply Nat.ltb_ge in Hc.
    assert (H2 : (2 * m <= d)%nat) by lia.
    apply le_INR in H2. rewrite mult_INR in H2. simpl in H2. lra.
Qed.

Lemma wrap_singleton (m : nat) : (m < 1)%nat -> wrap 1 m = 0.
Proof. intros H. replace m with 0%nat by lia. reflexivity. Qed.

Lemma Int_part_IZR (z : Z) : Int_part (IZR z) = z.
Proof. symmetry. apply Int_part_spec. lra. Qed.

Lemma Rround_IZR (z : Z) : Rround (IZR z) = IZR z.
Proof.
  unfold Rround. rewrite Int_part_IZR.
  destruct (Rlt_dec (IZR z - IZR z) (1 / 2)) as [_ | H]; [reflexivity | lra].
Qed.

(** Rounding to the upsampled grid leaves an integer estimate alone. *)
Lemma rounded_integer (uf : Z) (z : Z) :
  (0 < uf)%Z -> Rround (IZR z * IZR uf) / IZR uf = IZR z.
Proof.
  intros H. rewrite <- mult_IZR, Rround_IZR, mult_IZR.
  assert (IZR uf <> 0) by (apply not_0_IZR; lia). now field.
Qed.

(** The offset of a patch index from the patch centre is less than one
    pixel. *)
Lemma patch_offset_range (uf : Z) (m : nat) :
  (1 < uf)%Z -> (m < Z.to_nat (upsampled_region_size_of uf))%nat ->
  -1 < (INR m - IZR (dftshift_of uf)) / IZR uf < 1.
Proof.
  intros Huf Hm. rewrite dftshift_closed.
  rewrite upsampled_region_size_closed in Hm.
  set (r := ((3 * uf + 1) / 2)%Z) in *.
  assert (Hr : (2 * r <= 3 * uf + 1 < 2 * r + 2)%Z).
  { unfold r. pose proof (Z.div_mod (3 * uf + 1) 2 ltac:(lia)).
    pose proof (Z.mod_pos_bound (3 * uf + 1) 2 ltac:(lia)). lia. }
  assert (Hs : (2 * (r / 2) <= r < 2 * (r / 2) + 2)%Z).
  { pose proof (Z.div_mod r 2 ltac:(lia)).
    pose proof (Z.mod_pos_bound r 2 ltac:(lia)). lia. }
  assert (Hmz : (0 <= Z.of_nat m < r)%Z) by lia.
  rewrite INR_IZR_INZ, <- minus_IZR.
  assert (Hu : 0 < IZR uf) by (apply IZR_lt; lia).
  assert (Hlo : (- uf < Z.of_nat m - r / 2)%Z) by lia.
  assert (Hhi : (Z.of_nat m - r / 2 < uf)%Z) by lia.
  apply IZR_lt in Hlo, Hhi. rewrite opp_IZR in Hlo.
  split.
  - apply Rmult_lt_reg_r with (IZR uf); [assumption |].
    unfold Rdiv. rewrite Rmult_assoc, Rinv_l by lra. lra.
  - apply Rmult_lt_reg_r with (IZR uf); [assumption |].
    unfold Rdiv. rewrite Rmult_assoc, Rinv_l by lra. lra.
Qed.

Lemma in_bounds_nth (idx s : list nat) (i : nat) :
  in_bounds idx s -> (i < length s)%nat -> (nth i idx 0 < nth i s 0)%nat.
Proof.
  intros H. revert i. induction H as [| a d idx s Ha _ IH]; intros [| i] Hi;
    simpl in *; try lia.
  apply IH. lia.
Qed.

Lemma nth_map_in_range {A B} (f : A -> B) (l : list A) (i : nat) (da : A) (db : B) :
  (i < length l)%nat -> nth i (map f l) db = f (nth i l da).
Proof.
  intros H. rewrite (nth_indep _ db (f da)) by now rewrite length_map.
  apply map_nth.
Qed.

Lemma nth_integer_shift (shape_ maxima : list nat) (i : nat) :
  length maxima = length shape_ -> (i < length shape_)%nat ->
  nth i (integer_shift shape_ maxima) 0 = wrap (nth i shape_ 0%nat) (nth i maxima 0%nat).
Proof.
  intros Hl Hi. unfold integer_shift. apply nth_map2; lia.
Qed.

Lemma ravel_unravel (s : list nat) (i : nat) :
  (i < prod s)%nat -> ravel s (unravel_index i s) = i.
Proof.
  revert i. induction s as [| d s IH]; intros i Hi; simpl in *; [lia |].
  assert (Hp : (0 < prod s)%nat) by (destruct (prod s); lia).
  rewrite IH by (apply Nat.mod_upper_bound; lia).
  pose proof (Nat.div_mod_eq i (prod s)). lia.
Qed.

Lemma argmax_from_spec (l : list R) :
  forall (best : R) (besti i : nat), (besti < i)%nat ->
    let r := val.argmax_from best besti i l in
    let v := if (r <? i)%nat then best else nth (r - i) l 0 in
    (r = besti \/ (i <= r < i + length l)%nat)
    /\ best <= v
    /\ forall j, (j < length l)%nat -> nth j l 0 <= v.
Proof.
  induction l as [| x l IH]; intros best besti i Hb; cbn zeta.
  - simpl. apply Nat.ltb_lt in Hb as Hb'. rewrite Hb'.
    repeat split; [now left | lra | intros j Hj; lia].
  - simpl val.argmax_from. destruct (Rlt_dec best x) as [Hlt | Hge].
    + destruct (IH x i (S i) ltac:(lia)) as (Hr & Hv & Hall).
      cbn zeta in *. set (r := val.argmax_from x i (S i) l) in *.
      assert (Hri : (i <= r)%nat) by lia.
      apply Nat.ltb_ge in Hri as Hri'. rewrite Hri'.
      assert (Ev : nth (r - i) (x :: l) 0
                   = if (r <? S i)%nat then x else nth (r - S i) l 0).
      { destruct (r <? S i)%nat eqn:E.
        - apply Nat.ltb_lt in E. replace (r - i)%nat with 0%nat by lia. reflexivity.
        - apply Nat.ltb_ge in E. replace (r - i)%nat with (S (r - S i)) by lia.
          reflexivity. }
      rewrite Ev. repeat split.
      * right. simpl. lia.
      * lra.
      * intros [| j] Hj; simpl in *; [exact Hv | apply Hall; lia].
    + destruct (IH best besti (S i) ltac:(lia)) as (Hr & Hv & Hall).
      cbn zeta in *. set (r := val.argmax_from best besti (S i) l) in *.
      assert (Ev : (if (r <? i)%nat then best else nth (r - i) (x :: l) 0)
                   = if (r <? S i)%nat then best else nth (r - S i) l 0).
      { destruct Hr as [-> | Hr].
        - apply Nat.ltb_lt in Hb as E1. rewrite E1.
          assert (E2 : (besti <? S i)%nat = true) by (apply Nat.ltb_lt; lia).
          now rewrite E2.
        - assert (E1 : (r <? i)%nat = false) by (apply Nat.ltb_ge; lia).
          assert (E2 : (r <? S i)%nat = false) by (apply Nat.ltb_ge; lia).
          rewrite E1, E2. replace (r - i)%nat with (S (r - S i)) by lia. reflexivity. }
      rewrite Ev. repeat split.
      * destruct Hr as [Hr | Hr]; [now left | right; simpl; lia].
      * exact Hv.
      * intros [| j] Hj; simpl in *; [lra | apply Hall; lia].
Qed.

(** [argmax] returns a position of the largest element. *)
Lemma argmax_is_max (l : list R) (j : nat) :
  (j < length l)%nat -> nth j l 0 <= nth (val.argmax l) l 0.
Proof.
  destruct l as [| x l]; simpl length; [lia |]. intros Hj.
  unfold val.argmax.
  destruct (argmax_from_spec l x 0 1 ltac:(lia)) as (Hr & Hv & Hall).
  cbn zeta in *. set (r := val.argmax_from x 0 1 l) in *.
  assert (Ev : nth r (x :: l) 0 = if (r <? 1)%nat then x else nth (r - 1) l 0).
  { destruct Hr as [-> | Hr]; [reflexivity |].
    assert (E : (r <? 1)%nat = false) by (apply Nat.ltb_ge; lia).
    rewrite E. replace r with (S (r - 1)) at 1 by lia. reflexivity. }
  rewrite Ev. destruct j as [| j]; simpl; [exact Hv | apply Hall; lia].
Qed.

(** The peak is an index of maximum magnitude. *)
Lemma peak_is_max (a : ndarray) (idx : list nat) :
  wf a -> in_bounds idx (shape a) ->
  Cx.abs (get a idx) <= Cx.abs (get a (peak a)).
Proof.
  intros Hwf Hidx. unfold wf in Hwf.
  pose proof (ravel_lt _ _ Hidx) as Hr.
  assert (Hlen : length (map Cx.re (flat (val.abs a))) = prod (shape a))
    by (unfold val.abs, map_arr; cbn [flat]; now rewrite !length_map).
  assert (Hnth : forall i, (i < prod (shape a))%nat ->
             nth i (map Cx.re (flat (val.abs a))) 0 = Cx.abs (nth i (flat a) Cx.zero)).
  { intros i Hi. unfold val.abs, map_arr. cbn [flat]. rewrite map_map.
    rewrite (nth_map_in_range _ _ _ Cx.zero); [reflexivity |].
    eapply Nat.lt_le_trans; [exact Hi |]. apply Nat.eq_le_incl. symmetry. exact Hwf. }
  assert (Hne : map Cx.re (flat (val.abs a)) <> []).
  { intros E. rewrite E in Hlen. simpl in Hlen. lia. }
  pose proof (argmax_bound _ Hne) as Hb. rewrite Hlen in Hb.
  unfold get, peak. rewrite ravel_unravel by exact Hb.
  rewrite <- !Hnth by assumption.
  apply argmax_is_max. now rewrite Hlen.
Qed.

Lemma zero_singleton_integer_shift (shape_ maxima : list nat) :
  in_bounds maxima shape_ ->
  zero_singleton shape_ (integer_shift shape_ maxima) = integer_shift shape_ maxima.
Proof.
  unfold zero_singleton, integer_shift, map2.
  induction 1 as [| m d maxima shape_ Hm _ IH]; simpl; [reflexivity |].
  rewrite IH. f_equal.
  destruct (Nat.eqb_spec d 1) as [-> | _]; [| reflexivity].
  symmetry. now apply wrap_singleton.
Qed.

(** C3, amended. On every valid call each component [d] of the returned
    shift lies in [(-shape[d]/2 - 1, shape[d]/2 + 1)].  With
    [upsample_factor = 1] it lies in [(-shape[d]/2, shape[d]/2]] and
    equals [maxima[d] - shape[d]] if [maxima[d] > floor(shape[d]/2)] and
    [maxima[d]] otherwise, where [maxima] is the index of maximum
    magnitude of the cross-correlation surface. *)
Theorem shift_range_and_integer_estimate
    (reference_image moving_image : ndarray) (upsample_factor : Z) (space : string)
    (overlap_ratio : R) (normalization : option string) :
  valid_inputs reference_image moving_image -> valid_space space ->
  valid_normalization normalization -> (1 <= upsample_factor)%Z ->
  let shape_ := shape reference_image in
  let cross_correlation :=
    cross_correlation_of reference_image moving_image space normalization in
  let maxima := peak cross_correlation in
  exists shift error phasediff,
    outcome (phase_cross_correlation reference_image moving_image upsample_factor
               space false None None overlap_ratio normalization)
    = inr (shift, error, phasediff)
    /\ length shift = length shape_
    /\ in_bounds maxima shape_
    /\ (forall idx, in_bounds idx shape_ ->
          Cx.abs (get cross_correlation idx) <= Cx.abs (get cross_correlation maxima))
    /\ (forall d, (d < length shape_)%nat ->
          - INR (nth d shape_ 0%nat) / 2 - 1 < nth d shift 0
          < INR (nth d shape_ 0%nat) / 2 + 1)
    /\ (upsample_factor = 1%Z ->
        shift = map2 (fun (n m : nat) => if (n / 2 <? m)%nat then INR m - INR n else INR m)
                  shape_ maxima
        /\ forall d, (d < length shape_)%nat ->
             - INR (nth d shape_ 0%nat) / 2 < nth d shift 0
             <= INR (nth d shape_ 0%nat) / 2).
Proof.
  intros Hv Hsp Hn Huf shape_ cc maxima.
  pose proof Hv as (Hwr & Hwm & Hsh & Hpos).
  assert (Hmax : in_bounds maxima shape_)
    by (now apply cross_correlation_peak_in_bounds).
  assert (Hlm : length maxima = length shape_) by (now apply in_bounds_length).
  assert (Hpk : forall idx, in_bounds idx shape_ ->
            Cx.abs (get cc idx) <= Cx.abs (get cc maxima)).
  { intros idx Hidx. apply peak_is_max; [apply wf_build |].
    unfold cc. now rewrite shape_cross_correlation. }
  assert (Hint : forall d, (d < length shape_)%nat ->
            - INR (nth d shape_ 0%nat) / 2 < nth d (integer_shift shape_ maxima) 0
            <= INR (nth d shape_ 0%nat) / 2).
  { intros d Hd. rewrite nth_integer_shift by assumption.
    apply wrap_range. now apply in_bounds_nth. }
  destruct (Z.eq_dec upsample_factor 1) as [-> | Hne].
  - rewrite pcc_outcome_integer by assumption. cbv zeta.
    fold cc. fold maxima. fold shape_.
    rewrite zero_singleton_integer_shift by assumption.
    do 3 eexists. split; [reflexivity |].
    split; [now apply integer_shift_length |].
    split; [assumption |]. split; [assumption |]. split.
    + intros d Hd. specialize (Hint d Hd). lra.
    + intros _. split; [reflexivity | exact Hint].
  - rewrite pcc_outcome_upsampled by (try assumption; lia). cbv zeta.
    fold cc. fold maxima. fold shape_.
    set (patch := upsampled_patch reference_image moving_image space normalization
                    upsample_factor).
    pose proof (refined_estimate_length reference_image moving_image space
                  normalization upsample_factor Hv) as Hlr.
    fold cc maxima shape_ patch in Hlr.
    do 3 eexists. split; [reflexivity |].
    split; [now apply length_zero_singleton |].
    split; [assumption |]. split; [assumption |]. split; [| intros E; lia].
    intros d Hd. rewrite nth_zero_singleton by assumption.
    destruct (Nat.eqb_spec (nth d shape_ 0%nat) 1) as [E | _].
    + rewrite E. simpl. lra.
    + pose proof (upsampled_patch_peak_in_bounds reference_image moving_image space
                    normalization upsample_factor Hv ltac:(lia)) as Hpb.
      fold patch shape_ in Hpb.
      assert (Hlp : length (peak patch) = length shape_)
        by (apply in_bounds_length in Hpb; now rewrite repeat_length in Hpb).
      assert (Hpd : (nth d (peak patch) 0
                     < Z.to_nat (upsampled_region_size_of upsample_factor))%nat).
      { pose proof (in_bounds_nth _ _ d Hpb) as H.
        rewrite repeat_length, nth_repeat_lt in H by exact Hd. now apply H. }
      unfold refined_shift.
      rewrite (nth_map2 _ _ _ _ 0 0)
        by (rewrite ?rounded_shift_length, ?length_map, ?integer_shift_length; lia).
      rewrite (nth_map_in_range _ _ _ 0%nat) by lia.
      unfold rounded_shift.
      rewrite (nth_map_in_range _ _ _ 0) by (rewrite integer_shift_length; lia).
      pose proof (Hint d Hd) as Hi.
      rewrite nth_integer_shift in * by assumption.
      destruct (wrap_is_integer (nth d shape_ 0%nat) (nth d maxima 0%nat)) as [z Ez].
      rewrite Ez in *. rewrite rounded_integer by lia.
      pose proof (patch_offset_range upsample_factor (nth d (peak patch) 0%nat)
                    ltac:(lia) Hpd).
      lra.
Qed.

Lemma shift_range_and_integer_estimate_witness :
  exists shift error phasediff,
    outcome (phase_cross_correlation example_reference example_moving 1
               "fourier" false None None 0 None)
    = inr (shift, error, phasediff)
    /\ - INR 2 / 2 < nth 0 shift 0 <= INR 2 / 2.
Proof.
  destruct (shift_range_and_integer_estimate example_reference example_moving 1
              "fourier" 0 None example_valid_inputs (or_intror eq_refl)
              (or_introl eq_refl) ltac:(lia))
    as (shift & error & phasediff & Hrun & Hlen & _ & _ & _ & H1).
  destruct (H1 eq_refl) as [_ Hr].
  exists shift, error, phasediff. split; [exact Hrun |].
  apply (Hr 0%nat). simpl. lia.
Defined.

(** ** Phase factors at quarter turns *)

Lemma Cexp_imag (y : R) : Cx.exp (0, y) = (cos y, sin y).
Proof. unfold Cx.exp. simpl. rewrite exp_0. f_equal; ring. Qed.

Lemma phase_forward (x : R) :
  Cx.exp (Cx.mul (Cx.mul (Cx.opp Cx.one) val.im2pi) (Cx.of_R x))
  = (cos (2 * PI * x), - sin (2 * PI * x)).
Proof.
  replace (Cx.mul (Cx.mul (Cx.opp Cx.one) val.im2pi) (Cx.of_R x))
    with ((0, - (2 * PI * x)) : C)
    by (unfold val.im2pi; cx_unfold; simpl; f_equal; ring).
  now rewrite Cexp_imag, cos_neg, sin_neg.
Qed.

Lemma phase_inverse (x : R) :
  Cx.exp (Cx.mul (Cx.mul Cx.one val.im2pi) (Cx.of_R x))
  = (cos (2 * PI * x), sin (2 * PI * x)).
Proof.
  replace (Cx.mul (Cx.mul Cx.one val.im2pi) (Cx.of_R x))
    with ((0, 2 * PI * x) : C)
    by (unfold val.im2pi; cx_unfold; simpl; f_equal; ring).
  now rewrite Cexp_imag.
Qed.

Lemma cos_sin_quarter (q : Z) :
  (cos (2 * PI * (IZR q / 4)), sin (2 * PI * (IZR q / 4))) = quarter_turn q.
Proof.
  unfold quarter_turn.
  pose proof (Z.div_mod q 4 ltac:(lia)) as E.
  pose proof (Z.mod_pos_bound q 4 ltac:(lia)) as Hb.
  set (t := (q / 4)%Z) in *. set (r := (q mod 4)%Z) in *.
  assert (Eq : IZR q / 4 = IZR r / 4 + IZR t).
  { rewrite E, plus_IZR, mult_IZR. field. }
  rewrite Eq, cos_2PI_Z, sin_2PI_Z.
  assert (Hr : r = 0%Z \/ r = 1%Z \/ r = 2%Z \/ r = 3%Z) by lia.
  destruct Hr as [-> | [-> | [-> | ->]]].
  - replace (2 * PI * (0 / 4)) with 0 by field. now rewrite cos_0, sin_0.
  - replace (2 * PI * (1 / 4)) with (PI / 2) by field. now rewrite cos_PI2, sin_PI2.
  - replace (2 * PI * (2 / 4)) with PI by field. now rewrite cos_PI, sin_PI.
  - replace (2 * PI * (3 / 4)) with (3 * (PI / 2)) by field.
    now rewrite cos_3PI2, sin_3PI2.
Qed.

Lemma phase_inverse_quarter (q : Z) (x : R) :
  x = IZR q / 4 ->
  Cx.exp (Cx.mul (Cx.mul Cx.one val.im2pi) (Cx.of_R x)) = quarter_turn q.
Proof. intros ->. now rewrite phase_inverse, cos_sin_quarter. Qed.

Lemma kernel_quarter (q : Z) (x : R) :
  x = IZR (- q) / 4 ->
  Cx.exp (Cx.mul (Cx.opp jnp.im2pi) (Cx.of_R x)) = quarter_turn q.
Proof.
  intros ->. rewrite Cexp_im2pi.
  replace (IZR (- q) / 4) with (- (IZR q / 4)) by (rewrite opp_IZR; field).
  replace (2 * PI * - (IZR q / 4)) with (- (2 * PI * (IZR q / 4))) by ring.
  rewrite cos_neg, sin_neg, Ropp_involutive. apply cos_sin_quarter.
Qed.

(** ** A refined shift outside the half-shape interval *)

Lemma example_image_product :
  flat (image_product_of example_reference example_moving "fourier" None)
  = [(1, 0); (-1, -2)].
Proof.
  unfold image_product_of, to_freq. simpl.
  repeat (f_equal; try (unfold Cx.mul, Cx.conj; simpl; f_equal; ring)).
Qed.

Lemma example_image_product_shape :
  shape (image_product_of example_reference example_moving "fourier" None) = [2%nat].
Proof. reflexivity. Qed.

Lemma twiddle_two (k n : nat) :
  val.twiddle Cx.one [2%nat] [k] [n] = quarter_turn (2 * Z.of_nat k * Z.of_nat n).
Proof.
  unfold val.twiddle. apply phase_inverse_quarter. simpl val.dft_angle.
  rewrite !mult_IZR, <- !INR_IZR_INZ. simpl. field.
Qed.

Lemma example_cross_correlation :
  flat (cross_correlation_of example_reference example_moving "fourier" None)
  = [(0, -1); (1, 1)].
Proof.
  unfold cross_correlation_of, val.ifftn.
  rewrite example_image_product_shape. unfold build, csum_idx, get, size.
  rewrite example_image_product_shape, example_image_product.
  cbn [flat indices flat_map map seq app ravel nth prod fold_right Nat.mul Nat.add
       Cx.sum].
  rewrite !twiddle_two. unfold quarter_turn. simpl Z.modulo. cbv iota.
  repeat (f_equal; try (cx_unfold; simpl; f_equal; field)).
Qed.

(** Comparing magnitudes is comparing their squares. *)
Lemma abs_lt (a b : C) :
  Cx.re a * Cx.re a + Cx.im a * Cx.im a < Cx.re b * Cx.re b + Cx.im b * Cx.im b ->
  Cx.abs a < Cx.abs b.
Proof.
  intros H. unfold Cx.abs. apply sqrt_lt_1_alt. split; [| exact H].
  pose proof (Rle_0_sqr (Cx.re a)). pose proof (Rle_0_sqr (Cx.im a)).
  unfold Rsqr in *. lra.
Qed.

Lemma example_peak :
  peak (cross_correlation_of example_reference example_moving "fourier" None)
  = [1%nat].
Proof.
  unfold peak. rewrite shape_cross_correlation.
  unfold val.abs, map_arr. cbn [flat]. rewrite example_cross_correlation.
  cbn [map val.argmax val.argmax_from Cx.re Cx.of_R fst].
  destruct (Rlt_dec (Cx.abs (0, -1)) (Cx.abs (1, 1))) as [_ | H].
  - reflexivity.
  - exfalso. apply H. apply abs_lt. simpl. lra.
Qed.

Lemma nth_indices_unravel (s : list nat) (i : nat) :
  (i < prod s)%nat -> nth i (indices s) [] = unravel_index i s.
Proof.
  intros Hi. rewrite <- (ravel_unravel s i Hi) at 1.
  apply nth_indices. now apply unravel_index_in_bounds.
Qed.

(** The elements of a well-formed array are its entries in row-major
    order of the indices. *)
Lemma flat_as_gets (a : ndarray) : wf a -> flat a = map (get a) (indices (shape a)).
Proof.
  intros Hwf. unfold wf in Hwf.
  apply (nth_ext _ _ Cx.zero (get a [])).
  - now rewrite length_map, length_indices.
  - intros i Hi.
    assert (Hi' : (i < prod (shape a))%nat).
    { eapply Nat.lt_le_trans; [exact Hi |]. apply Nat.eq_le_incl. exact Hwf. }
    rewrite (map_nth (get a)), nth_indices_unravel by exact Hi'.
    unfold get. now rewrite ravel_unravel.
Qed.

Lemma example_offsets :
  sample_region_offset_of 2 (rounded_shift 2 (integer_shift [2%nat] [1%nat])) = [-1].
Proof.
  unfold sample_region_offset_of, rounded_shift, integer_shift, map2, wrap.
  rewrite dftshift_closed. simpl map.
  change (INR 1) with (IZR 1). rewrite rounded_integer by lia.
  change (7 / 2 / 2)%Z with 1%Z. f_equal. lra.
Qed.

Lemma kernel_entry_example (k m : nat) :
  kernel_entry 2 2 (-1) k m
  = quarter_turn (- ((Z.of_nat k + 1) * jnp.fftfreq_index 2 m)).
Proof.
  unfold kernel_entry. apply kernel_quarter.
  rewrite Z.opp_involutive, mult_IZR, plus_IZR, <- INR_IZR_INZ. simpl INR. field.
Qed.

Lemma example_patch :
  shape (upsampled_patch example_reference example_moving "fourier" None 2) = [3%nat]
  /\ flat (upsampled_patch example_reference example_moving "fourier" None 2)
     = [(-1, 1); (2, 2); (3, -1)].
Proof.
  set (ip := image_product_of example_reference example_moving "fourier" None).
  assert (Hoff : sample_region_offset_of 2
                   (rounded_shift 2 (integer_shift (shape example_reference)
                                       (peak (val.ifftn ip)))) = [-1]).
  { unfold ip. fold (cross_correlation_of example_reference example_moving "fourier" None).
    rewrite example_peak. apply example_offsets. }
  assert (Hsz : upsampled_region_size_of 2 = 3%Z)
    by (rewrite upsampled_region_size_closed; reflexivity).
  unfold upsampled_patch. fold ip. rewrite Hoff, Hsz.
  destruct (upsampled_dft_run (val.conj ip) (inl 3%Z) 2 (Some [-1]))
    as (out & Hrun & Hso & Hdt & Hwfo & Hget).
  - unfold wf. reflexivity.
  - split; reflexivity.
  - unfold value_of. rewrite Hrun. cbn [outcome snd].
    change (shape (val.conj out)) with (shape out).
    change (flat (val.conj out)) with (map Cx.conj (flat out)).
    assert (Hso' : shape out = [3%nat]) by (rewrite Hso; reflexivity).
    split; [exact Hso' |].
    assert (Hget' : forall k, (k < 3)%nat ->
              get out [k]
              = Cx.add (Cx.mul (kernel_entry 2 2 (-1) k 0) (Cx.conj (1, 0)))
                  (Cx.mul (kernel_entry 2 2 (-1) k 1) (Cx.conj (-1, -2)))).
    { intros k Hk.
      rewrite Hget
        by (change (in_bounds [k] [3%nat]); apply Forall2_cons;
            [exact Hk | apply Forall2_nil]).
      unfold csum_idx, get.
      change (flat (val.conj ip)) with (map Cx.conj (flat ip)).
      unfold ip. rewrite example_image_product.
      cbn [dim_properties shape val.conj map_arr region_sizes offsets ndim length
           repeat combine indices flat_map map seq app ravel nth prod fold_right
           Nat.mul Nat.add Cx.sum cast_kernel_prod dtype image_product_of
           val.multiply zip_arr].
      change (to_freq "fourier" example_reference) with example_reference.
      change (to_freq "fourier" example_moving) with example_moving.
      cbn [shape dtype example_reference example_moving result_type real_dtype
           is_complex orb length repeat combine indices flat_map map seq app ravel
           nth prod fold_right Nat.mul Nat.add cast_kernel_prod].
      rewrite !cast_complex by reflexivity.
      now rewrite !Cmul_1_r, Cadd_0_r. }
    rewrite (flat_as_gets out Hwfo), Hso'.
    cbn [indices flat_map seq map app].
    rewrite !Hget' by lia. rewrite !kernel_entry_example.
    change (- ((Z.of_nat 0 + 1) * jnp.fftfreq_index 2 0))%Z with 0%Z.
    change (- ((Z.of_nat 1 + 1) * jnp.fftfreq_index 2 0))%Z with 0%Z.
    change (- ((Z.of_nat 2 + 1) * jnp.fftfreq_index 2 0))%Z with 0%Z.
    change (- ((Z.of_nat 0 + 1) * jnp.fftfreq_index 2 1))%Z with 1%Z.
    change (- ((Z.of_nat 1 + 1) * jnp.fftfreq_index 2 1))%Z with 2%Z.
    change (- ((Z.of_nat 2 + 1) * jnp.fftfreq_index 2 1))%Z with 3%Z.
    change (quarter_turn 0) with ((1, 0) : C).
    change (quarter_turn 1) with ((0, 1) : C).
    change (quarter_turn 2) with ((-1, 0) : C).
    change (quarter_turn 3) with ((0, -1) : C).
    repeat (f_equal; try (cx_unfold; simpl; f_equal; ring)).
Qed.

Lemma example_patch_peak :
  peak (upsampled_patch example_reference example_moving "fourier" None 2) = [2%nat].
Proof.
  destruct example_patch as [Hs Hf].
  unfold peak. rewrite Hs. unfold val.abs, map_arr. cbn [flat]. rewrite Hf.
  cbn [map val.argmax val.argmax_from Cx.re Cx.of_R fst].
  destruct (Rlt_dec (Cx.abs (-1, 1)) (Cx.abs (2, 2))) as [_ | H];
    [| exfalso; apply H; apply abs_lt; simpl; lra].
  destruct (Rlt_dec (Cx.abs (2, 2)) (Cx.abs (3, -1))) as [_ | H];
    [| exfalso; apply H; apply abs_lt; simpl; lra].
  reflexivity.
Qed.

(** C3 as stated fails: with [upsample_factor = 2] on two samples, the
    spectra [[1, -1-2i]] and [[1, 1]] give the shift [3/2], above
    [shape/2 = 1]. *)
Lemma refined_shift_leaves_half_shape_interval :
  valid_inputs example_reference example_moving
  /\ exists error phasediff,
       outcome (phase_cross_correlation example_reference example_moving 2
                  "fourier" false None None (3 / 10) None)
       = inr ([3 / 2], error, phasediff)
       /\ ~ (- INR (nth 0 (shape example_reference) 0%nat) / 2 < 3 / 2
             <= INR (nth 0 (shape example_reference) 0%nat) / 2).
Proof.
  split; [exact example_valid_inputs |].
  rewrite pcc_outcome_upsampled;
    [| exact example_valid_inputs | right; reflexivity | left; reflexivity | lia].
  cbv zeta. rewrite example_peak, example_patch_peak.
  do 2 eexists. split.
  - f_equal. f_equal. f_equal.
    unfold zero_singleton, refined_shift, rounded_shift, integer_shift, map2, wrap.
    rewrite dftshift_closed. simpl map.
    change (INR 1) with (IZR 1). rewrite rounded_integer by lia.
    change (7 / 2 / 2)%Z with 1%Z. f_equal. simpl. lra.
  - simpl. lra.
Qed.

(** ** Zero-padded DFT *)

Lemma Csum_seq_shift (f : nat -> C) (s l : nat) :
  Cx.sum (map f (seq s l)) = Cx.sum (map (fun t => f (s + t)%nat) (seq 0 l)).
Proof.
  revert s. induction l as [| l IH]; intros s; simpl; [reflexivity |].
  rewrite Nat.add_0_r. f_equal. rewrite IH, <- seq_shift, map_map.
  apply Csum_map_ext. intros t _. f_equal. lia.
Qed.

(** Summing over the padded axis the terms of the samples it holds is
    summing over the samples. *)
Lemma csum_pad_axis (n m : nat) (h : nat -> nat -> C) :
  (1 <= n <= m)%nat ->
  csum_n m (fun j => match pad_sample n m j with
                     | Some i => h i j
                     | None => Cx.zero
                     end)
  = csum_n n (fun i => h i (pad_position n m i)).
Proof.
  intros Hn. unfold csum_n.
  set (a := ((n - 1) / 2 + 1)%nat). set (b := (n / 2)%nat).
  assert (Hab : (a + b = n)%nat).
  { unfold a, b. pose proof (Nat.div_mod_eq (n - 1) 2).
    pose proof (Nat.div_mod_eq n 2).
    pose proof (Nat.mod_upper_bound (n - 1) 2 ltac:(lia)).
    pose proof (Nat.mod_upper_bound n 2 ltac:(lia)). lia. }
  assert (El : seq 0 m = seq 0 a ++ seq (0 + a) (m - n) ++ seq (0 + a + (m - n)) b).
  { rewrite <- !seq_app. f_equal. lia. }
  assert (Er : seq 0 n = seq 0 a ++ seq (0 + a) b).
  { rewrite <- seq_app. f_equal. lia. }
  rewrite El, Er, !map_app, !Csum_app.
  match goal with
  | |- Cx.add ?s1 (Cx.add ?s2 ?s3) = Cx.add ?t1 ?t3 =>
      assert (H1 : s1 = t1); [| assert (H2 : s2 = Cx.zero);
                                [| assert (H3 : s3 = t3);
                                   [| now rewrite H1, H2, H3, Cadd_0_l]]]
  end.
  - apply Csum_map_ext. intros j Hj. apply in_seq in Hj.
    unfold pad_sample, pad_position.
    assert (E : (j <=? (n - 1) / 2)%nat = true) by (apply Nat.leb_le; unfold a in *; lia).
    now rewrite E.
  - transitivity (Cx.sum (map (fun _ : nat => Cx.zero) (seq (0 + a) (m - n))));
      [| apply Csum_map_zero].
    apply Csum_map_ext.
    intros j Hj. apply in_seq in Hj. unfold pad_sample.
    assert (E1 : (j <=? (n - 1) / 2)%nat = false) by (apply Nat.leb_gt; unfold a in *; lia).
    assert (E2 : (m - n / 2 <=? j)%nat = false) by (apply Nat.leb_gt; unfold b in *; lia).
    now rewrite E1, E2.
  - rewrite (Csum_seq_shift _ (0 + a + (m - n))), (Csum_seq_shift _ (0 + a)).
    apply Csum_map_ext. intros t Ht. apply in_seq in Ht.
    unfold pad_sample, pad_position.
    assert (E1 : (0 + a + (m - n) + t <=? (n - 1) / 2)%nat = false)
      by (apply Nat.leb_gt; unfold a in *; lia).
    assert (E2 : (m - n / 2 <=? 0 + a + (m - n) + t)%nat = true)
      by (apply Nat.leb_le; unfold a, b in *; lia).
    assert (E3 : (0 + a + t <=? (n - 1) / 2)%nat = false)
      by (apply Nat.leb_gt; unfold a in *; lia).
    rewrite E1, E2, E3. f_equal; lia.
Qed.

Lemma csum_idx_ext (s : list nat) (f g : list nat -> C) :
  (forall i, in_bounds i s -> f i = g i) -> csum_idx s f = csum_idx s g.
Proof.
  intros H. apply Csum_map_ext. intros i Hi. apply H. now apply in_indices.
Qed.

Lemma csum_idx_zero (s : list nat) : csum_idx s (fun _ => Cx.zero) = Cx.zero.
Proof. apply Csum_map_zero. Qed.

(** The same over all axes. *)
Lemma csum_pad (small big : list nat) :
  Forall2 (fun n m => (1 <= n <= m)%nat) small big ->
  forall h : list nat -> list nat -> C,
    csum_idx big (fun j => match pad_samples small big j with
                           | Some i => h i j
                           | None => Cx.zero
                           end)
    = csum_idx small (fun i => h i (pad_positions small big i)).
Proof.
  induction 1 as [| n m small big Hn _ IH]; intros h.
  - now rewrite !csum_idx_nil.
  - rewrite !csum_idx_cons. cbn [pad_positions].
    rewrite <- (csum_pad_axis n m
                  (fun i0 j0 => csum_idx small
                     (fun i => h (i0 :: i) (j0 :: pad_positions small big i))) Hn).
    apply csum_n_ext. intros j0 _. cbn [pad_samples].
    destruct (pad_sample n m j0) as [i0 |].
    + rewrite <- (IH (fun i j => h (i0 :: i) (j0 :: j))).
      apply csum_idx_ext. intros j _.
      now destruct (pad_samples small big j).
    + apply csum_idx_zero.
Qed.

Lemma mod_once (a m : nat) : (m <= a < 2 * m)%nat -> (a mod m = a - m)%nat.
Proof.
  intros H. symmetry. apply (Nat.mod_unique a m 1); lia.
Qed.

(** On one axis, centring, embedding and shifting back puts sample
    [pad_sample n m j] at position [j]. *)
Lemma shift_embed_axis (n m j : nat) :
  (1 <= n <= m)%nat -> (j < m)%nat ->
  let j' := ((j + m / 2) mod m)%nat in
  let c := (m / 2 - n / 2)%nat in
  (if ((c <=? j') && (j' <? c + n))%nat
   then Some (((j' - c) + (n - n / 2)) mod n)%nat
   else None)
  = pad_sample n m j
  /\ (((c <=? j') && (j' <? c + n))%nat = true -> (j' - c < n)%nat).
Proof.
  intros Hn Hj j' c. unfold pad_sample.
  pose proof (Nat.div_mod_eq n 2) as En. pose proof (Nat.div_mod_eq m 2) as Em.
  pose proof (Nat.div_mod_eq (n - 1) 2) as En1.
  pose proof (Nat.mod_upper_bound n 2 ltac:(lia)).
  pose proof (Nat.mod_upper_bound m 2 ltac:(lia)).
  pose proof (Nat.mod_upper_bound (n - 1) 2 ltac:(lia)).
  assert (Hhalf : (n / 2 <= m / 2)%nat) by (apply Nat.Div0.div_le_mono; lia).
  assert (Hj' : (j + m / 2 < m /\ j' = j + m / 2
                 \/ m <= j + m / 2 /\ j' = j + m / 2 - m)%nat).
  { unfold j'. destruct (Nat.lt_ge_cases (j + m / 2) m) as [H' | H'].
    - left. split; [exact H' | now apply Nat.mod_small].
    - right. split; [exact H' | apply mod_once; lia]. }
  clearbody j'. split.
  - destruct (Nat.leb_spec j ((n - 1) / 2)) as [Hlo | Hlo].
    + assert (Ej : (j' = j + m / 2)%nat) by lia.
      assert (Ec : ((c <=? j') && (j' <? c + n))%nat = true).
      { apply andb_true_iff. split; [apply Nat.leb_le | apply Nat.ltb_lt];
          unfold c; lia. }
      rewrite Ec. f_equal.
      replace (j' - c + (n - n / 2))%nat with (j + n)%nat by (unfold c; lia).
      rewrite mod_once by lia. lia.
    + destruct (Nat.leb_spec (m - n / 2) j) as [Hhi | Hhi].
      * assert (Ej : (j' = j + m / 2 - m)%nat) by lia.
        assert (Ec : ((c <=? j') && (j' <? c + n))%nat = true).
        { apply andb_true_iff. split; [apply Nat.leb_le | apply Nat.ltb_lt];
            unfold c; lia. }
        rewrite Ec. f_equal.
        replace (j' - c + (n - n / 2))%nat with (j + n - m)%nat by (unfold c; lia).
        apply Nat.mod_small. lia.
      * assert (Ec : ((c <=? j') && (j' <? c + n))%nat = false).
        { apply andb_false_iff. destruct Hj' as [[Ha Hb] | [Ha Hb]].
          - right. apply Nat.ltb_ge. unfold c. lia.
          - left. apply Nat.leb_gt. unfold c. lia. }
        now rewrite Ec.
  - intros Hc. apply andb_true_iff in Hc as [Hc1 Hc2].
    apply Nat.leb_le in Hc1. apply Nat.ltb_lt in Hc2. lia.
Qed.

Lemma shift_embed_axes (small big : list nat) :
  Forall2 (fun n m => (1 <= n <= m)%nat) small big ->
  forall j, in_bounds j big ->
    let j' := map2 (fun m q => (q + m / 2) mod m)%nat big j in
    match center_index small big j' with
    | Some i =>
        in_bounds i small
        /\ pad_samples small big j
           = Some (map2 (fun n q => (q + (n - n / 2)) mod n)%nat small i)
    | None => pad_samples small big j = None
    end.
Proof.
  induction 1 as [| n m small big Hn _ IH]; intros j Hj; inversion Hj; subst.
  - simpl. split; [constructor | reflexivity].
  - cbn [map2 combine map fst snd center_index pad_samples].
    match goal with H : (_ < m)%nat |- _ =>
      destruct (shift_embed_axis n m _ Hn H) as [Hs Hb] end.
    cbv zeta in Hs, Hb. rewrite <- Hs.
    match goal with H : Forall2 lt _ big |- _ => specialize (IH _ H) end.
    cbv zeta in IH. fold (map2 (fun m q => (q + m / 2) mod m)%nat big l) in *.
    destruct (_ && _)%bool; [| reflexivity].
    destruct (center_index small big _) as [i |]; cbn [option_map].
    + destruct IH as [Hi Hp]. rewrite Hp. cbn [option_map]. split.
      * constructor; [now apply Hb | exact Hi].
      * reflexivity.
    + now rewrite IH.
Qed.

Lemma in_bounds_map2_mod (f : nat -> nat -> nat) (s j : list nat) :
  Forall (fun d => (0 < d)%nat) s -> length j = length s ->
  in_bounds (map2 (fun m q => f m q mod m)%nat s j) s.
Proof.
  intros Hs. revert j. induction Hs as [| d s Hd _ IH]; intros [| q j] Hl;
    simpl in *; try discriminate; constructor.
  - now apply Nat.mod_upper_bound; lia.
  - apply IH. lia.
Qed.

Lemma padded_shape_pos (s : list nat) (uf : nat) :
  (1 <= uf)%nat -> Forall (fun d => (0 < d)%nat) s ->
  Forall2 (fun n m => (1 <= n <= m)%nat) s (map (Nat.mul uf) s).
Proof.
  intros Hu. induction 1 as [| d s Hd _ IH]; simpl; constructor; [nia | exact IH].
Qed.

(** The padded spectrum holds sample [pad_samples j] at [j], and zero
    where there is none. *)
Lemma get_zero_pad (a : ndarray) (uf : nat) (j : list nat) :
  (1 <= uf)%nat -> Forall (fun d => (0 < d)%nat) (shape a) ->
  in_bounds j (map (Nat.mul uf) (shape a)) ->
  get (zero_pad a uf) j
  = match pad_samples (shape a) (map (Nat.mul uf) (shape a)) j with
    | Some i => get a i
    | None => Cx.zero
    end.
Proof.
  intros Hu Hpos Hj.
  pose proof (padded_shape_pos _ _ Hu Hpos) as Hsb.
  assert (Hbig : Forall (fun d => (0 < d)%nat) (map (Nat.mul uf) (shape a))).
  { clear - Hsb. induction Hsb; constructor; [lia | assumption]. }
  unfold zero_pad, ifftshift. cbn [shape embed_center build dtype].
  rewrite get_build by exact Hj.
  unfold embed_center. rewrite get_build
    by (apply (in_bounds_map2_mod (fun m q => q + m / 2)%nat); [exact Hbig |];
        now apply in_bounds_length).
  cbn [shape fftshift build].
  pose proof (shift_embed_axes _ _ Hsb j Hj) as H. cbv zeta in H.
  destruct (center_index (shape a) (map (Nat.mul uf) (shape a)) _) as [i |].
  - destruct H as [Hi Hp]. rewrite Hp. unfold fftshift. now rewrite get_build.
  - now rewrite H.
Qed.

(** ** The kernel as the phase factor of the padded DFT *)

Lemma Cexp_scaled_add (c : C) (x y : R) :
  Cx.exp (Cx.mul c (Cx.of_R (x + y)))
  = Cx.mul (Cx.exp (Cx.mul c (Cx.of_R x))) (Cx.exp (Cx.mul c (Cx.of_R y))).
Proof.
  rewrite <- Cexp_add. f_equal. destruct c. cx_unfold. simpl. f_equal; ring.
Qed.

Lemma Cexp_scaled_0 (c : C) : Cx.exp (Cx.mul c (Cx.of_R 0)) = Cx.one.
Proof.
  rewrite <- Cexp_0. f_equal. destruct c. cx_unfold. simpl. f_equal; ring.
Qed.

Lemma forward_sign : Cx.mul (Cx.opp Cx.one) val.im2pi = Cx.opp jnp.im2pi.
Proof. unfold jnp.im2pi, val.im2pi. cx_unfold. simpl. f_equal; ring. Qed.

(** On one axis: the DFT phase of the padded axis at the periodic window
    index and at the position of sample [i] is the kernel entry
    [(k, i)]. *)
Lemma padded_phase_is_kernel_entry (uf n : nat) (z : Z) (k i : nat) :
  (1 <= uf)%nat -> (i < n)%nat ->
  let m := (uf * n)%nat in
  let j := Z.to_nat ((Z.of_nat k - z) mod Z.of_nat m) in
  Cx.exp (Cx.mul (Cx.opp jnp.im2pi)
            (Cx.of_R (INR j * INR (pad_position n m i) / INR m)))
  = kernel_entry (Z.of_nat uf) n (IZR z) k i.
Proof.
  intros Hu Hi m j. unfold kernel_entry.
  assert (Hm : (0 < Z.of_nat m)%Z) by (unfold m; nia).
  set (K := (Z.of_nat k - z)%Z).
  pose proof (Z.div_mod K (Z.of_nat m) ltac:(lia)) as EK.
  pose proof (Z.mod_pos_bound K (Z.of_nat m) Hm) as HJ.
  set (q := (K / Z.of_nat m)%Z) in *. set (J := (K mod Z.of_nat m)%Z) in *.
  assert (EJ : INR j = IZR J).
  { unfold j. rewrite INR_IZR_INZ, Z2Nat.id by (fold K; fold J; lia). reflexivity. }
  clearbody q J.
  set (s := jnp.fftfreq_index n i).
  set (P := Z.of_nat (pad_position n m i)).
  assert (He : exists e : Z, P = (s + Z.of_nat m * e)%Z).
  { unfold P, s, pad_position, jnp.fftfreq_index.
    destruct (i <=? (n - 1) / 2)%nat.
    - exists 0%Z. lia.
    - exists 1%Z. unfold m. nia. }
  destruct He as [e He].
  apply (Cexp_im2pi_period _ _ (e * J - q * s)%Z).
  assert (EZ : (J * P = K * s + Z.of_nat m * (e * J - q * s))%Z).
  { rewrite He, EK. ring. }
  apply (f_equal IZR) in EZ. rewrite plus_IZR, !mult_IZR in EZ.
  assert (EM : INR n * IZR (Z.of_nat uf) = INR m).
  { unfold m. rewrite mult_INR, <- INR_IZR_INZ. ring. }
  assert (Hm0 : INR m <> 0).
  { apply not_0_INR. unfold m. nia. }
  rewrite EJ, EM. fold P in EZ |- *.
  replace (INR (pad_position n m i)) with (IZR P) by (unfold P; now rewrite INR_IZR_INZ).
  replace (INR k - IZR z) with (IZR K)
    by (unfold K; now rewrite minus_IZR, <- INR_IZR_INZ).
  rewrite EZ. rewrite (INR_IZR_INZ m) in *. field. exact Hm0.
Qed.

Lemma window_index_in_bounds (zs : list Z) (big ks : list nat) :
  Forall (fun d => (0 < d)%nat) big ->
  length zs = length big -> length ks = length big ->
  in_bounds (window_index zs big ks) big.
Proof.
  unfold window_index, map2. intros Hb. revert zs ks.
  induction Hb as [| m big Hm _ IH]; intros [| z zs] [| k ks] Hz Hk; simpl in *;
    try discriminate; constructor.
  - pose proof (Z.mod_pos_bound (Z.of_nat k - z) (Z.of_nat m) ltac:(lia)). lia.
  - apply IH; lia.
Qed.

(** Over all axes: the DFT phase of the padded array is the product of
    the kernel entries. *)
Lemma padded_twiddle_is_kernel_prod (uf : nat) :
  (1 <= uf)%nat ->
  forall (small : list nat) (szs zs : list Z) (ks i : list nat),
    length szs = length small -> length zs = length small ->
    length ks = length small -> in_bounds i small ->
    val.twiddle (Cx.opp Cx.one) (map (Nat.mul uf) small)
      (window_index zs (map (Nat.mul uf) small) ks)
      (pad_positions small (map (Nat.mul uf) small) i)
    = kernel_prod (Z.of_nat uf) (combine small (combine szs (map IZR zs))) ks i.
Proof.
  intros Hu. unfold val.twiddle. rewrite forward_sign.
  induction small as [| n small IH]; intros szs zs ks i Hs Hz Hk Hi.
  - simpl. apply Cexp_scaled_0.
  - destruct szs as [| sz szs], zs as [| z zs], ks as [| k ks]; try discriminate.
    inversion Hi as [| i0 n' i' small' Hi0 Hi']; subst.
    simpl in Hs, Hz, Hk.
    cbn [map window_index map2 combine fst snd pad_positions val.dft_angle kernel_prod].
    rewrite Cexp_scaled_add.
    fold (map2 (fun (zm : Z * nat) (k : nat) =>
                  Z.to_nat ((Z.of_nat k - fst zm) mod Z.of_nat (snd zm)))
            (combine zs (map (Nat.mul uf) small)) ks).
    fold (window_index zs (map (Nat.mul uf) small) ks).
    rewrite (IH szs zs ks i') by (try lia; assumption).
    f_equal. now apply padded_phase_is_kernel_entry.
Qed.

Lemma dtype_complex_dtype (d : scalar_type) :
  is_complex d = true -> complex_dtype d = d.
Proof. destruct d; simpl; intros H; try discriminate H; reflexivity. Qed.

(** The matrix-multiply DFT computes the periodic window of the DFT of
    the zero-padded data that ends where the spec-worded window starts. *)
Lemma upsampled_dft_window_eq
    (data : ndarray) (region_size : list Z) (upsample_factor : nat)
    (axis_offsets : list Z) :
  wf data -> is_complex (dtype data) = true ->
  Forall (fun d => (0 < d)%nat) (shape data) -> (1 <= upsample_factor)%nat ->
  length region_size = ndim data -> length axis_offsets = ndim data ->
  _upsampled_dft data (inr region_size) (Z.of_nat upsample_factor)
    (Some (map IZR axis_offsets))
  = (concat (repeat [op_exp; op_tensordot] (ndim data)),
     inr (padded_dft_window_before_offsets data (map Z.to_nat region_size)
            upsample_factor axis_offsets)).
Proof.
  intros Hwf Hc Hpos Hu Hr Ho. unfold padded_dft_window_before_offsets.
  assert (Hl : lengths_match data (inr region_size) (Some (map IZR axis_offsets)))
    by (split; cbn [region_sizes offsets]; [exact Hr | now rewrite length_map]).
  destruct (upsampled_dft_run data (inr region_size) (Z.of_nat upsample_factor)
              (Some (map IZR axis_offsets)) Hwf Hl)
    as (out & Hrun & Hsh & Hdt & Hwfo & Hget).
  cbn [region_sizes] in Hsh, Hget. rewrite Hrun. f_equal. f_equal.
  set (big := map (Nat.mul upsample_factor) (shape data)).
  assert (Hbig : Forall (fun d => (0 < d)%nat) big).
  { pose proof (padded_shape_pos _ _ Hu Hpos) as H. fold big in H.
    clear - H. induction H; constructor; [lia | assumption]. }
  assert (Hlb : length big = length (shape data)) by (unfold big; apply length_map).
  destruct out as [s d f]. unfold periodic_window, build. cbn [shape dtype flat] in *.
  subst s. f_equal.
  - rewrite Hdt. symmetry. now apply dtype_complex_dtype.
  - change f with (flat {| shape := map Z.to_nat region_size; dtype := d; flat := f |}).
    rewrite (flat_as_gets _ Hwfo). cbn [shape].
    apply map_ext_in. intros ks Hks. apply in_indices in Hks.
    rewrite (Hget ks Hks).
    assert (Hlk : length ks = length (shape data)).
    { apply in_bounds_length in Hks. rewrite length_map in Hks. unfold ndim in Hr. lia. }
    fold (window_index axis_offsets big ks).
    unfold val.fftn at 1. cbn [shape zero_pad ifftshift embed_center build]. fold big.
    rewrite get_build
      by (apply window_index_in_bounds; [exact Hbig | unfold ndim in Ho; lia | lia]).
    transitivity
      (csum_idx big
         (fun j => match pad_samples (shape data) big j with
                   | Some i =>
                       Cx.mul (get data i)
                         (val.twiddle (Cx.opp Cx.one) big
                            (window_index axis_offsets big ks) j)
                   | None => Cx.zero
                   end)).
    + rewrite (csum_pad (shape data) big (padded_shape_pos _ _ Hu Hpos)
                 (fun i j => Cx.mul (get data i)
                               (val.twiddle (Cx.opp Cx.one) big
                                  (window_index axis_offsets big ks) j))).
      apply csum_idx_ext. intros i Hi. unfold big, dim_properties.
      cbn [region_sizes offsets].
      rewrite (padded_twiddle_is_kernel_prod upsample_factor Hu (shape data)
                 region_size axis_offsets ks i) by (unfold ndim in *; lia || assumption).
      rewrite cast_kernel_prod_complex by exact Hc. apply Cmul_comm.
    + apply csum_idx_ext. intros j Hj.
      rewrite (get_zero_pad data upsample_factor j Hu Hpos Hj). fold big.
      destruct (pad_samples (shape data) big j);
        [reflexivity | symmetry; apply Cmul_0_l].
Qed.

(** C2, amended. For complex data with no empty axis, a positive integer
    [upsample_factor] and integer [axis_offsets], [_upsampled_dft]
    returns the window of shape [region_size] of the full DFT of the
    data zero-padded to [upsample_factor] times its shape (centred,
    embedded and inverse-shifted), whose entry [k] is the entry of the
    DFT at index [(k - axis_offsets) mod (upsample_factor * shape)]: the
    window starts at [- axis_offsets], taken periodically, not at
    [axis_offsets]. *)
Theorem upsampled_dft_is_window_of_padded_dft
    (data : ndarray) (region_size : list Z) (upsample_factor : nat)
    (axis_offsets : list Z) :
  wf data -> is_complex (dtype data) = true ->
  Forall (fun d => (0 < d)%nat) (shape data) -> (1 <= upsample_factor)%nat ->
  length region_size = ndim data -> length axis_offsets = ndim data ->
  _upsampled_dft data (inr region_size) (Z.of_nat upsample_factor)
    (Some (map IZR axis_offsets))
  = (concat (repeat [op_exp; op_tensordot] (ndim data)),
     inr (padded_dft_window_before_offsets data (map Z.to_nat region_size)
            upsample_factor axis_offsets)).
Proof. exact (upsampled_dft_window_eq data region_size upsample_factor axis_offsets). Qed.

Lemma upsampled_dft_is_window_of_padded_dft_witness :
  _upsampled_dft example_moving (inr [1%Z]) (Z.of_nat 2) (Some (map IZR [1%Z]))
  = ([op_exp; op_tensordot],
     inr (padded_dft_window_before_offsets example_moving [1%nat] 2 [1%Z])).
Proof.
  apply (upsampled_dft_is_window_of_padded_dft example_moving [1%Z] 2 [1%Z]).
  - reflexivity.
  - reflexivity.
  - repeat constructor.
  - lia.
  - reflexivity.
  - reflexivity.
Defined.

(** ** The window does not start at [axis_offsets] *)

Lemma in_bounds_one (k n : nat) : (k < n)%nat -> in_bounds [k] [n].
Proof. intros H. constructor; [exact H | constructor]. Qed.

Lemma twiddle_four (j m : nat) :
  val.twiddle (Cx.opp Cx.one) [4%nat] [j] [m]
  = quarter_turn (- (Z.of_nat j * Z.of_nat m)).
Proof.
  unfold val.twiddle. rewrite forward_sign. apply kernel_quarter.
  simpl val.dft_angle. rewrite Z.opp_involutive, mult_IZR, <- !INR_IZR_INZ.
  simpl. field.
Qed.

(** The DFT of [example_moving] zero-padded to four samples. *)
Lemma example_padded_dft (j : nat) :
  (j < 4)%nat ->
  get (val.fftn (zero_pad example_moving 2)) [j]
  = Cx.add (1, 0) (quarter_turn (- (Z.of_nat j * 3))).
Proof.
  intros Hj. unfold val.fftn.
  change (shape (zero_pad example_moving 2)) with [4%nat].
  rewrite get_build by (apply in_bounds_one; exact Hj).
  unfold csum_idx. cbn [indices flat_map map seq app Cx.sum fold_right].
  rewrite !get_zero_pad
    by (try lia; try (repeat constructor; fail);
        change (map (Nat.mul 2) (shape example_moving)) with [4%nat];
        apply in_bounds_one; lia).
  change (map (Nat.mul 2) (shape example_moving)) with [4%nat].
  change (pad_samples (shape example_moving) [4%nat] [0%nat]) with (Some [0%nat]).
  change (pad_samples (shape example_moving) [4%nat] [1%nat]) with (@None (list nat)).
  change (pad_samples (shape example_moving) [4%nat] [2%nat]) with (@None (list nat)).
  change (pad_samples (shape example_moving) [4%nat] [3%nat]) with (Some [1%nat]).
  change (get example_moving [0%nat]) with ((1, 0) : C).
  change (get example_moving [1%nat]) with ((1, 0) : C).
  rewrite !twiddle_four.
  change (- (Z.of_nat j * Z.of_nat 0))%Z with (- (Z.of_nat j * 0))%Z.
  change (Z.of_nat 3) with 3%Z.
  replace (- (Z.of_nat j * 0))%Z with 0%Z by lia.
  change (quarter_turn 0) with ((1, 0) : C).
  rewrite !Cmul_0_l, !Cadd_0_l, Cadd_0_r, !Cmul_1_l. reflexivity.
Qed.

(** C2 as stated fails: on the spectrum [[1, 1]] with
    [upsample_factor = 2], one output sample and offset [1],
    [_upsampled_dft] returns [1 - i], the entry at index [-1 = 3 mod 4]
    of the DFT of the padded spectrum, while the window starting at
    index [1] holds [1 + i]. *)
Lemma upsampled_window_does_not_start_at_axis_offsets :
  exists out,
    outcome (_upsampled_dft example_moving (inr [1%Z]) 2 (Some [1])) = inr out
    /\ flat out = [(1, -1)]
    /\ flat (padded_dft_window_at_offsets example_moving [1%nat] 2 [1%Z]) = [(1, 1)]
    /\ out <> padded_dft_window_at_offsets example_moving [1%nat] 2 [1%Z].
Proof.
  unfold padded_dft_window_at_offsets.
  pose proof (upsampled_dft_window_eq example_moving [1%Z] 2 [1%Z]
                eq_refl eq_refl ltac:(repeat constructor) ltac:(lia) eq_refl eq_refl)
    as Hrun.
  unfold padded_dft_window_before_offsets in Hrun.
  change (Z.of_nat 2) with 2%Z in Hrun. change (map IZR [1%Z]) with [1] in Hrun.
  assert (Hw : flat (periodic_window (val.fftn (zero_pad example_moving 2)) [1%Z]
                       (map Z.to_nat [1%Z])) = [(1, -1)]).
  { change (map Z.to_nat [1%Z]) with [1%nat].
    unfold periodic_window, build. cbn [flat indices flat_map seq app map].
    change (shape (val.fftn (zero_pad example_moving 2))) with [4%nat].
    cbn [combine map2 map fst snd].
    change (Z.to_nat ((Z.of_nat 0 - 1) mod Z.of_nat 4)) with 3%nat.
    rewrite example_padded_dft by lia.
    change (quarter_turn (- (Z.of_nat 3 * 3))) with ((0, -1) : C).
    f_equal. cx_unfold. simpl. f_equal; ring. }
  assert (Hs : flat (slice_from (val.fftn (zero_pad example_moving 2)) [1%Z] [1%nat])
               = [(1, 1)]).
  { unfold slice_from, build. cbn [flat indices flat_map seq app map map2 combine fst snd].
    change (Z.to_nat (1 + Z.of_nat 0)) with 1%nat.
    rewrite example_padded_dft by lia.
    change (quarter_turn (- (Z.of_nat 1 * 3))) with ((0, 1) : C).
    f_equal. cx_unfold. simpl. f_equal; ring. }
  eexists. split; [rewrite Hrun; reflexivity |].
  split; [exact Hw |]. split; [exact Hs |].
  intros E. apply (f_equal flat) in E. rewrite Hw, Hs in E.
  injection E as E. lra.
Qed.


(** ** The global phase and the error *)

Lemma sqrt_sq_pos (x y : R) : 0 < x -> sqrt (x * x + y * y) = x * sqrt (1 + (y / x)²).
Proof.
  intros Hx. rewrite <- (sqrt_square x) at 3 by lra.
  rewrite <- sqrt_mult by (try nra; unfold Rsqr; nra).
  f_equal. unfold Rsqr. field. lra.
Qed.

Lemma sqrt_sq_neg (x y : R) : x < 0 -> sqrt (x * x + y * y) = - x * sqrt (1 + (y / x)²).
Proof.
  intros Hx. rewrite <- (sqrt_square (- x)) at 1 by lra.
  rewrite <- sqrt_mult by (try nra; unfold Rsqr; nra).
  f_equal. unfold Rsqr. field. lra.
Qed.

Lemma sqrt_one_plus_sq_pos (t : R) : 0 < sqrt (1 + t²).
Proof. apply sqrt_lt_R0. unfold Rsqr. nra. Qed.

Lemma atan_pos (t : R) : 0 < t -> 0 < atan t.
Proof. intros H. rewrite <- atan_0. now apply atan_increasing. Qed.

Lemma atan_nonpos (t : R) : t <= 0 -> atan t <= 0.
Proof.
  intros [H | ->]; [| rewrite atan_0; lra].
  left. rewrite <- atan_0. now apply atan_increasing.
Qed.

Lemma arctan2_polar (y x : R) :
  - PI < arctan2 y x <= PI
  /\ x = sqrt (x * x + y * y) * cos (arctan2 y x)
  /\ y = sqrt (x * x + y * y) * sin (arctan2 y x).
Proof.
  pose proof PI_RGT_0 as Hpi.
  unfold arctan2.
  destruct (Rlt_dec 0 x) as [Hx | Hx].
  - pose proof (atan_bound (y / x)) as Hb.
    pose proof (sqrt_one_plus_sq_pos (y / x)) as Hs.
    rewrite cos_atan, sin_atan, (sqrt_sq_pos x y Hx).
    split; [lra |]. split; field; lra.
  - destruct (Rlt_dec x 0) as [Hx' | Hx'].
    + pose proof (atan_bound (y / x)) as Hb.
      pose proof (sqrt_one_plus_sq_pos (y / x)) as Hs.
      destruct (Rle_dec 0 y) as [Hy | Hy].
      * assert (Ht : y / x <= 0).
        { unfold Rdiv. assert (/ x < 0) by now apply Rinv_lt_0_compat. nra. }
        pose proof (atan_nonpos _ Ht) as Ha.
        rewrite neg_cos, neg_sin, cos_atan, sin_atan, (sqrt_sq_neg x y Hx').
        split; [lra |]. split; field; lra.
      * assert (Ht : 0 < y / x).
        { unfold Rdiv. assert (/ x < 0) by now apply Rinv_lt_0_compat. nra. }
        pose proof (atan_pos _ Ht) as Ha.
        replace (atan (y / x) - PI) with (- (PI - atan (y / x))) by ring.
        rewrite cos_neg, sin_neg.
        replace (PI - atan (y / x)) with (- atan (y / x) + PI) by ring.
        rewrite neg_cos, neg_sin, cos_neg, sin_neg, cos_atan, sin_atan,
          (sqrt_sq_neg x y Hx').
        split; [lra |]. split; field; lra.
    + assert (E : x = 0) by lra. subst x.
      replace (0 * 0 + y * y) with (y * y) by ring.
      destruct (Rlt_dec 0 y) as [Hy | Hy].
      * rewrite cos_PI2, sin_PI2, sqrt_square by lra.
        split; [lra |]. split; ring.
      * destruct (Rlt_dec y 0) as [Hy' | Hy'].
        -- rewrite cos_neg, sin_neg, cos_PI2, sin_PI2.
           replace (y * y) with (- y * - y) by ring.
           rewrite sqrt_square by lra. split; [lra |]. split; ring.
        -- assert (E : y = 0) by lra. subst y.
           rewrite Rmult_0_l, sqrt_0. split; [lra |]. split; ring.
Qed.

Lemma arctan2_lt_PI (y x : R) : ~ (y = 0 /\ x <= 0) -> arctan2 y x < PI.
Proof.
  intros H. pose proof PI_RGT_0 as Hpi. unfold arctan2.
  pose proof (atan_bound (y / x)) as Hb.
  destruct (Rlt_dec 0 x) as [Hx | Hx]; [lra |].
  destruct (Rlt_dec x 0) as [Hx' | Hx'].
  - destruct (Rle_dec 0 y) as [Hy | Hy]; [| lra].
    assert (Hy' : 0 < y) by (destruct Hy as [Hy | Hy]; [exact Hy | exfalso; apply H; lra]).
    assert (Ht : y / x < 0).
    { unfold Rdiv. assert (/ x < 0) by now apply Rinv_lt_0_compat. nra. }
    assert (atan (y / x) < 0) by (rewrite <- atan_0; now apply atan_increasing).
    lra.
  - destruct (Rlt_dec 0 y); [lra |]. destruct (Rlt_dec y 0); lra.
Qed.

(** Away from the negative real axis and the origin, where the engine
    answers by the signs of the floating-point zeros, [_compute_phasediff]
    returns the argument of the cross-correlation maximum: the angle in
    [(-pi, pi)] whose unit phase factor, scaled by the magnitude of the
    maximum, gives the maximum back. *)
Theorem phasediff_is_argument_of_maximum (cross_correlation_max : C) :
  ~ (Cx.im cross_correlation_max = 0 /\ Cx.re cross_correlation_max <= 0) ->
  let phasediff := _compute_phasediff cross_correlation_max in
  - PI < phasediff < PI
  /\ cross_correlation_max
     = Cx.mul (Cx.of_R (Cx.abs cross_correlation_max)) (cos phasediff, sin phasediff).
Proof.
  destruct cross_correlation_max as [x y]. intros Hz. cbv zeta.
  unfold _compute_phasediff, Cx.abs, Cx.mul, Cx.of_R, Cx.re, Cx.im in *.
  cbn [fst snd] in *.
  destruct (arctan2_polar y x) as (Hr & Hx & Hy).
  pose proof (arctan2_lt_PI y x Hz) as Hlt.
  split; [lra |].
  f_equal; [rewrite Hx at 1 | rewrite Hy at 1]; ring.
Qed.

Lemma phasediff_is_argument_of_maximum_witness :
  - PI < _compute_phasediff (0, 2) < PI
  /\ (0, 2)
     = Cx.mul (Cx.of_R (Cx.abs (0, 2)))
         (cos (_compute_phasediff (0, 2)), sin (_compute_phasediff (0, 2))).
Proof.
  apply (phasediff_is_argument_of_maximum (0, 2)).
  unfold Cx.im, Cx.re. cbn [fst snd]. lra.
Defined.

Lemma compute_error_formula (z : C) (src_amp target_amp : R) :
  _compute_error z src_amp target_amp
  = sqrt (Rabs (1 - (Cx.abs z)² / (src_amp * target_amp))).
Proof.
  destruct z as [x y].
  unfold _compute_error, Cx.abs, Cx.sub, Cx.div_R, Cx.mul, Cx.conj, Cx.of_R, Cx.re, Cx.im.
  cbn [fst snd]. f_equal.
  rewrite Rsqr_sqrt by nra.
  set (q := 1 - (x * x + y * y) / (src_amp * target_amp)).
  replace (1 - (x * x - y * - y) / (src_amp * target_amp)) with q
    by (unfold q; f_equal; f_equal; ring).
  replace (0 - (x * - y + y * x) / (src_amp * target_amp)) with 0
    by (unfold Rdiv; ring).
  replace (q * q + 0 * 0) with (q²) by (unfold Rsqr; ring).
  apply sqrt_Rsqr_abs.
Qed.

(** For a nonzero amplitude product [amp = src_amp * target_amp],
    [_compute_error] returns [sqrt |1 - |CCmax|^2 / amp|]: a non-negative
    number that depends on the cross-correlation maximum only through
    its magnitude, that is zero exactly when [|CCmax|^2 = amp], and that
    is at most one when [|CCmax|^2 <= amp] and [amp] is positive. *)
Theorem error_is_normalized_residual (cross_correlation_max : C)
    (src_amp target_amp : R) :
  src_amp * target_amp <> 0 ->
  let amp := src_amp * target_amp in
  let error := _compute_error cross_correlation_max src_amp target_amp in
  error = sqrt (Rabs (1 - (Cx.abs cross_correlation_max)² / amp))
  /\ 0 <= error
  /\ (error = 0 <-> (Cx.abs cross_correlation_max)² = amp)
  /\ (0 < amp -> (Cx.abs cross_correlation_max)² <= amp -> error <= 1).
Proof.
  intros Hamp. cbv zeta. rewrite compute_error_formula.
  set (m := (Cx.abs cross_correlation_max)²).
  set (amp := src_amp * target_amp) in *.
  assert (Hm : 0 <= m) by apply Rle_0_sqr.
  clearbody m amp.
  split; [reflexivity |]. split; [apply sqrt_pos |]. split; [split |].
  - intros H. apply sqrt_eq_0 in H; [| apply Rabs_pos].
    destruct (Req_dec (1 - m / amp) 0) as [E | E].
    + apply (Rmult_eq_compat_r amp) in E. unfold Rdiv in E.
      rewrite Rmult_0_l in E.
      replace ((1 - m * / amp) * amp) with (amp - m * (/ amp * amp)) in E by ring.
      rewrite Rinv_l in E by exact Hamp. lra.
    + apply Rabs_no_R0 in E. contradiction.
  - intros ->. unfold Rdiv. rewrite Rinv_r by exact Hamp.
    replace (1 - 1) with 0 by ring. rewrite Rabs_R0. apply sqrt_0.
  - intros Hpos Hle.
    apply Rle_trans with (sqrt 1); [apply sqrt_le_1_alt | rewrite sqrt_1; lra].
    assert (0 <= m / amp <= 1).
    { split.
      - apply Rmult_le_pos; [exact Hm | left; now apply Rinv_0_lt_compat].
      - apply (Rmult_le_reg_r amp); [exact Hpos |].
        unfold Rdiv. rewrite Rmult_assoc, Rinv_l by exact Hamp. lra. }
    rewrite Rabs_pos_eq; lra.
Qed.

Lemma error_is_normalized_residual_witness :
  _compute_error (3, 4) 5 5 = 0.
Proof.
  destruct (error_is_normalized_residual (3, 4) 5 5) as (_ & _ & [_ H] & _).
  - lra.
  - apply H. unfold Cx.abs. simpl. rewrite Rsqr_sqrt by lra. lra.
Defined.

(** ** The shift on the upsampled grid *)

Lemma Rround_is_integer (x : R) : exists z : Z, Rround x = IZR z.
Proof.
  unfold Rround.
  destruct (Rlt_dec (x - IZR (Int_part x)) (1 / 2)); [eexists; reflexivity |].
  destruct (Rlt_dec (1 / 2) (x - IZR (Int_part x))); [eexists; reflexivity |].
  destruct (Z.even (Int_part x)); eexists; reflexivity.
Qed.

(** Every component of the shift returned by a valid call is an integer
    multiple of [1 / upsample_factor]. *)
Theorem shift_is_multiple_of_upsampling_step
    (reference_image moving_image : ndarray) (upsample_factor : Z) (space : string)
    (overlap_ratio : R) (normalization : option string) :
  valid_inputs reference_image moving_image -> valid_space space ->
  valid_normalization normalization -> (1 <= upsample_factor)%Z ->
  exists shift error phasediff,
    outcome (phase_cross_correlation reference_image moving_image upsample_factor
               space false None None overlap_ratio normalization)
    = inr (shift, error, phasediff)
    /\ Forall (fun s => exists z : Z, s = IZR z / IZR upsample_factor) shift.
Proof.
  intros Hv Hsp Hn Huf.
  destruct (Z.eq_dec upsample_factor 1) as [-> | Hne].
  - rewrite pcc_outcome_integer by assumption. cbv zeta.
    do 3 eexists. split; [reflexivity |].
    unfold zero_singleton. apply Forall_forall. intros s Hs.
    unfold map2 in Hs. apply in_map_iff in Hs. destruct Hs as ([d x] & <- & Hin).
    cbn [fst snd]. destruct (d =? 1)%nat.
    + exists 0%Z. lra.
    + apply in_combine_r in Hin. unfold integer_shift, map2 in Hin.
      apply in_map_iff in Hin. destruct Hin as ([n m] & <- & _). cbn [fst snd].
      destruct (wrap_is_integer n m) as [z ->]. exists z. lra.
  - assert (Hu : IZR upsample_factor <> 0) by (apply not_0_IZR; lia).
    rewrite pcc_outcome_upsampled by (try assumption; lia). cbv zeta.
    do 3 eexists. split; [reflexivity |].
    unfold zero_singleton. apply Forall_forall. intros s Hs.
    unfold map2 in Hs. apply in_map_iff in Hs. destruct Hs as ([d x] & <- & Hin).
    cbn [fst snd]. destruct (d =? 1)%nat.
    + exists 0%Z. lra.
    + apply in_combine_r in Hin. unfold refined_shift, map2 in Hin.
      apply in_map_iff in Hin. destruct Hin as ([r o] & <- & Hin). cbn [fst snd].
      pose proof (in_combine_l _ _ _ _ Hin) as Hr.
      pose proof (in_combine_r _ _ _ _ Hin) as Ho.
      unfold rounded_shift in Hr. apply in_map_iff in Hr. destruct Hr as (y & <- & _).
      apply in_map_iff in Ho. destruct Ho as (m & <- & _).
      destruct (Rround_is_integer (y * IZR upsample_factor)) as [z ->].
      exists (z + (Z.of_nat m - dftshift_of upsample_factor))%Z.
      rewrite plus_IZR, minus_IZR, <- INR_IZR_INZ. field. exact Hu.
Qed.

Lemma shift_is_multiple_of_upsampling_step_witness :
  exists shift error phasediff,
    outcome (phase_cross_correlation example_reference example_moving 20
               "fourier" false None None 0 None)
    = inr (shift, error, phasediff)
    /\ Forall (fun s => exists z : Z, s = IZR z / IZR 20) shift.
Proof.
  apply (shift_is_multiple_of_upsampling_step example_reference example_moving 20
           "fourier" 0 None).
  - exact example_valid_inputs.
  - right. reflexivity.
  - left. reflexivity.
  - lia.
Defined.

(** ** Real-space and Fourier-space calls *)

Lemma real_dtype_complex_dtype (d : scalar_type) :
  real_dtype (complex_dtype d) = real_dtype d.
Proof. now destruct d. Qed.

(** A call on images with [space] reading "real" returns what the call
    with [space] reading "fourier" returns on the DFTs of the images, or
    raises the same exception. *)
Theorem real_space_call_agrees_with_fourier_call_on_spectra
    (reference_image moving_image : ndarray) (upsample_factor : Z)
    (space space' : string) (disambiguate : bool)
    (reference_mask moving_mask : option ndarray)
    (overlap_ratio : R) (normalization : option string) :
  lower space = "real"%string -> lower space' = "fourier"%string ->
  outcome (phase_cross_correlation reference_image moving_image upsample_factor
             space disambiguate reference_mask moving_mask overlap_ratio normalization)
  = outcome (phase_cross_correlation (val.fftn reference_image)
               (val.fftn moving_image) upsample_factor space' disambiguate
               reference_mask moving_mask overlap_ratio normalization).
Proof.
  intros Hr Hf. unfold phase_cross_correlation.
  destruct (negb (is_None reference_mask) || negb (is_None moving_mask));
    [reflexivity |].
  outcome_real_parts reference_image moving_image.
  outcome_real_parts (val.fftn reference_image) (val.fftn moving_image).
  unfold shape_error_message.
  change (shape (val.fftn reference_image)) with (shape reference_image).
  change (shape (val.fftn moving_image)) with (shape moving_image).
  destruct (list_eq_dec Nat.eq_dec (shape reference_image) (shape moving_image));
    cbn [negb]; [| reflexivity].
  rewrite Hr, Hf.
  change ("real" =? "fourier")%string with false.
  change ("real" =? "real")%string with true.
  change ("fourier" =? "fourier")%string with true.
  cbv iota. unfold jnp.fftn, jnp.asarray.
  rewrite !bind_assoc, outcome_bind_perform.
  rewrite !bind_assoc, outcome_bind_perform.
  rewrite !bind_ret_l.
  change (dtype (val.fftn reference_image)) with (complex_dtype (dtype reference_image)).
  change (dtype (val.fftn moving_image)) with (complex_dtype (dtype moving_image)).
  rewrite !real_dtype_complex_dtype.
  reflexivity.
Qed.

Lemma real_space_call_agrees_with_fourier_call_on_spectra_witness :
  outcome (phase_cross_correlation example_reference example_moving 20
             "Real" false None None 0 (Some "phase"%string))
  = outcome (phase_cross_correlation (val.fftn example_reference)
               (val.fftn example_moving) 20 "FOURIER" false None None 0
               (Some "phase"%string)).
Proof.
  apply real_space_call_agrees_with_fourier_call_on_spectra; reflexivity.
Defined.

(** ** A non-positive upsampling factor *)

Lemma outcome_bind_raise {A B} (m : M A) (t : list numeric_op) (e : exn)
    (f : A -> M B) :
  m = (t, inl e) -> outcome (bind m f) = inl e.
Proof. intros ->. reflexivity. Qed.

Lemma argmax_abs_empty (a : ndarray) :
  flat a = [] ->
  argmax_abs a
  = ([op_abs], inl (ValueError "attempt to get argmax of an empty sequence")).
Proof.
  intros H. unfold argmax_abs, jnp.abs, jnp.argmax, val.abs, map_arr.
  cbn [flat perform bind]. rewrite H. reflexivity.
Qed.

(** A call with [upsample_factor <= 0] passes every argument check; the
    upsampled patch it then asks for has no sample, and the call raises
    the invalid-argument error of [argmax] on an empty array, after the
    cross-correlation has been computed and whatever [disambiguate] is. *)
Theorem nonpositive_upsample_factor_fails_at_patch_maximum
    (reference_image moving_image : ndarray) (upsample_factor : Z) (space : string)
    (disambiguate : bool) (overlap_ratio : R) (normalization : option string) :
  valid_inputs reference_image moving_image ->
  (0 < ndim reference_image)%nat ->
  valid_space space -> valid_normalization normalization ->
  (upsample_factor <= 0)%Z ->
  outcome (phase_cross_correlation reference_image moving_image upsample_factor
             space disambiguate None None overlap_ratio normalization)
  = inl (ValueError "attempt to get argmax of an empty sequence").
Proof.
  intros Hv Hnd Hsp Hn Huf. pose proof Hv as (Hwr & Hwm & Hsh & Hpos).
  destruct (refinement_patch_run reference_image moving_image space normalization
              upsample_factor Hv) as (out & Hrun & Hso & Hwfo).
  assert (Hempty : flat (val.conj out) = []).
  { unfold val.conj, map_arr. cbn [flat].
    assert (Hl : length (flat out) = 0%nat).
    { unfold wf in Hwfo. rewrite Hwfo, Hso.
      replace (Z.to_nat (upsampled_region_size_of upsample_factor)) with 0%nat.
      - unfold ndim in Hnd. destruct (length (shape reference_image)); [lia | reflexivity].
      - rewrite upsampled_region_size_closed.
        assert ((3 * upsample_factor + 1) / 2 <= 0)%Z
          by (apply Z.lt_succ_r, Z.div_lt_upper_bound; lia).
        lia. }
    destruct (flat out); [reflexivity | discriminate Hl]. }
  unfold phase_cross_correlation. cbn [is_None negb orb].
  outcome_real_parts reference_image moving_image.
  destruct (list_eq_dec Nat.eq_dec (shape reference_image) (shape moving_image))
    as [_ | Hne]; [| contradiction].
  cbn [negb].
  pose proof (normalization_run reference_image moving_image space normalization Hn)
    as Hnr.
  rewrite (outcome_bind_eq _ _ _ _
             (frequencies_run space reference_image moving_image Hsp)).
  cbn [fst snd].
  unfold jnp.conj, jnp.multiply, jnp.abs, jnp.maximum, jnp.divide, jnp.ifftn in *.
  do 2 run_step.
  rewrite (outcome_bind_eq _ _ _ _ Hnr).
  run_step. fold (cross_correlation_of reference_image moving_image space normalization).
  rewrite (outcome_bind_eq _ _ _ _
             (argmax_abs_run _ (cross_correlation_nonempty reference_image
                                  moving_image space normalization Hpos))).
  replace (upsample_factor =? 1)%Z with false by (symmetry; apply Z.eqb_neq; lia).
  do 2 run_step.
  rewrite where_integer_shift, map2_swap, !shape_to_freq.
  fold (integer_shift (shape reference_image)
          (peak (cross_correlation_of reference_image moving_image space normalization))).
  change (Qceiling (inject_Z upsample_factor * (3 # 2)))
    with (upsampled_region_size_of upsample_factor).
  change (Qfloor (inject_Z (upsampled_region_size_of upsample_factor) / 2))
    with (dftshift_of upsample_factor).
  fold (rounded_shift upsample_factor
          (integer_shift (shape reference_image)
             (peak (cross_correlation_of reference_image moving_image space
                      normalization)))).
  fold (sample_region_offset_of upsample_factor
          (rounded_shift upsample_factor
             (integer_shift (shape reference_image)
                (peak (cross_correlation_of reference_image moving_image space
                         normalization))))).
  change (val.ifftn (image_product_of reference_image moving_image space normalization))
    with (cross_correlation_of reference_image moving_image space normalization) in Hrun.
  rewrite !bind_assoc.
  rewrite (outcome_bind_eq _ _ _ _ Hrun), !bind_assoc.
  run_step. rewrite !bind_assoc.
  apply (outcome_bind_raise _ _ _ _ (argmax_abs_empty _ Hempty)).
Qed.

Lemma nonpositive_upsample_factor_fails_at_patch_maximum_witness :
  outcome (phase_cross_correlation example_reference example_moving 0
             "fourier" true None None 0 None)
  = inl (ValueError "attempt to get argmax of an empty sequence").
Proof.
  apply nonpositive_upsample_factor_fails_at_patch_maximum.
  - exact example_valid_inputs.
  - unfold ndim. simpl. lia.
  - right. reflexivity.
  - left. reflexivity.
  - lia.
Defined.

(** ** [_upsampled_dft] without upsampling *)

Lemma fftfreq_index_mod (n m : nat) :
  (m < n)%nat ->
  exists e : Z, jnp.fftfreq_index n m = (Z.of_nat m + Z.of_nat n * e)%Z.
Proof.
  intros _. unfold jnp.fftfreq_index. destruct (m <=? (n - 1) / 2)%nat.
  - exists 0%Z. lia.
  - exists (-1)%Z. lia.
Qed.

Lemma kernel_entry_unit (n k m : nat) :
  (m < n)%nat ->
  kernel_entry 1 n 0 k m
  = Cx.exp (Cx.mul (Cx.opp jnp.im2pi) (Cx.of_R (INR k * INR m / INR n))).
Proof.
  intros Hm. unfold kernel_entry.
  destruct (fftfreq_index_mod n m Hm) as [e ->].
  apply (Cexp_im2pi_period _ _ (Z.of_nat k * e)).
  rewrite plus_IZR, !mult_IZR, <- !INR_IZR_INZ.
  assert (INR n <> 0) by (apply not_0_INR; lia).
  field. assumption.
Qed.

Lemma kernel_prod_unit (s : list nat) :
  forall (szs : list Z) (ks ns : list nat),
    length szs = length s -> length ks = length s -> in_bounds ns s ->
    kernel_prod 1 (combine s (combine szs (repeat 0 (length s)))) ks ns
    = val.twiddle (Cx.opp Cx.one) s ks ns.
Proof.
  unfold val.twiddle. rewrite forward_sign.
  induction s as [| n s IH]; intros szs ks ns Hs Hk Hn.
  - simpl. symmetry. apply Cexp_scaled_0.
  - destruct szs as [| sz szs], ks as [| k ks]; try discriminate.
    inversion Hn as [| m n' ns' s' Hm Hn']; subst.
    simpl in Hs, Hk.
    cbn [length repeat combine kernel_prod val.dft_angle].
    rewrite Cexp_scaled_add, (IH szs ks ns') by (try lia; assumption).
    f_equal. now apply kernel_entry_unit.
Qed.

Lemma map_to_nat_of_nat (s : list nat) : map Z.to_nat (map Z.of_nat s) = s.
Proof.
  rewrite map_map. rewrite <- (map_id s) at 2. apply map_ext. apply Nat2Z.id.
Qed.

(** With [upsample_factor = 1], the region of the size of the data and
    no offsets, [_upsampled_dft] computes the DFT of complex data over
    all its axes. *)
Theorem upsampled_dft_of_full_region_is_fftn (data : ndarray) :
  wf data -> is_complex (dtype data) = true ->
  _upsampled_dft data (inr (map Z.of_nat (shape data))) 1 None
  = (concat (repeat [op_exp; op_tensordot] (ndim data)), inr (val.fftn data)).
Proof.
  intros Hwf Hc.
  assert (Hl : lengths_match data (inr (map Z.of_nat (shape data))) None).
  { split; cbn [region_sizes offsets]; [apply length_map | apply repeat_length]. }
  destruct (upsampled_dft_run data (inr (map Z.of_nat (shape data))) 1 None Hwf Hl)
    as (out & Hrun & Hsh & Hdt & Hwfo & Hget).
  cbn [region_sizes] in Hsh, Hget. rewrite map_to_nat_of_nat in Hsh, Hget.
  rewrite Hrun. f_equal. f_equal.
  destruct out as [s d f]. unfold val.fftn, build. cbn [shape dtype flat] in *.
  subst s. f_equal.
  - rewrite Hdt. symmetry. now apply dtype_complex_dtype.
  - change f with (flat {| shape := shape data; dtype := d; flat := f |}).
    rewrite (flat_as_gets _ Hwfo). cbn [shape].
    apply map_ext_in. intros ks Hks. apply in_indices in Hks.
    rewrite (Hget ks Hks). apply csum_idx_ext. intros ns Hns.
    rewrite cast_kernel_prod_complex by exact Hc.
    unfold dim_properties. cbn [region_sizes offsets]. unfold ndim.
    rewrite kernel_prod_unit;
      [apply Cmul_comm | apply length_map | now apply in_bounds_length | exact Hns].
Qed.

Lemma upsampled_dft_of_full_region_is_fftn_witness :
  _upsampled_dft example_column (inr [2; 1]%Z) 1 None
  = ([op_exp; op_tensordot; op_exp; op_tensordot], inr (val.fftn example_column)).
Proof.
  apply (upsampled_dft_of_full_region_is_fftn example_column); reflexivity.
Defined.

(** ** Periodicity of [_upsampled_dft] in the offsets *)

Lemma kernel_entry_period (uf : Z) (n : nat) (o : R) (t : Z) (k m : nat) :
  uf <> 0%Z -> (m < n)%nat ->
  kernel_entry uf n (o + IZR t * (IZR uf * INR n)) k m = kernel_entry uf n o k m.
Proof.
  intros Hu Hm. unfold kernel_entry.
  apply (Cexp_im2pi_period _ _ (- (t * jnp.fftfreq_index n m))).
  rewrite opp_IZR, mult_IZR.
  assert (INR n <> 0) by (apply not_0_INR; lia).
  assert (IZR uf <> 0) by now apply not_0_IZR.
  field. split; assumption.
Qed.

Lemma contract_axis_period (uf : Z) (n : nat) (sz : Z) (o : R) (t : Z) (data : ndarray) :
  uf <> 0%Z ->
  contract_axis uf (n, (sz, o + IZR t * (IZR uf * INR n))) data
  = contract_axis uf (n, (sz, o)) data.
Proof.
  intros Hu. unfold contract_axis. f_equal.
  apply FunctionalExtensionality.functional_extensionality. intros _.
  f_equal. unfold matrix. f_equal.
  apply flat_map_ext. intros k. apply map_ext_in. intros m Hm.
  apply in_seq in Hm. rewrite kernel_entry_period by (try assumption; lia).
  reflexivity.
Qed.

Lemma for_each_ext {A S} (body body' : A -> S -> M S) (l l' : list A) :
  Forall2 (fun x x' => forall s, body x s = body' x' s) l l' ->
  forall s, for_each l body s = for_each l' body' s.
Proof.
  induction 1 as [| x x' l l' Hx _ IH]; intros s; simpl; [reflexivity |].
  rewrite Hx. destruct (body' x' s) as [t [e | s']]; simpl; [reflexivity |].
  now rewrite IH.
Qed.

Lemma Forall2_rev_both {A B} (P : A -> B -> Prop) (l : list A) (l' : list B) :
  Forall2 P l l' -> Forall2 P (rev l) (rev l').
Proof.
  induction 1; simpl; [constructor |].
  apply Forall2_app; [assumption | repeat constructor; assumption].
Qed.

(** The result of [_upsampled_dft] does not change when an axis offset
    is moved by a whole number of periods [upsample_factor * shape] of
    the upsampled grid. *)
Theorem upsampled_dft_is_periodic_in_offsets
    (data : ndarray) (upsampled_region_size : Z + list Z) (upsample_factor : Z)
    (axis_offsets : list R) (periods : list Z) :
  upsample_factor <> 0%Z ->
  length axis_offsets = ndim data -> length periods = ndim data ->
  _upsampled_dft data upsampled_region_size upsample_factor
    (Some (offsets_moved_by_periods data upsample_factor axis_offsets periods))
  = _upsampled_dft data upsampled_region_size upsample_factor (Some axis_offsets).
Proof.
  intros Hu Ho Hp. unfold _upsampled_dft.
  destruct upsampled_region_size as [n | l].
  2: destruct (negb (length l =? ndim data)%nat); [reflexivity |].
  all: rewrite !bind_ret_l.
  all: assert (Hl : length (offsets_moved_by_periods data upsample_factor
                              axis_offsets periods) = ndim data)
         by (unfold offsets_moved_by_periods; rewrite length_map2, length_combine;
             unfold ndim in *; lia).
  all: rewrite Hl, Ho, Nat.eqb_refl; cbn [negb]; rewrite !bind_ret_l.
  all: rewrite !upsampled_loop_contracts.
  all: apply for_each_ext, Forall2_rev_both.
  all: unfold offsets_moved_by_periods, ndim in *.
  all: match goal with
       | |- Forall2 _ (combine _ (combine ?rs _)) _ => generalize rs
       end.
  all: clear Hl; revert axis_offsets periods Ho Hp.
  all: induction (shape data) as [| d s IH]; intros [| o os] [| t ts] Ho Hp rs;
         try discriminate; simpl; [constructor |].
  all: destruct rs as [| r rs]; simpl; [constructor |].
  all: unfold map2; simpl; constructor;
         [intros x; now apply contract_axis_period
         | apply IH; simpl in *; lia].
Qed.

Lemma upsampled_dft_is_periodic_in_offsets_witness :
  _upsampled_dft example_moving (inl 3%Z) 2 (Some [1 / 2 + IZR (-1) * (IZR 2 * INR 2)])
  = _upsampled_dft example_moving (inl 3%Z) 2 (Some [1 / 2]).
Proof.
  apply (upsampled_dft_is_periodic_in_offsets example_moving (inl 3%Z) 2 [1 / 2]
           [(-1)%Z]).
  - discriminate.
  - reflexivity.
  - reflexivity.
Defined.

(** ** Magnitudes of sums *)

Lemma norm_sq_nonneg (z : C) : 0 <= norm_sq z.
Proof. unfold norm_sq. nra. Qed.

Lemma Cabs_norm_sq (z : C) : Cx.abs z = sqrt (norm_sq z).
Proof. reflexivity. Qed.

Lemma Cabs_sq (z : C) : (Cx.abs z)² = norm_sq z.
Proof. unfold Cx.abs. apply Rsqr_sqrt. apply norm_sq_nonneg. Qed.

Lemma Cabs_nonneg (z : C) : 0 <= Cx.abs z.
Proof. apply sqrt_pos. Qed.

Lemma Cabs_triangle (a b : C) : Cx.abs (Cx.add a b) <= Cx.abs a + Cx.abs b.
Proof.
  destruct a as [a1 a2], b as [b1 b2]. unfold Cx.abs, Cx.add, Cx.re, Cx.im. cbn [fst snd].
  set (P := a1 * a1 + a2 * a2). set (Q := b1 * b1 + b2 * b2).
  assert (HP : 0 <= P) by (unfold P; nra).
  assert (HQ : 0 <= Q) by (unfold Q; nra).
  pose proof (sqrt_pos P) as HsP. pose proof (sqrt_pos Q) as HsQ.
  pose proof (sqrt_cauchy a1 a2 b1 b2) as Hc. unfold Rsqr in Hc. fold P Q in Hc.
  rewrite <- (sqrt_square (sqrt P + sqrt Q)) by lra.
  apply sqrt_le_1_alt.
  pose proof (sqrt_sqrt P HP). pose proof (sqrt_sqrt Q HQ).
  unfold P, Q in *. nra.
Qed.

Lemma Cabs_zero : Cx.abs Cx.zero = 0.
Proof.
  unfold Cx.abs, Cx.zero, Cx.re, Cx.im. cbn [fst snd].
  replace (0 * 0 + 0 * 0) with 0 by ring. apply sqrt_0.
Qed.

Lemma Cabs_sum_le {A} (f : A -> C) (l : list A) :
  Cx.abs (Cx.sum (map f l)) <= Rsum (map (fun x => Cx.abs (f x)) l).
Proof.
  induction l as [| x l IH]; simpl.
  - rewrite Cabs_zero. lra.
  - eapply Rle_trans; [apply Cabs_triangle |]. lra.
Qed.

Lemma Csum_perm (l l' : list C) : Permutation l l' -> Cx.sum l = Cx.sum l'.
Proof.
  induction 1; simpl.
  - reflexivity.
  - now rewrite IHPermutation.
  - rewrite !Cadd_assoc. f_equal. apply Cadd_comm.
  - congruence.
Qed.

Lemma Rsum_perm (l l' : list R) : Permutation l l' -> Rsum l = Rsum l'.
Proof.
  induction 1; simpl; lra.
Qed.

Lemma two_elements_first {A} (x y : A) (l : list A) :
  In x l -> In y l -> x <> y -> exists r, Permutation l (x :: y :: r).
Proof.
  intros Hx Hy Hne.
  destruct (in_split _ _ Hx) as (l1 & l2 & ->).
  assert (Hp : Permutation (l1 ++ x :: l2) (x :: l1 ++ l2))
    by (symmetry; apply Permutation_middle).
  assert (Hy' : In y (l1 ++ l2)).
  { apply (Permutation_in _ Hp) in Hy. destruct Hy as [E | Hy]; [congruence | exact Hy]. }
  destruct (in_split _ _ Hy') as (m1 & m2 & E).
  exists (m1 ++ m2). rewrite Hp, E. constructor. symmetry. apply Permutation_middle.
Qed.

(** The magnitude of a sum is below the sum of the magnitudes as soon as
    two of the terms are not aligned. *)
Lemma Cabs_sum_lt {A} (f : A -> C) (l : list A) (x y : A) :
  In x l -> In y l -> x <> y ->
  Cx.abs (Cx.add (f x) (f y)) < Cx.abs (f x) + Cx.abs (f y) ->
  Cx.abs (Cx.sum (map f l)) < Rsum (map (fun x => Cx.abs (f x)) l).
Proof.
  intros Hx Hy Hne Hlt.
  destruct (two_elements_first x y l Hx Hy Hne) as [r Hp].
  rewrite (Csum_perm _ _ (Permutation_map f Hp)).
  rewrite (Rsum_perm _ _ (Permutation_map (fun x => Cx.abs (f x)) Hp)).
  simpl. rewrite Cadd_assoc.
  eapply Rle_lt_trans; [apply Cabs_triangle |].
  pose proof (Cabs_sum_le f r). lra.
Qed.

Lemma unit_phase_norm (x : R) : norm_sq (unit_phase x) = 1.
Proof.
  unfold norm_sq, unit_phase, Cx.re, Cx.im. cbn [fst snd].
  pose proof (sin2_cos2 (2 * PI * x)) as H. unfold Rsqr in H. lra.
Qed.

Lemma Cabs_scaled_phase (a x : R) :
  0 <= a -> Cx.abs (Cx.mul (Cx.of_R a) (unit_phase x)) = a.
Proof.
  intros Ha. unfold Cx.abs, Cx.mul, Cx.of_R, unit_phase, Cx.re, Cx.im. cbn [fst snd].
  pose proof (sin2_cos2 (2 * PI * x)) as H. unfold Rsqr in H.
  set (c := cos (2 * PI * x)) in *. set (s := sin (2 * PI * x)) in *.
  replace ((a * c - 0 * s) * (a * c - 0 * s) + (a * s + 0 * c) * (a * s + 0 * c))
    with (a * a * (s * s + c * c)) by ring.
  rewrite H, Rmult_1_r. now apply sqrt_square.
Qed.

Lemma Csum_of_R {A} (a : A -> R) (l : list A) :
  Cx.sum (map (fun k => Cx.of_R (a k)) l) = Cx.of_R (Rsum (map a l)).
Proof.
  induction l as [| x l IH]; simpl; [reflexivity |].
  rewrite IH. unfold Cx.add, Cx.of_R, Cx.re, Cx.im. cbn [fst snd]. f_equal. ring.
Qed.

Lemma unit_phase_integer (z : Z) : unit_phase (IZR z) = Cx.one.
Proof.
  unfold unit_phase, Cx.one.
  replace (IZR z) with (0 + IZR z) by ring.
  rewrite cos_2PI_Z, sin_2PI_Z, Rmult_0_r, cos_0, sin_0. reflexivity.
Qed.

(** [cos (2 pi p / n) < 1] unless [n] divides [p]. *)
Lemma cos_turn_lt_1 (p n : nat) :
  (0 < n)%nat -> (p mod n <> 0)%nat -> cos (2 * PI * (INR p / INR n)) < 1.
Proof.
  intros Hn Hp.
  pose proof (Nat.div_mod_eq p n) as E.
  pose proof (Nat.mod_upper_bound p n ltac:(lia)) as Hr.
  set (q := (p / n)%nat) in *. set (r := (p mod n)%nat) in *.
  assert (Hn0 : 0 < INR n) by (apply lt_0_INR; lia).
  assert (Ex : INR p / INR n = INR r / INR n + IZR (Z.of_nat q)).
  { rewrite E, plus_INR, mult_INR, <- INR_IZR_INZ. field. lra. }
  rewrite Ex, cos_2PI_Z.
  replace (2 * PI * (INR r / INR n)) with (2 * (PI * (INR r / INR n))) by ring.
  rewrite cos_2a_sin.
  assert (H0 : 0 < INR r / INR n < 1).
  { assert (0 < INR r) by (apply lt_0_INR; lia).
    assert (INR r < INR n) by (apply lt_INR; lia).
    split.
    - now apply Rdiv_lt_0_compat.
    - apply (Rmult_lt_reg_r (INR n)); [exact Hn0 |].
      unfold Rdiv. rewrite Rmult_assoc, Rinv_l by lra. lra. }
  pose proof PI_RGT_0 as Hpi.
  assert (Hs : 0 < sin (PI * (INR r / INR n))).
  { apply sin_gt_0; nra. }
  nra.
Qed.

(** Two positive multiples of unit phases that are not aligned. *)
Lemma Cabs_pair_lt (a b x : R) :
  0 < a -> 0 < b -> cos (2 * PI * x) < 1 ->
  Cx.abs (Cx.add (Cx.of_R a) (Cx.mul (Cx.of_R b) (unit_phase x))) < a + b.
Proof.
  intros Ha Hb Hc.
  unfold Cx.abs, Cx.add, Cx.mul, Cx.of_R, unit_phase, Cx.re, Cx.im. cbn [fst snd].
  pose proof (sin2_cos2 (2 * PI * x)) as H. unfold Rsqr in H.
  set (c := cos (2 * PI * x)) in *. set (s := sin (2 * PI * x)) in *.
  clearbody c s.
  rewrite <- (sqrt_square (a + b)) by lra.
  assert (Hab : 0 < a * b) by now apply Rmult_lt_0_compat.
  assert (Habc : 0 < a * b * (1 - c)) by (apply Rmult_lt_0_compat; lra).
  replace ((a + (b * c - 0 * s)) * (a + (b * c - 0 * s))
           + (0 + (b * s + 0 * c)) * (0 + (b * s + 0 * c)))
    with (a * a + 2 * (a * b) * c + b * b * (s * s + c * c)) by ring.
  rewrite H.
  apply sqrt_lt_1_alt. split.
  - pose proof (Rle_0_sqr (a + b * c)) as H1. pose proof (Rle_0_sqr (b * s)) as H2.
    unfold Rsqr in H1, H2.
    replace (a * a + 2 * (a * b) * c + b * b * 1)
      with ((a + b * c) * (a + b * c) + (b * s) * (b * s) + b * b * (1 - (s * s + c * c)))
      by ring.
    rewrite H. lra.
  - lra.
Qed.

(** ** Elements of arrays computed elementwise *)

Lemma get_map_arr (d : scalar_type) (f : C -> C) (a : ndarray) (idx : list nat) :
  wf a -> in_bounds idx (shape a) -> get (map_arr d f a) idx = f (get a idx).
Proof.
  intros Hwf Hidx. unfold get, map_arr. cbn [shape flat].
  apply nth_map_in_range.
  pose proof (ravel_lt _ _ Hidx) as Hr. unfold wf in Hwf.
  eapply Nat.lt_le_trans; [exact Hr |]. apply Nat.eq_le_incl. symmetry. exact Hwf.
Qed.

Lemma get_zip_arr (d : scalar_type) (f : C -> C -> C) (a b : ndarray) (idx : list nat) :
  wf a -> wf b -> shape a = shape b -> in_bounds idx (shape a) ->
  get (zip_arr d f a b) idx = f (get a idx) (get b idx).
Proof.
  intros Hwa Hwb Hs Hidx. unfold get, zip_arr. cbn [shape flat].
  pose proof (ravel_lt _ _ Hidx) as Hr. unfold wf in Hwa, Hwb.
  assert (Hla : (ravel (shape a) idx < length (flat a))%nat).
  { eapply Nat.lt_le_trans; [exact Hr |]. apply Nat.eq_le_incl. symmetry. exact Hwa. }
  assert (Hlab : length (flat a) = length (flat b)).
  { transitivity (prod (shape a)); [exact Hwa |]. rewrite Hs. symmetry. exact Hwb. }
  rewrite (nth_map_in_range _ _ _ (Cx.zero, Cx.zero))
    by (rewrite length_combine, <- Hlab, Nat.min_id; exact Hla).
  rewrite combine_nth by exact Hlab. cbn [fst snd]. now rewrite <- Hs.
Qed.

Lemma wf_map_arr (d : scalar_type) (f : C -> C) (a : ndarray) : wf a -> wf (map_arr d f a).
Proof. unfold wf, map_arr. cbn [flat shape]. now rewrite length_map. Qed.

Lemma wf_zip_arr (d : scalar_type) (f : C -> C -> C) (a b : ndarray) :
  wf a -> wf b -> shape a = shape b -> wf (zip_arr d f a b).
Proof.
  unfold wf, zip_arr. cbn [flat shape]. intros Ha Hb Hs.
  rewrite length_map, length_combine, Ha, Hb, Hs. apply Nat.min_id.
Qed.

(** The cross-power spectrum, element by element. *)
Lemma get_image_product (ref mov : ndarray) (space : string) (norm : option string)
    (k : list nat) :
  valid_inputs ref mov -> in_bounds k (shape ref) ->
  get (image_product_of ref mov space norm) k
  = normalize norm (100 * finfo_eps (float_dtype_of ref mov))
      (Cx.mul (get (to_freq space ref) k) (Cx.conj (get (to_freq space mov) k))).
Proof.
  intros (Hwr & Hwm & Hsh & Hpos) Hk.
  pose proof (wf_to_freq space _ Hwr) as HwF.
  pose proof (wf_to_freq space _ Hwm) as HwG.
  pose proof (shape_to_freq space ref) as HsF.
  pose proof (shape_to_freq space mov) as HsG.
  set (F := to_freq space ref) in *. set (G := to_freq space mov) in *.
  assert (HkF : in_bounds k (shape F)) by now rewrite HsF.
  assert (HkG : in_bounds k (shape G)) by now rewrite HsG, <- Hsh.
  assert (Hip : get (val.multiply F (val.conj G)) k
                = Cx.mul (get F k) (Cx.conj (get G k))).
  { unfold val.multiply, val.conj.
    rewrite get_zip_arr, get_map_arr; try assumption.
    - reflexivity.
    - now apply wf_map_arr.
    - cbn [shape map_arr]. congruence. }
  unfold image_product_of. fold F G. destruct norm as [n |]; cbn [normalize];
    [| exact Hip].
  assert (Hwip : wf (val.multiply F (val.conj G))).
  { unfold val.multiply, val.conj. apply wf_zip_arr; [assumption | now apply wf_map_arr |].
    cbn [shape map_arr]. congruence. }
  unfold val.divide, val.maximum, val.abs.
  rewrite get_zip_arr, !get_map_arr; try assumption;
    try (apply wf_map_arr; try apply wf_map_arr; assumption);
    try reflexivity.
  rewrite Hip. reflexivity.
Qed.

(** ** Phase factors of the DFT *)

Lemma twiddle_inverse_phase (s k n : list nat) :
  val.twiddle Cx.one s k n = unit_phase (val.dft_angle s k n).
Proof. unfold val.twiddle. apply phase_inverse. Qed.

Lemma twiddle_forward_phase (s k n : list nat) :
  val.twiddle (Cx.opp Cx.one) s k n = Cx.conj (unit_phase (val.dft_angle s k n)).
Proof. unfold val.twiddle. rewrite phase_forward. reflexivity. Qed.

Lemma unit_phase_add (x y : R) :
  Cx.mul (unit_phase x) (unit_phase y) = unit_phase (x + y).
Proof.
  unfold unit_phase, Cx.mul, Cx.re, Cx.im. cbn [fst snd].
  replace (2 * PI * (x + y)) with (2 * PI * x + 2 * PI * y) by ring.
  rewrite cos_plus, sin_plus. f_equal; ring.
Qed.

Lemma unit_phase_0 : unit_phase 0 = Cx.one.
Proof. unfold unit_phase. rewrite Rmult_0_r, cos_0, sin_0. reflexivity. Qed.

Lemma mul_conj_phase (z : C) (x : R) :
  Cx.mul z (Cx.conj (Cx.mul z (Cx.conj (unit_phase x))))
  = Cx.mul (Cx.of_R (norm_sq z)) (unit_phase x).
Proof.
  destruct z as [a b].
  unfold unit_phase, norm_sq, Cx.mul, Cx.conj, Cx.of_R, Cx.re, Cx.im. cbn [fst snd].
  f_equal; ring.
Qed.

Lemma normalize_scaled_phase (norm : option string) (c a x : R) :
  0 <= a ->
  normalize norm c (Cx.mul (Cx.of_R a) (unit_phase x))
  = Cx.mul (Cx.of_R (spectral_weight norm c a)) (unit_phase x).
Proof.
  intros Ha. destruct norm as [n |]; cbn [normalize spectral_weight]; [| reflexivity].
  rewrite Cabs_scaled_phase by exact Ha.
  unfold Cx.div_R, Cx.mul, Cx.of_R, unit_phase, Cx.re, Cx.im. cbn [fst snd].
  unfold Rdiv. f_equal; ring.
Qed.

Lemma spectral_weight_nonneg (norm : option string) (c a : R) :
  0 < c -> 0 <= a -> 0 <= spectral_weight norm c a.
Proof.
  intros Hc Ha. destruct norm; cbn [spectral_weight]; [| exact Ha].
  apply Rmult_le_pos; [exact Ha |]. left. apply Rinv_0_lt_compat.
  pose proof (Rmax_r a c). lra.
Qed.

Lemma spectral_weight_pos (norm : option string) (c a : R) :
  0 < c -> 0 < a -> 0 < spectral_weight norm c a.
Proof.
  intros Hc Ha. destruct norm; cbn [spectral_weight]; [| exact Ha].
  apply Rmult_lt_0_compat; [exact Ha |]. apply Rinv_0_lt_compat.
  pose proof (Rmax_r a c). lra.
Qed.

Lemma finfo_eps_pos (d : scalar_type) : 0 < 100 * finfo_eps d.
Proof.
  unfold finfo_eps.
  assert (0 < / 2 ^ 23) by (apply Rinv_0_lt_compat, pow_lt; lra).
  assert (0 < / 2 ^ 52) by (apply Rinv_0_lt_compat, pow_lt; lra).
  destruct (real_dtype d); lra.
Qed.

Lemma Cabs_div_R (z : C) (x : R) : 0 < x -> Cx.abs (Cx.div_R z x) = Cx.abs z / x.
Proof.
  intros Hx. destruct z as [a b].
  unfold Cx.abs, Cx.div_R, Cx.re, Cx.im. cbn [fst snd].
  replace (a / x * (a / x) + b / x * (b / x)) with ((a * a + b * b) * (/ x * / x))
    by (field; lra).
  rewrite sqrt_mult by (try nra; apply Rle_0_sqr).
  unfold Rdiv. f_equal. apply sqrt_square. left. now apply Rinv_0_lt_compat.
Qed.

(** ** The cross-correlation of an image with its translate *)

Lemma translated_cross_correlation (ref mov : ndarray) (space : string)
    (norm : option string) (t n : list nat) :
  valid_inputs ref mov ->
  spectrum_translated (to_freq space ref) (to_freq space mov) t ->
  in_bounds n (shape ref) ->
  get (cross_correlation_of ref mov space norm) n
  = Cx.div_R
      (csum_idx (shape ref)
         (fun k =>
            Cx.mul (Cx.of_R (spectral_weight norm
                               (100 * finfo_eps (float_dtype_of ref mov))
                               (norm_sq (get (to_freq space ref) k))))
              (unit_phase (val.dft_angle (shape ref) k t
                           + val.dft_angle (shape ref) n k))))
      (INR (prod (shape ref))).
Proof.
  intros Hv Htr Hn.
  pose proof (shape_image_product ref mov space norm) as Hs.
  unfold cross_correlation_of, val.ifftn. rewrite get_build by now rewrite Hs.
  unfold size. rewrite Hs. f_equal.
  apply csum_idx_ext. intros k Hk.
  rewrite get_image_product by assumption.
  rewrite (Htr k) by now rewrite shape_to_freq.
  rewrite shape_to_freq, twiddle_forward_phase, mul_conj_phase.
  rewrite normalize_scaled_phase by apply norm_sq_nonneg.
  rewrite twiddle_inverse_phase, <- Cmul_assoc, unit_phase_add. reflexivity.
Qed.

(** ** The angle of the DFT at special indices *)

Lemma angle_at_translation_peak (s t : list nat) :
  in_bounds t s ->
  forall k, length k = length s ->
    exists z : Z,
      val.dft_angle s k t + val.dft_angle s (translation_peak s t) k = IZR z.
Proof.
  unfold translation_peak, map2.
  induction 1 as [| t0 N t s Ht _ IH]; intros k Hk.
  - exists 0%Z. destruct k; simpl; lra.
  - destruct k as [| k0 k]; [discriminate |]. simpl in Hk.
    destruct (IH k ltac:(lia)) as [z Hz].
    cbn [combine map fst snd val.dft_angle].
    assert (HN : INR N <> 0) by (apply not_0_INR; lia).
    destruct (Nat.eq_dec t0 0) as [-> | Ht0].
    + exists z. rewrite Nat.sub_0_r, Nat.Div0.mod_same. simpl INR.
      rewrite <- Hz. field. exact HN.
    + exists (Z.of_nat k0 + z)%Z.
      rewrite Nat.mod_small by lia. rewrite minus_INR by lia.
      rewrite plus_IZR, <- INR_IZR_INZ, <- Hz. field. exact HN.
Qed.

Lemma angle_origin_l (s t : list nat) : val.dft_angle s (origin (length s)) t = 0.
Proof.
  revert t. induction s as [| N s IH]; intros [| t0 t]; simpl; try reflexivity.
  rewrite IH. unfold Rdiv. ring.
Qed.

Lemma angle_origin_r (s n : list nat) : val.dft_angle s n (origin (length s)) = 0.
Proof.
  revert n. induction s as [| N s IH]; intros [| n0 n]; simpl; try reflexivity.
  rewrite IH. unfold Rdiv. ring.
Qed.

Lemma angle_unit_l (s t : list nat) (d : nat) :
  (d < length s)%nat -> length t = length s ->
  val.dft_angle s (unit_index (length s) d) t = INR (nth d t 0%nat) / INR (nth d s 0%nat).
Proof.
  revert t d. induction s as [| N s IH]; intros [| t0 t] d Hd Ht; simpl in *;
    try lia.
  destruct d as [| d].
  - cbn [val.dft_angle]. rewrite angle_origin_l. simpl INR. unfold Rdiv. ring.
  - cbn [val.dft_angle]. rewrite IH by lia. simpl INR. unfold Rdiv. ring.
Qed.

Lemma angle_unit_r (s n : list nat) (d : nat) :
  (d < length s)%nat -> length n = length s ->
  val.dft_angle s n (unit_index (length s) d) = INR (nth d n 0%nat) / INR (nth d s 0%nat).
Proof.
  revert n d. induction s as [| N s IH]; intros [| n0 n] d Hd Hn; simpl in *;
    try lia.
  destruct d as [| d].
  - cbn [val.dft_angle]. rewrite angle_origin_r. simpl INR. unfold Rdiv. ring.
  - cbn [val.dft_angle]. rewrite IH by lia. simpl INR. unfold Rdiv. ring.
Qed.

Lemma origin_in_bounds (s : list nat) :
  Forall (fun d => (0 < d)%nat) s -> in_bounds (origin (length s)) s.
Proof. induction 1; simpl; constructor; assumption. Qed.

Lemma unit_index_in_bounds (s : list nat) (d : nat) :
  Forall (fun d => (0 < d)%nat) s -> (d < length s)%nat -> (1 < nth d s 0)%nat ->
  in_bounds (unit_index (length s) d) s.
Proof.
  intros Hs. revert d. induction Hs as [| N s HN Hs IH]; intros d Hd H1; simpl in *.
  - lia.
  - destruct d as [| d]; constructor.
    + exact H1.
    + now apply origin_in_bounds.
    + exact HN.
    + apply IH; [lia | exact H1].
Qed.

Lemma unit_index_not_origin (n d : nat) : (d < n)%nat -> origin n <> unit_index n d.
Proof.
  revert d. induction n as [| n IH]; intros d Hd; [lia |].
  destruct d as [| d]; simpl; [discriminate |].
  intros E. injection E as E. apply (IH d); [lia | exact E].
Qed.

Lemma lists_differ (u v : list nat) :
  length u = length v -> u <> v ->
  exists d, (d < length u)%nat /\ nth d u 0%nat <> nth d v 0%nat.
Proof.
  revert v. induction u as [| a u IH]; intros [| b v] Hl Hne; try discriminate.
  - congruence.
  - destruct (Nat.eq_dec a b) as [-> | Hab].
    + destruct (IH v) as (d & Hd & Hn); [simpl in Hl; lia | congruence |].
      exists (S d). simpl. split; [lia | exact Hn].
    + exists 0%nat. simpl. split; [lia | exact Hab].
Qed.

Lemma nth_translation_peak (s t : list nat) (d : nat) :
  length t = length s -> (d < length s)%nat ->
  nth d (translation_peak s t) 0%nat
  = ((nth d s 0 - nth d t 0) mod nth d s 0)%nat.
Proof.
  intros Hl Hd. unfold translation_peak.
  rewrite (nth_map2 _ _ _ _ 0%nat 0%nat) by lia. reflexivity.
Qed.

Lemma translation_peak_in_bounds (s t : list nat) :
  in_bounds t s -> in_bounds (translation_peak s t) s.
Proof.
  unfold translation_peak, map2.
  induction 1 as [| t0 N t s Ht _ IH]; simpl; constructor; [| exact IH].
  apply Nat.mod_upper_bound. lia.
Qed.

Lemma off_peak_residue (N t n : nat) :
  (t < N)%nat -> (n < N)%nat -> n <> ((N - t) mod N)%nat -> ((t + n) mod N <> 0)%nat.
Proof.
  intros Ht Hn Hne E.
  destruct (Nat.eq_dec t 0) as [-> | Ht0].
  - rewrite Nat.sub_0_r, Nat.Div0.mod_same in Hne.
    rewrite Nat.add_0_l, Nat.mod_small in E by lia. lia.
  - rewrite Nat.mod_small in Hne by lia.
    destruct (Nat.lt_ge_cases (t + n) N) as [Hlt | Hge].
    + rewrite Nat.mod_small in E by lia. lia.
    + assert (E2 : ((t + n) mod N = t + n - N)%nat) by (apply mod_once; lia).
      lia.
Qed.

(** ** Peaks of arrays *)

Lemma unique_max_is_peak (a : ndarray) (m : list nat) :
  wf a -> flat a <> [] -> in_bounds m (shape a) ->
  (forall idx, in_bounds idx (shape a) -> idx <> m ->
     Cx.abs (get a idx) < Cx.abs (get a m)) ->
  peak a = m.
Proof.
  intros Hwf Hne Hm Hmax.
  destruct (list_eq_dec Nat.eq_dec (peak a) m) as [E | E]; [exact E |].
  pose proof (Hmax _ (peak_in_bounds a Hwf Hne) E) as Hlt.
  pose proof (peak_is_max a m Hwf Hm) as Hle. lra.
Qed.

Lemma argmax_from_keeps (l : list R) (best : R) (besti i : nat) :
  (forall y, In y l -> y <= best) -> val.argmax_from best besti i l = besti.
Proof.
  revert i. induction l as [| x l IH]; intros i H; simpl; [reflexivity |].
  destruct (Rlt_dec best x) as [Hlt | _].
  - pose proof (H x (or_introl eq_refl)). lra.
  - apply IH. intros y Hy. apply H. now right.
Qed.

Lemma unravel_index_0 (s : list nat) : unravel_index 0 s = origin (length s).
Proof.
  induction s as [| d s IH]; simpl; [reflexivity |].
  rewrite Nat.Div0.div_0_l, Nat.Div0.mod_0_l, IH. reflexivity.
Qed.

Lemma ravel_origin (s : list nat) : ravel s (origin (length s)) = 0%nat.
Proof.
  unfold origin. induction s as [| d s IH]; simpl; [reflexivity | now rewrite IH].
Qed.

(** The first element is the peak when no element exceeds it. *)
Lemma first_max_is_peak (a : ndarray) :
  wf a ->
  (forall idx, in_bounds idx (shape a) ->
     Cx.abs (get a idx) <= Cx.abs (get a (origin (length (shape a))))) ->
  peak a = origin (length (shape a)).
Proof.
  intros Hwf Hmax. unfold peak. rewrite <- unravel_index_0. f_equal.
  assert (Hg0 : get a (origin (length (shape a))) = nth 0 (flat a) Cx.zero)
    by (unfold get; now rewrite ravel_origin).
  assert (Hin : forall z, In z (flat a) -> Cx.abs z <= Cx.abs (nth 0 (flat a) Cx.zero)).
  { intros z Hz. rewrite (flat_as_gets a Hwf) in Hz.
    apply in_map_iff in Hz. destruct Hz as (idx & <- & Hidx).
    rewrite <- Hg0. apply Hmax. now apply in_indices. }
  unfold val.abs, map_arr. cbn [flat]. rewrite map_map.
  destruct (flat a) as [| x l]; [reflexivity |].
  cbn [map val.argmax nth] in *. apply argmax_from_keeps.
  intros y Hy. apply in_map_iff in Hy. destruct Hy as (z & <- & Hz).
  cbn [Cx.re Cx.of_R fst]. apply Hin. now right.
Qed.

(** ** Sums of weights *)

Lemma Rsum_map_ext {A} (f g : A -> R) (l : list A) :
  (forall x, In x l -> f x = g x) -> Rsum (map f l) = Rsum (map g l).
Proof. intros H. f_equal. now apply map_ext_in. Qed.

Lemma Rsum_nonneg {A} (f : A -> R) (l : list A) :
  (forall x, In x l -> 0 <= f x) -> 0 <= Rsum (map f l).
Proof.
  induction l as [| x l IH]; simpl; intros H; [lra |].
  pose proof (H x (or_introl eq_refl)).
  assert (0 <= Rsum (map f l)) by (apply IH; intros y Hy; apply H; now right). lra.
Qed.

Lemma Rsum_pos {A} (f : A -> R) (l : list A) (x : A) :
  (forall y, In y l -> 0 <= f y) -> In x l -> 0 < f x -> 0 < Rsum (map f l).
Proof.
  induction l as [| y l IH]; simpl; intros H Hx Hfx; [contradiction |].
  assert (Hl : 0 <= Rsum (map f l))
    by (apply Rsum_nonneg; intros z Hz; apply H; now right).
  pose proof (H y (or_introl eq_refl)) as Hy.
  destruct Hx as [-> | Hx]; [lra |].
  assert (0 < Rsum (map f l)) by (apply IH; auto). lra.
Qed.

Lemma Cabs_of_R (a : R) : 0 <= a -> Cx.abs (Cx.of_R a) = a.
Proof.
  intros Ha. unfold Cx.abs, Cx.of_R, Cx.re, Cx.im. cbn [fst snd].
  replace (a * a + 0 * 0) with (a * a) by ring. now apply sqrt_square.
Qed.

Lemma prod_INR_pos (s : list nat) :
  Forall (fun d => (0 < d)%nat) s -> 0 < INR (prod s).
Proof. intros H. apply lt_0_INR. now apply prod_pos. Qed.

(** ** The cross-correlation of an image with its translate: the peak *)

Lemma total_weight_nonneg (F : ndarray) (norm : option string) (c : R) :
  0 < c -> 0 <= total_weight F norm c.
Proof.
  intros Hc. unfold total_weight. apply Rsum_nonneg. intros k _.
  apply spectral_weight_nonneg; [exact Hc | apply norm_sq_nonneg].
Qed.

Lemma translated_correlation_at_peak (ref mov : ndarray) (space : string)
    (norm : option string) (t : list nat) :
  valid_inputs ref mov ->
  spectrum_translated (to_freq space ref) (to_freq space mov) t ->
  in_bounds t (shape ref) ->
  get (cross_correlation_of ref mov space norm) (translation_peak (shape ref) t)
  = Cx.div_R
      (Cx.of_R (total_weight (to_freq space ref) norm
                  (100 * finfo_eps (float_dtype_of ref mov))))
      (INR (prod (shape ref))).
Proof.
  intros Hv Htr Ht.
  rewrite (translated_cross_correlation ref mov space norm t) by
    (try assumption; now apply translation_peak_in_bounds).
  f_equal. unfold total_weight. rewrite shape_to_freq, <- Csum_of_R.
  apply csum_idx_ext. intros k Hk.
  destruct (angle_at_translation_peak _ _ Ht k (in_bounds_length _ _ Hk)) as [z ->].
  rewrite unit_phase_integer. apply Cmul_1_r.
Qed.

Lemma translated_correlation_bound (ref mov : ndarray) (space : string)
    (norm : option string) (t n : list nat) :
  valid_inputs ref mov ->
  spectrum_translated (to_freq space ref) (to_freq space mov) t ->
  in_bounds n (shape ref) ->
  Cx.abs (get (cross_correlation_of ref mov space norm) n)
  <= total_weight (to_freq space ref) norm (100 * finfo_eps (float_dtype_of ref mov))
     / INR (prod (shape ref)).
Proof.
  intros Hv Htr Hn. pose proof Hv as (_ & _ & _ & Hpos).
  pose proof (prod_INR_pos _ Hpos) as HN.
  rewrite (translated_cross_correlation ref mov space norm t) by assumption.
  rewrite Cabs_div_R by exact HN.
  apply Rmult_le_compat_r; [left; now apply Rinv_0_lt_compat |].
  unfold csum_idx. eapply Rle_trans; [apply Cabs_sum_le |].
  unfold total_weight. rewrite shape_to_freq. right.
  apply Rsum_map_ext. intros k _. apply Cabs_scaled_phase.
  apply spectral_weight_nonneg; [apply finfo_eps_pos | apply norm_sq_nonneg].
Qed.

Lemma norm_sq_pos (z : C) : z <> Cx.zero -> 0 < norm_sq z.
Proof.
  intros Hz. destruct z as [a b]. unfold norm_sq, Cx.re, Cx.im. cbn [fst snd].
  destruct (Req_dec a 0) as [-> | Ha].
  - destruct (Req_dec b 0) as [-> | Hb]; [now contradiction Hz |]. nra.
  - nra.
Qed.

Lemma translated_correlation_off_peak (ref mov : ndarray) (space : string)
    (norm : option string) (t n : list nat) :
  valid_inputs ref mov ->
  spectrum_translated (to_freq space ref) (to_freq space mov) t ->
  in_bounds t (shape ref) ->
  get (to_freq space ref) (origin (ndim ref)) <> Cx.zero ->
  (forall d, (d < ndim ref)%nat -> (1 < nth d (shape ref) 0)%nat ->
     get (to_freq space ref) (unit_index (ndim ref) d) <> Cx.zero) ->
  in_bounds n (shape ref) -> n <> translation_peak (shape ref) t ->
  Cx.abs (get (cross_correlation_of ref mov space norm) n)
  < total_weight (to_freq space ref) norm (100 * finfo_eps (float_dtype_of ref mov))
    / INR (prod (shape ref)).
Proof.
  intros Hv Htr Ht H0 H1 Hn Hne. pose proof Hv as (_ & _ & _ & Hpos).
  pose proof (prod_INR_pos _ Hpos) as HN.
  pose proof (finfo_eps_pos (float_dtype_of ref mov)) as Hc.
  set (c := 100 * finfo_eps (float_dtype_of ref mov)) in *.
  unfold ndim in *.
  pose proof (in_bounds_length _ _ Ht) as Hlt.
  pose proof (in_bounds_length _ _ Hn) as Hln.
  destruct (lists_differ n (translation_peak (shape ref) t)) as (d & Hd & Hnd).
  { rewrite Hln. symmetry. apply in_bounds_length. now apply translation_peak_in_bounds. }
  { exact Hne. }
  rewrite Hln in Hd. rewrite nth_translation_peak in Hnd by assumption.
  pose proof (in_bounds_nth _ _ d Ht Hd) as Htd.
  pose proof (in_bounds_nth _ _ d Hn Hd) as Hnd'.
  set (N := nth d (shape ref) 0%nat) in *.
  set (td := nth d t 0%nat) in *. set (nd := nth d n 0%nat) in *.
  assert (HN1 : (1 < N)%nat).
  { destruct (Nat.eq_dec N 1) as [E | E]; [| lia].
    exfalso. apply Hnd. rewrite E in *. rewrite Nat.mod_1_r. lia. }
  pose proof (off_peak_residue N td nd Htd Hnd' Hnd) as Hres.
  rewrite (translated_cross_correlation ref mov space norm t) by assumption.
  fold c. rewrite Cabs_div_R by exact HN.
  apply Rmult_lt_compat_r; [now apply Rinv_0_lt_compat |].
  unfold csum_idx, total_weight. rewrite shape_to_freq.
  set (w := fun k => spectral_weight norm c (norm_sq (get (to_freq space ref) k))).
  set (f := fun k =>
              Cx.mul (Cx.of_R (w k))
                (unit_phase (val.dft_angle (shape ref) k t + val.dft_angle (shape ref) n k))).
  change (Cx.abs (Cx.sum (map f (indices (shape ref))))
          < Rsum (map w (indices (shape ref)))).
  assert (Hw : forall k, 0 <= w k)
    by (intros k; apply spectral_weight_nonneg; [exact Hc | apply norm_sq_nonneg]).
  rewrite (Rsum_map_ext w (fun k => Cx.abs (f k)))
    by (intros k _; unfold f; symmetry; apply Cabs_scaled_phase, Hw).
  apply (Cabs_sum_lt f _ (origin (length (shape ref)))
           (unit_index (length (shape ref)) d)).
  - apply in_indices. now apply origin_in_bounds.
  - apply in_indices. now apply unit_index_in_bounds.
  - now apply unit_index_not_origin.
  - unfold f. rewrite !Cabs_scaled_phase by apply Hw.
    rewrite angle_origin_l, angle_origin_r, Rplus_0_l, unit_phase_0, Cmul_1_r.
    rewrite angle_unit_l, angle_unit_r by assumption.
    fold N td nd.
    replace (INR td / INR N + INR nd / INR N) with (INR (td + nd) / INR N)
      by (rewrite plus_INR; unfold Rdiv; ring).
    apply Cabs_pair_lt.
    + apply spectral_weight_pos; [exact Hc | now apply norm_sq_pos].
    + apply spectral_weight_pos; [exact Hc |]. apply norm_sq_pos. now apply H1.
    + apply cos_turn_lt_1; [lia | exact Hres].
Qed.

(** ** Energy *)

Lemma energy_as_sum (f : ndarray) : energy f = Rsum (map norm_sq (flat f)).
Proof.
  unfold energy, val.sum, val.real, val.multiply, val.conj, zip_arr, map_arr.
  cbn [flat]. induction (flat f) as [| z l IH]; [reflexivity |].
  cbn [map combine Cx.sum fold_right Rsum fst snd].
  unfold Cx.sum in IH. unfold Rsum in IH |- *. cbn [fold_right].
  rewrite <- IH. destruct z as [a b].
  unfold norm_sq, Cx.add, Cx.mul, Cx.conj, Cx.of_R, Cx.re, Cx.im. cbn [fst snd]. ring.
Qed.

Lemma energy_as_total_weight (F : ndarray) (c : R) :
  wf F -> energy F = total_weight F None c.
Proof.
  intros Hwf. rewrite energy_as_sum, (flat_as_gets F Hwf), map_map. reflexivity.
Qed.

Lemma norm_sq_mul (a b : C) : norm_sq (Cx.mul a b) = norm_sq a * norm_sq b.
Proof.
  destruct a, b. unfold norm_sq, Cx.mul, Cx.re, Cx.im. cbn [fst snd]. ring.
Qed.

Lemma norm_sq_conj (a : C) : norm_sq (Cx.conj a) = norm_sq a.
Proof. destruct a. unfold norm_sq, Cx.conj, Cx.re, Cx.im. cbn [fst snd]. ring. Qed.

Lemma translated_energy (F G : ndarray) (t : list nat) :
  wf F -> wf G -> shape G = shape F -> spectrum_translated F G t ->
  energy G = energy F.
Proof.
  intros HwF HwG Hs Htr.
  rewrite !energy_as_sum, (flat_as_gets F HwF), (flat_as_gets G HwG), Hs, !map_map.
  apply Rsum_map_ext. intros k Hk. apply in_indices in Hk.
  rewrite (Htr k Hk), twiddle_forward_phase, norm_sq_mul, norm_sq_conj, unit_phase_norm.
  ring.
Qed.

(** ** The error and the phase at a real peak *)

Lemma phasediff_of_nonnegative (x y : R) :
  0 <= x -> y = 0 -> _compute_phasediff (x, y) = 0.
Proof.
  intros Hx ->. unfold _compute_phasediff, arctan2, Cx.re, Cx.im. cbn [fst snd].
  destruct (Rlt_dec 0 x) as [H | H].
  - unfold Rdiv. rewrite Rmult_0_l. apply atan_0.
  - destruct (Rlt_dec x 0); [lra |].
    destruct (Rlt_dec 0 0); [lra |]. reflexivity.
Qed.

Lemma error_of_matched_amplitudes (x : R) :
  x <> 0 -> _compute_error (x, 0) x x = 0.
Proof.
  intros Hx. rewrite compute_error_formula, Cabs_sq.
  unfold norm_sq, Cx.re, Cx.im. cbn [fst snd].
  replace (1 - (x * x + 0 * 0) / (x * x)) with 0 by (field; exact Hx).
  rewrite Rabs_R0. apply sqrt_0.
Qed.

(** ** Shifts *)

Lemma wrap_translation (N t : nat) :
  (t < N)%nat ->
  wrap N ((N - t) mod N) = if (2 * t <? N)%nat then - INR t else INR N - INR t.
Proof.
  intros Ht. unfold wrap.
  pose proof (Nat.div_mod_eq N 2) as E.
  pose proof (Nat.mod_upper_bound N 2 ltac:(lia)) as Hr.
  destruct (Nat.eq_dec t 0) as [-> | Ht0].
  - rewrite Nat.sub_0_r, Nat.Div0.mod_same.
    replace (N / 2 <? 0)%nat with false by (symmetry; apply Nat.ltb_ge; lia).
    replace (2 * 0 <? N)%nat with true by (symmetry; apply Nat.ltb_lt; lia).
    simpl. lra.
  - rewrite Nat.mod_small by lia.
    destruct (2 * t <? N)%nat eqn:H2.
    + apply Nat.ltb_lt in H2.
      replace (N / 2 <? N - t)%nat with true by (symmetry; apply Nat.ltb_lt; lia).
      rewrite minus_INR by lia. lra.
    + apply Nat.ltb_ge in H2.
      replace (N / 2 <? N - t)%nat with false by (symmetry; apply Nat.ltb_ge; lia).
      rewrite minus_INR by lia. lra.
Qed.

Lemma integer_shift_translation (s t : list nat) :
  in_bounds t s ->
  integer_shift s (translation_peak s t) = translation_shift s t.
Proof.
  unfold integer_shift, translation_peak, translation_shift, map2.
  induction 1 as [| t0 N t s Ht _ IH]; simpl; [reflexivity |].
  rewrite IH. f_equal. now apply wrap_translation.
Qed.

Lemma translation_peak_origin (s : list nat) :
  translation_peak s (origin (length s)) = origin (length s).
Proof.
  unfold translation_peak, map2, origin.
  induction s as [| N s IH]; simpl; [reflexivity |].
  rewrite IH, Nat.sub_0_r, Nat.Div0.mod_same. reflexivity.
Qed.

Lemma translation_shift_origin (s : list nat) :
  Forall (fun d => (0 < d)%nat) s ->
  translation_shift s (origin (length s)) = repeat 0 (length s).
Proof.
  unfold translation_shift, map2, origin.
  induction 1 as [| N s HN _ IH]; cbn [length repeat combine map fst snd];
    [reflexivity |].
  rewrite IH. f_equal.
  replace (2 * 0 <? N)%nat with true by (symmetry; apply Nat.ltb_lt; lia).
  simpl. lra.
Qed.

Lemma spectrum_translated_by_origin (F : ndarray) :
  spectrum_translated F F (origin (length (shape F))).
Proof.
  intros k _. rewrite twiddle_forward_phase, angle_origin_r, unit_phase_0.
  unfold Cx.conj, Cx.one, Cx.re, Cx.im. cbn [fst snd].
  replace (- 0) with 0 by ring. symmetry. apply Cmul_1_r.
Qed.

(** ** Registration of translated images *)

Lemma registration_result_at_translation_peak (ref mov : ndarray) (space : string)
    (ov : R) (norm : option string) (t : list nat) :
  valid_inputs ref mov -> valid_space space -> valid_normalization norm ->
  in_bounds t (shape ref) ->
  spectrum_translated (to_freq space ref) (to_freq space mov) t ->
  peak (cross_correlation_of ref mov space norm) = translation_peak (shape ref) t ->
  exists error,
    outcome (phase_cross_correlation ref mov 1 space false None None ov norm)
    = inr (translation_shift (shape ref) t, error, 0)
    /\ (norm = None -> energy (to_freq space ref) <> 0 -> error = 0).
Proof.
  intros Hv Hsp Hn Ht Htr Hpk. pose proof Hv as (Hwr & Hwm & Hsh & Hpos).
  pose proof (prod_INR_pos _ Hpos) as HN.
  pose proof (finfo_eps_pos (float_dtype_of ref mov)) as Hc.
  rewrite pcc_outcome_integer by assumption. cbv zeta.
  rewrite Hpk, translated_correlation_at_peak by assumption.
  rewrite zero_singleton_integer_shift by now apply translation_peak_in_bounds.
  rewrite integer_shift_translation by exact Ht.
  set (A := total_weight (to_freq space ref) norm
              (100 * finfo_eps (float_dtype_of ref mov))).
  assert (HA : 0 <= A) by (apply total_weight_nonneg; exact Hc).
  eexists. split.
  - f_equal. f_equal. unfold Cx.div_R, Cx.of_R, Cx.re, Cx.im. cbn [fst snd].
    apply phasediff_of_nonnegative.
    + apply Rmult_le_pos; [exact HA | left; now apply Rinv_0_lt_compat].
    + unfold Rdiv. ring.
  - intros -> HE.
    rewrite (translated_energy (to_freq space ref) (to_freq space mov) t);
      try assumption; try (now apply wf_to_freq);
      [| rewrite !shape_to_freq; congruence].
    unfold size. rewrite !shape_to_freq, <- Hsh.
    unfold A. rewrite <- energy_as_total_weight by now apply wf_to_freq.
    unfold Cx.div_R, Cx.of_R, Cx.re, Cx.im. cbn [fst snd].
    replace (0 / INR (prod (shape ref))) with 0 by (unfold Rdiv; ring).
    apply error_of_matched_amplitudes.
    unfold Rdiv. apply Rmult_integral_contrapositive. split; [exact HE |].
    apply Rinv_neq_0_compat. lra.
Qed.

(** Registering an image with itself, without upsampling, gives the
    shift zero on every axis and the phase difference zero; with
    [normalization = None] and an image that is not zero everywhere the
    error is zero. *)
Theorem image_registers_with_itself
    (image : ndarray) (space : string) (overlap_ratio : R)
    (normalization : option string) :
  valid_inputs image image -> valid_space space -> valid_normalization normalization ->
  exists error,
    outcome (phase_cross_correlation image image 1 space false None None
               overlap_ratio normalization)
    = inr (repeat 0 (ndim image), error, 0)
    /\ (normalization = None -> energy (to_freq space image) <> 0 -> error = 0).
Proof.
  intros Hv Hsp Hn. pose proof Hv as (Hw & _ & _ & Hpos). unfold ndim.
  assert (Htr : spectrum_translated (to_freq space image) (to_freq space image)
                  (origin (length (shape image)))).
  { rewrite <- (shape_to_freq space image). apply spectrum_translated_by_origin. }
  assert (Ht : in_bounds (origin (length (shape image))) (shape image))
    by now apply origin_in_bounds.
  rewrite <- translation_shift_origin by exact Hpos.
  apply registration_result_at_translation_peak; try assumption.
  rewrite translation_peak_origin.
  rewrite <- (shape_cross_correlation image image space normalization).
  apply first_max_is_peak; [apply wf_build |].
  rewrite shape_cross_correlation. intros idx Hidx.
  eapply Rle_trans;
    [apply (translated_correlation_bound image image space normalization _ idx Hv Htr Hidx) |].
  right.
  rewrite <- (translation_peak_origin (shape image)).
  rewrite translated_correlation_at_peak by assumption.
  rewrite Cabs_div_R by now apply prod_INR_pos.
  rewrite Cabs_of_R; [reflexivity |].
  apply total_weight_nonneg, finfo_eps_pos.
Qed.

Lemma image_registers_with_itself_witness :
  exists error,
    outcome (phase_cross_correlation example_column example_column 1 "real" false
               None None 0 (Some "phase"%string))
    = inr ([0; 0], error, 0).
Proof.
  destruct (image_registers_with_itself example_column "real" 0 (Some "phase"%string))
    as (error & Hrun & _).
  - exact example_column_valid.
  - left. reflexivity.
  - right. reflexivity.
  - exists error. exact Hrun.
Defined.

Lemma translated_correlation_peak (ref mov : ndarray) (space : string)
    (norm : option string) (t : list nat) :
  valid_inputs ref mov ->
  spectrum_translated (to_freq space ref) (to_freq space mov) t ->
  in_bounds t (shape ref) ->
  get (to_freq space ref) (origin (ndim ref)) <> Cx.zero ->
  (forall d, (d < ndim ref)%nat -> (1 < nth d (shape ref) 0)%nat ->
     get (to_freq space ref) (unit_index (ndim ref) d) <> Cx.zero) ->
  peak (cross_correlation_of ref mov space norm) = translation_peak (shape ref) t.
Proof.
  intros Hv Htr Ht H0 H1. pose proof Hv as (Hwr & Hwm & Hsh & Hpos).
  pose proof (finfo_eps_pos (float_dtype_of ref mov)) as Hc.
  apply unique_max_is_peak.
  - apply wf_build.
  - now apply cross_correlation_nonempty.
  - rewrite shape_cross_correlation. now apply translation_peak_in_bounds.
  - rewrite shape_cross_correlation. intros idx Hidx Hne.
    rewrite translated_correlation_at_peak by assumption.
    rewrite Cabs_div_R by now apply prod_INR_pos.
    rewrite Cabs_of_R by (apply total_weight_nonneg; exact Hc).
    apply (translated_correlation_off_peak ref mov space norm t idx); assumption.
Qed.

Lemma nonzero_spectrum_energy (F : ndarray) :
  wf F -> Forall (fun d => (0 < d)%nat) (shape F) ->
  get F (origin (ndim F)) <> Cx.zero -> energy F <> 0.
Proof.
  intros Hwf Hpos H0. rewrite (energy_as_total_weight _ 1) by exact Hwf.
  apply Rgt_not_eq. unfold total_weight.
  apply (Rsum_pos _ _ (origin (ndim F))).
  - intros k _. apply norm_sq_nonneg.
  - apply in_indices. now apply origin_in_bounds.
  - cbn [spectral_weight]. now apply norm_sq_pos.
Qed.

(** ** An example of a translated spectrum *)

Lemma example_translated_valid : valid_inputs example_reference example_translated.
Proof.
  split; [reflexivity |]. split; [reflexivity |]. split; [reflexivity |].
  repeat constructor.
Qed.

Lemma example_spectrum_translated :
  spectrum_translated (to_freq "fourier" example_reference)
    (to_freq "fourier" example_translated) [1%nat].
Proof.
  intros k Hk. change (to_freq "fourier" example_reference) with example_reference in *.
  change (to_freq "fourier" example_translated) with example_translated.
  change (shape example_reference) with [2%nat] in *.
  inversion Hk as [| k0 n0 k' s' Hk0 Hk']; subst. inversion Hk'; subst.
  rewrite twiddle_forward_phase, <- twiddle_inverse_phase, twiddle_two.
  assert (E : k0 = 0%nat \/ k0 = 1%nat) by lia.
  destruct E as [-> | ->].
  - change (get example_translated [0%nat]) with ((1, 0) : C).
    change (get example_reference [0%nat]) with ((1, 0) : C).
    change (quarter_turn (2 * Z.of_nat 0 * Z.of_nat 1)) with ((1, 0) : C).
    cx_unfold. simpl. f_equal; ring.
  - change (get example_translated [1%nat]) with ((1, 2) : C).
    change (get example_reference [1%nat]) with ((-1, -2) : C).
    change (quarter_turn (2 * Z.of_nat 1 * Z.of_nat 1)) with ((-1, 0) : C).
    cx_unfold. simpl. f_equal; ring.
Qed.

Lemma example_reference_nonzero :
  get (to_freq "fourier" example_reference) (origin (ndim example_reference)) <> Cx.zero
  /\ forall d, (d < ndim example_reference)%nat ->
       (1 < nth d (shape example_reference) 0)%nat ->
       get (to_freq "fourier" example_reference)
         (unit_index (ndim example_reference) d) <> Cx.zero.
Proof.
  split.
  - change (get (to_freq "fourier" example_reference) (origin (ndim example_reference)))
      with ((1, 0) : C).
    unfold Cx.zero. intros E. injection E as E. lra.
  - intros d Hd _. change (ndim example_reference) with 1%nat in *.
    replace d with 0%nat by lia.
    change (get (to_freq "fourier" example_reference) (unit_index 1 0))
      with ((-1, -2) : C).
    unfold Cx.zero. intros E. injection E as E. lra.
Qed.

(** ** The DFT of a translated image *)

Lemma csum_n_cyclic (N c : nat) (g : nat -> C) :
  (c <= N)%nat -> csum_n N (fun i => g ((i + c) mod N)%nat) = csum_n N g.
Proof.
  intros Hc. unfold csum_n.
  assert (El : seq 0 N = seq 0 (N - c) ++ seq (0 + (N - c)) c).
  { rewrite <- seq_app. f_equal. lia. }
  assert (Er : seq 0 N = seq 0 c ++ seq (0 + c) (N - c)).
  { rewrite <- seq_app. f_equal. lia. }
  rewrite El at 1. rewrite Er. rewrite !map_app, !Csum_app, Cadd_comm. f_equal.
  - rewrite (Csum_seq_shift _ (0 + (N - c))).
    apply Csum_map_ext. intros i Hi. apply in_seq in Hi. f_equal.
    rewrite mod_once by lia. lia.
  - rewrite (Csum_seq_shift _ (0 + c)).
    apply Csum_map_ext. intros i Hi. apply in_seq in Hi. f_equal.
    rewrite Nat.mod_small by lia. lia.
Qed.

(** The index of the sample that a translation by [t] moves to [n]. *)
Lemma csum_idx_cyclic (s t : list nat) :
  in_bounds t s ->
  forall h : list nat -> C,
    csum_idx s
      (fun n => h (map2 (fun (Nt : nat * nat) (j : nat) =>
                           ((j + (fst Nt - snd Nt)) mod fst Nt)%nat)
                     (combine s t) n))
    = csum_idx s h.
Proof.
  unfold map2.
  induction 1 as [| t0 N t s Ht _ IH]; intros h.
  - unfold csum_idx. reflexivity.
  - rewrite !csum_idx_cons.
    rewrite <- (csum_n_cyclic N (N - t0) (fun j => csum_idx s (fun m => h (j :: m))))
      by lia.
    apply csum_n_ext. intros i Hi.
    cbn [combine map fst snd]. apply (IH (fun m => h (_ :: m))).
Qed.

Lemma unit_phase_period (x : R) (z : Z) : unit_phase (x + IZR z) = unit_phase x.
Proof. unfold unit_phase. now rewrite cos_2PI_Z, sin_2PI_Z. Qed.

Lemma angle_rolled (s t n : list nat) :
  in_bounds t s -> in_bounds n s ->
  forall k, length k = length s ->
    exists z : Z,
      val.dft_angle s k
        (map2 (fun (Nt : nat * nat) (j : nat) =>
                 ((j + (fst Nt - snd Nt)) mod fst Nt)%nat) (combine s t) n)
      + val.dft_angle s k t
      = val.dft_angle s k n + IZR z.
Proof.
  unfold map2. intros Ht. revert n.
  induction Ht as [| t0 N t s Ht0 _ IH]; intros n Hn k Hk.
  - exists 0%Z. destruct k; simpl; lra.
  - inversion Hn as [| n0 N' n' s' Hn0 Hn']; subst.
    destruct k as [| k0 k]; [discriminate |]. simpl in Hk.
    destruct (IH n' Hn' k ltac:(lia)) as [z Hz].
    cbn [combine map fst snd val.dft_angle].
    set (A := val.dft_angle s k _) in *.
    set (B := val.dft_angle s k t) in *.
    set (D := val.dft_angle s k n') in *.
    assert (EA : A = D + IZR z - B) by lra. clearbody A B D. subst A.
    assert (HN : INR N <> 0) by (apply not_0_INR; lia).
    destruct (Nat.lt_ge_cases (n0 + (N - t0)) N) as [Hlt | Hge].
    + exists (z + Z.of_nat k0)%Z. rewrite Nat.mod_small by exact Hlt.
      rewrite plus_INR, minus_INR by lia.
      rewrite plus_IZR, <- INR_IZR_INZ. field. exact HN.
    + exists z. rewrite mod_once by lia.
      replace (INR (n0 + (N - t0) - N)) with (INR n0 - INR t0)
        by (rewrite minus_INR, plus_INR, minus_INR by lia; ring).
      field. exact HN.
Qed.

Lemma conj_unit_phase_add (x y : R) :
  Cx.conj (unit_phase (x + y))
  = Cx.mul (Cx.conj (unit_phase x)) (Cx.conj (unit_phase y)).
Proof.
  rewrite <- unit_phase_add.
  unfold unit_phase, Cx.conj, Cx.mul, Cx.re, Cx.im. cbn [fst snd]. f_equal; ring.
Qed.

(** The DFT of an image translated by [t] samples is the DFT of the
    image times the linear phase of the translation. *)
Lemma fftn_roll (a : ndarray) (t : list nat) :
  wf a -> in_bounds t (shape a) ->
  spectrum_translated (val.fftn a) (val.fftn (roll a t)) t.
Proof.
  intros Hwf Ht k Hk. change (shape (val.fftn a)) with (shape a) in *.
  unfold val.fftn at 1 2. change (shape (roll a t)) with (shape a).
  rewrite !get_build by exact Hk.
  set (s := shape a) in *.
  set (sigma := map2 (fun (Nt : nat * nat) (j : nat) =>
                        ((j + (fst Nt - snd Nt)) mod fst Nt)%nat) (combine s t)).
  set (h := fun m => Cx.mul (Cx.mul (get a m) (val.twiddle (Cx.opp Cx.one) s k m))
                       (val.twiddle (Cx.opp Cx.one) s k t)).
  transitivity (csum_idx s (fun n => h (sigma n))).
  - apply csum_idx_ext. intros n Hn. unfold h, roll. fold s.
    rewrite get_build by exact Hn. fold sigma.
    rewrite <- Cmul_assoc. f_equal.
    rewrite !twiddle_forward_phase, <- conj_unit_phase_add.
    destruct (angle_rolled s t n Ht Hn k (in_bounds_length _ _ Hk)) as [z Hz].
    fold sigma in Hz. rewrite Hz, unit_phase_period. reflexivity.
  - unfold sigma. rewrite (csum_idx_cyclic s t Ht h).
    unfold h, csum_idx.
    rewrite (Csum_map_ext _ (fun m => Cx.mul (val.twiddle (Cx.opp Cx.one) s k t)
                                        (Cx.mul (get a m)
                                           (val.twiddle (Cx.opp Cx.one) s k m))))
      by (intros m _; apply Cmul_comm).
    rewrite Csum_map_mul_l. apply Cmul_comm.
Qed.

Lemma wf_roll (a : ndarray) (t : list nat) : wf (roll a t).
Proof. apply wf_build. Qed.

(** ** The entries of the upsampled patch *)

Lemma Cconj_sum (l : list C) : Cx.conj (Cx.sum l) = Cx.sum (map Cx.conj l).
Proof.
  induction l as [| z l IH]; simpl.
  - unfold Cx.conj, Cx.zero, Cx.re, Cx.im. cbn [fst snd]. f_equal. ring.
  - rewrite <- IH. destruct z, (Cx.sum l).
    unfold Cx.conj, Cx.add, Cx.re, Cx.im. cbn [fst snd]. f_equal. ring.
Qed.

Lemma Cconj_mul (a b : C) : Cx.conj (Cx.mul a b) = Cx.mul (Cx.conj a) (Cx.conj b).
Proof.
  destruct a, b. unfold Cx.conj, Cx.mul, Cx.re, Cx.im. cbn [fst snd]. f_equal; ring.
Qed.

Lemma Cconj_conj (a : C) : Cx.conj (Cx.conj a) = a.
Proof. destruct a. unfold Cx.conj, Cx.re, Cx.im. cbn [fst snd]. f_equal. ring. Qed.

Lemma kernel_entry_phase (uf : Z) (N : nat) (o : R) (k n : nat) :
  kernel_entry uf N o k n
  = Cx.conj (unit_phase ((INR k - o) * (IZR (jnp.fftfreq_index N n) / (INR N * IZR uf)))).
Proof. unfold kernel_entry. rewrite Cexp_im2pi. reflexivity. Qed.

Lemma conj_kernel_prod (uf : Z) (s : list nat) :
  forall (szs : list Z) (offs : list R) (ks ns : list nat),
    length szs = length s -> length offs = length s ->
    length ks = length s -> length ns = length s ->
    Cx.conj (kernel_prod uf (combine s (combine szs offs)) ks ns)
    = unit_phase (patch_angle uf s offs ks ns).
Proof.
  induction s as [| N s IH]; intros szs offs ks ns Hz Ho Hk Hn.
  - simpl. rewrite unit_phase_0.
    unfold Cx.conj, Cx.one, Cx.re, Cx.im. cbn [fst snd]. f_equal. ring.
  - destruct szs as [| sz szs], offs as [| o offs], ks as [| k ks], ns as [| n ns];
      try discriminate.
    simpl in Hz, Ho, Hk, Hn.
    cbn [combine kernel_prod patch_angle].
    rewrite Cconj_mul, IH by lia.
    rewrite kernel_entry_phase, Cconj_conj. apply unit_phase_add.
Qed.

Lemma patch_offsets_length (ref mov : ndarray) (space : string) (norm : option string)
    (uf : Z) :
  length (patch_offsets ref mov space norm uf) = length (shape ref).
Proof.
  unfold patch_offsets, sample_region_offset_of, rounded_shift.
  rewrite !length_map. apply integer_estimate_length.
Qed.

(** Each entry of the upsampled patch is the sum of the cross-power
    spectrum against the conjugate kernel. *)
Lemma upsampled_patch_entry (ref mov : ndarray) (space : string)
    (norm : option string) (uf : Z) (ks : list nat) :
  valid_inputs ref mov ->
  is_complex (dtype (image_product_of ref mov space norm)) = true ->
  in_bounds ks (repeat (Z.to_nat (upsampled_region_size_of uf)) (length (shape ref))) ->
  get (upsampled_patch ref mov space norm uf) ks
  = csum_idx (shape ref)
      (fun ns =>
         Cx.mul (get (image_product_of ref mov space norm) ns)
           (unit_phase (patch_angle uf (shape ref)
                          (patch_offsets ref mov space norm uf) ks ns))).
Proof.
  intros Hv Hc Hks. pose proof Hv as (Hwr & Hwm & Hsh & Hpos).
  set (ip := image_product_of ref mov space norm) in *.
  assert (Hsip : shape ip = shape ref) by apply shape_image_product.
  assert (Hwip : wf ip) by now apply wf_image_product.
  set (offs := patch_offsets ref mov space norm uf).
  assert (Hlo : length offs = length (shape ref)) by apply patch_offsets_length.
  assert (Hl : lengths_match (val.conj ip) (inl (upsampled_region_size_of uf))
                 (Some offs)).
  { split; cbn [region_sizes offsets]; unfold ndim, val.conj, map_arr; cbn [shape].
    - apply repeat_length.
    - now rewrite Hsip. }
  destruct (upsampled_dft_run (val.conj ip) (inl (upsampled_region_size_of uf)) uf
              (Some offs) (wf_map_arr _ _ _ Hwip) Hl)
    as (out & Hrun & Hso & Hdt & Hwfo & Hget).
  cbn [region_sizes] in Hso, Hget.
  assert (Hnd : ndim (val.conj ip) = length (shape ref))
    by (unfold ndim, val.conj, map_arr; cbn [shape]; now rewrite Hsip).
  rewrite Hnd, map_repeat in Hso, Hget.
  unfold upsampled_patch, value_of. fold ip.
  change (sample_region_offset_of uf
            (rounded_shift uf
               (integer_shift (shape ref) (peak (val.ifftn ip))))) with offs.
  rewrite Hrun. cbn [outcome snd].
  unfold val.conj at 1. rewrite get_map_arr by (try assumption; now rewrite Hso).
  rewrite (Hget ks Hks).
  change (shape (val.conj ip)) with (shape ip). rewrite Hsip.
  unfold csum_idx. rewrite Cconj_sum, map_map.
  apply Csum_map_ext. intros ns Hns. apply in_indices in Hns.
  rewrite Cconj_mul, cast_kernel_prod_complex by exact Hc.
  unfold dim_properties. cbn [region_sizes offsets].
  change (shape (val.conj ip)) with (shape ip). rewrite Hnd, Hsip.
  rewrite conj_kernel_prod;
    [| apply repeat_length | exact Hlo
     | apply in_bounds_length in Hks; now rewrite repeat_length in Hks
     | now apply in_bounds_length ].
  unfold val.conj. rewrite get_map_arr, Cconj_conj by (try assumption; now rewrite Hsip).
  apply Cmul_comm.
Qed.

(** ** The error is at most one *)

Lemma Cabs_mul (a b : C) : Cx.abs (Cx.mul a b) = Cx.abs a * Cx.abs b.
Proof.
  rewrite !Cabs_norm_sq, norm_sq_mul. apply sqrt_mult; apply norm_sq_nonneg.
Qed.

Lemma Cabs_conj (a : C) : Cx.abs (Cx.conj a) = Cx.abs a.
Proof. now rewrite !Cabs_norm_sq, norm_sq_conj. Qed.

Lemma Cabs_unit_phase (x : R) : Cx.abs (unit_phase x) = 1.
Proof. rewrite Cabs_norm_sq, unit_phase_norm. apply sqrt_1. Qed.

(** The Cauchy-Schwarz inequality for sums over a list. *)
Lemma Rsum_cauchy_schwarz {A} (f g : A -> R) (l : list A) :
  Rsum (map (fun x => f x * g x) l)
  <= sqrt (Rsum (map (fun x => f x * f x) l)) * sqrt (Rsum (map (fun x => g x * g x) l)).
Proof.
  induction l as [| x l IH]; simpl.
  - rewrite sqrt_0. lra.
  - set (P := Rsum (map (fun x => f x * f x) l)) in *.
    set (Q := Rsum (map (fun x => g x * g x) l)) in *.
    assert (HP : 0 <= P) by (apply Rsum_nonneg; intros; nra).
    assert (HQ : 0 <= Q) by (apply Rsum_nonneg; intros; nra).
    pose proof (sqrt_cauchy (f x) (sqrt P) (g x) (sqrt Q)) as Hc.
    rewrite (Rsqr_sqrt P HP), (Rsqr_sqrt Q HQ) in Hc. unfold Rsqr in Hc. lra.
Qed.

(** The sum of the magnitudes of the unnormalised cross-power spectrum
    is at most the geometric mean of the energies. *)
Lemma image_product_magnitude_sum (ref mov : ndarray) (space : string) :
  valid_inputs ref mov ->
  Rsum (map (fun k => Cx.abs (get (image_product_of ref mov space None) k))
          (indices (shape ref)))
  <= sqrt (energy (to_freq space ref)) * sqrt (energy (to_freq space mov)).
Proof.
  intros Hv. pose proof Hv as (Hwr & Hwm & Hsh & Hpos).
  pose proof (wf_to_freq space _ Hwr) as HwF.
  pose proof (wf_to_freq space _ Hwm) as HwG.
  rewrite !energy_as_sum, (flat_as_gets _ HwF), (flat_as_gets _ HwG), !map_map.
  rewrite !shape_to_freq, <- Hsh.
  rewrite (Rsum_map_ext (fun k => norm_sq (get (to_freq space ref) k))
             (fun k => Cx.abs (get (to_freq space ref) k)
                       * Cx.abs (get (to_freq space ref) k)))
    by (intros k _; symmetry; apply Cabs_sq).
  rewrite (Rsum_map_ext (fun k => norm_sq (get (to_freq space mov) k))
             (fun k => Cx.abs (get (to_freq space mov) k)
                       * Cx.abs (get (to_freq space mov) k)))
    by (intros k _; symmetry; apply Cabs_sq).
  rewrite (Rsum_map_ext
             (fun k => Cx.abs (get (image_product_of ref mov space None) k))
             (fun k => Cx.abs (get (to_freq space ref) k)
                       * Cx.abs (get (to_freq space mov) k))).
  - apply Rsum_cauchy_schwarz.
  - intros k Hk. apply in_indices in Hk.
    rewrite get_image_product by assumption.
    cbn [normalize]. now rewrite Cabs_mul, Cabs_conj.
Qed.

(** With [normalization = None] no entry of the cross-correlation, and
    no entry of the upsampled patch, exceeds in magnitude what the
    energies of the two spectra allow. *)
Lemma cross_correlation_magnitude_bound (ref mov : ndarray) (space : string)
    (n : list nat) :
  valid_inputs ref mov -> in_bounds n (shape ref) ->
  Cx.abs (get (cross_correlation_of ref mov space None) n)
  <= sqrt (energy (to_freq space ref)) * sqrt (energy (to_freq space mov))
     / INR (prod (shape ref)).
Proof.
  intros Hv Hn. pose proof Hv as (_ & _ & _ & Hpos).
  pose proof (prod_INR_pos _ Hpos) as HN.
  pose proof (shape_image_product ref mov space None) as Hs.
  unfold cross_correlation_of, val.ifftn. rewrite get_build by now rewrite Hs.
  unfold size. rewrite Hs, Cabs_div_R by exact HN.
  apply Rmult_le_compat_r; [left; now apply Rinv_0_lt_compat |].
  eapply Rle_trans; [| apply (image_product_magnitude_sum ref mov space Hv)].
  unfold csum_idx. eapply Rle_trans; [apply Cabs_sum_le |].
  right. apply Rsum_map_ext. intros k _.
  now rewrite Cabs_mul, twiddle_inverse_phase, Cabs_unit_phase, Rmult_1_r.
Qed.

Lemma upsampled_patch_magnitude_bound (ref mov : ndarray) (space : string)
    (uf : Z) (ks : list nat) :
  valid_inputs ref mov ->
  is_complex (dtype (image_product_of ref mov space None)) = true ->
  in_bounds ks (repeat (Z.to_nat (upsampled_region_size_of uf)) (length (shape ref))) ->
  Cx.abs (get (upsampled_patch ref mov space None uf) ks)
  <= sqrt (energy (to_freq space ref)) * sqrt (energy (to_freq space mov)).
Proof.
  intros Hv Hc Hks.
  rewrite upsampled_patch_entry by assumption.
  eapply Rle_trans; [| apply (image_product_magnitude_sum ref mov space Hv)].
  unfold csum_idx. eapply Rle_trans; [apply Cabs_sum_le |].
  right. apply Rsum_map_ext. intros k _.
  now rewrite Cabs_mul, Cabs_unit_phase, Rmult_1_r.
Qed.

Lemma energy_nonneg (F : ndarray) : 0 <= energy F.
Proof.
  rewrite energy_as_sum. apply Rsum_nonneg. intros z _. apply norm_sq_nonneg.
Qed.

Lemma error_at_most_one (z : C) (a b : R) :
  0 < a -> 0 < b -> Cx.abs z <= sqrt a * sqrt b ->
  0 <= _compute_error z a b <= 1.
Proof.
  intros Ha Hb Hz. rewrite compute_error_formula.
  split; [apply sqrt_pos |].
  apply Rle_trans with (sqrt 1); [apply sqrt_le_1_alt | rewrite sqrt_1; lra].
  assert (Hab : 0 < a * b) by now apply Rmult_lt_0_compat.
  assert (Hm : 0 <= (Cx.abs z)²) by apply Rle_0_sqr.
  assert (Hle : (Cx.abs z)² <= a * b).
  { pose proof (Cabs_nonneg z) as H0.
    pose proof (sqrt_sqrt a ltac:(lra)) as Ea. pose proof (sqrt_sqrt b ltac:(lra)) as Eb.
    pose proof (sqrt_pos a). pose proof (sqrt_pos b).
    unfold Rsqr.
    replace (a * b) with ((sqrt a * sqrt b) * (sqrt a * sqrt b)) by nra.
    apply Rmult_le_compat; try lra. }
  assert (Hq : 0 <= (Cx.abs z)² / (a * b) <= 1).
  { split.
    - apply Rmult_le_pos; [exact Hm | left; now apply Rinv_0_lt_compat].
    - apply (Rmult_le_reg_r (a * b)); [exact Hab |].
      unfold Rdiv. rewrite Rmult_assoc, Rinv_l by lra. lra. }
  rewrite Rabs_pos_eq; lra.
Qed.

(** With [normalization = None] and two images that are not zero
    everywhere, the error returned by a valid call lies between zero
    and one.  (With [upsample_factor > 1] the cross-power spectrum is
    taken to have a complex element type, as it has for real-space
    inputs and for complex spectra.) *)
Theorem unnormalized_error_is_between_zero_and_one
    (reference_image moving_image : ndarray) (upsample_factor : Z) (space : string)
    (overlap_ratio : R) :
  valid_inputs reference_image moving_image -> valid_space space ->
  (1 <= upsample_factor)%Z ->
  ((1 < upsample_factor)%Z ->
   is_complex (dtype (image_product_of reference_image moving_image space None)) = true) ->
  energy (to_freq space reference_image) <> 0 ->
  energy (to_freq space moving_image) <> 0 ->
  exists shift error phasediff,
    outcome (phase_cross_correlation reference_image moving_image upsample_factor
               space false None None overlap_ratio None)
    = inr (shift, error, phasediff)
    /\ 0 <= error <= 1.
Proof.
  intros Hv Hsp Huf Hc HEr HEm. pose proof Hv as (Hwr & Hwm & Hsh & Hpos).
  pose proof (prod_INR_pos _ Hpos) as HN.
  pose proof (energy_nonneg (to_freq space reference_image)) as H0r.
  pose proof (energy_nonneg (to_freq space moving_image)) as H0m.
  destruct (Z.eq_dec upsample_factor 1) as [-> | Hne].
  - rewrite pcc_outcome_integer by (try assumption; now left). cbv zeta.
    do 3 eexists. split; [reflexivity |].
    unfold size. rewrite !shape_to_freq, <- Hsh.
    set (N := INR (prod (shape reference_image))) in *.
    apply error_at_most_one.
    + apply Rmult_lt_0_compat; [lra | now apply Rinv_0_lt_compat].
    + apply Rmult_lt_0_compat; [lra | now apply Rinv_0_lt_compat].
    + eapply Rle_trans.
      * apply cross_correlation_magnitude_bound; [exact Hv |].
        now apply cross_correlation_peak_in_bounds.
      * fold N. right.
        unfold Rdiv. rewrite !sqrt_mult by (try lra; left; now apply Rinv_0_lt_compat).
        pose proof (sqrt_sqrt (/ N) ltac:(left; now apply Rinv_0_lt_compat)) as E.
        rewrite <- E at 1. ring.
  - rewrite pcc_outcome_upsampled by (try assumption; try lia; now left). cbv zeta.
    do 3 eexists. split; [reflexivity |].
    apply error_at_most_one; try lra.
    apply upsampled_patch_magnitude_bound; [exact Hv | apply Hc; lia |].
    apply upsampled_patch_peak_in_bounds; [exact Hv | lia].
Qed.

Lemma unnormalized_error_is_between_zero_and_one_witness :
  exists shift error phasediff,
    outcome (phase_cross_correlation example_reference example_moving 2
               "fourier" false None None 0 None)
    = inr (shift, error, phasediff)
    /\ 0 <= error <= 1.
Proof.
  apply (unnormalized_error_is_between_zero_and_one example_reference example_moving 2
           "fourier" 0).
  - exact example_valid_inputs.
  - right. reflexivity.
  - lia.
  - reflexivity.
  - rewrite energy_as_sum. unfold norm_sq, Rsum. simpl. lra.
  - rewrite energy_as_sum. unfold norm_sq, Rsum. simpl. lra.
Defined.

(** ** The first maximum *)

Lemma argmax_from_reaches (l : list R) :
  forall (best : R) (besti i p : nat),
    (p < length l)%nat -> best < nth p l 0 ->
    (forall j, (j < length l)%nat -> nth j l 0 <= nth p l 0) ->
    (forall j, (j < p)%nat -> nth j l 0 < nth p l 0) ->
    val.argmax_from best besti i l = (i + p)%nat.
Proof.
  induction l as [| x l IH]; intros best besti i p Hp Hb Hmax Hfirst; simpl in Hp;
    [lia |].
  destruct p as [| p].
  - cbn [nth] in *. cbn [val.argmax_from].
    destruct (Rlt_dec best x) as [_ | H]; [| contradiction].
    rewrite argmax_from_keeps; [lia |].
    intros y Hy. destruct (In_nth _ _ 0 Hy) as (j & Hj & <-).
    apply (Hmax (S j)). simpl. lia.
  - cbn [nth] in *. cbn [val.argmax_from].
    assert (Hx : x < nth p l 0) by (apply (Hfirst 0%nat); lia).
    assert (Hmax' : forall j, (j < length l)%nat -> nth j l 0 <= nth p l 0)
      by (intros j Hj; apply (Hmax (S j)); simpl; lia).
    assert (Hfirst' : forall j, (j < p)%nat -> nth j l 0 < nth p l 0)
      by (intros j Hj; apply (Hfirst (S j)); lia).
    destruct (Rlt_dec best x).
    + rewrite (IH x i (S i) p) by (try assumption; lia). lia.
    + rewrite (IH best besti (S i) p) by (try assumption; lia). lia.
Qed.

Lemma argmax_is_first_max (l : list R) (p : nat) :
  (p < length l)%nat ->
  (forall j, (j < length l)%nat -> nth j l 0 <= nth p l 0) ->
  (forall j, (j < p)%nat -> nth j l 0 < nth p l 0) ->
  val.argmax l = p.
Proof.
  destruct l as [| x l]; simpl; [lia |]. intros Hp Hmax Hfirst.
  destruct p as [| p].
  - apply argmax_from_keeps. intros y Hy.
    destruct (In_nth _ _ 0 Hy) as (j & Hj & <-). apply (Hmax (S j)). lia.
  - rewrite (argmax_from_reaches l x 0 1 p).
    + reflexivity.
    + lia.
    + apply (Hfirst 0%nat). lia.
    + intros j Hj. apply (Hmax (S j)). lia.
    + intros j Hj. apply (Hfirst (S j)). lia.
Qed.

Lemma unravel_ravel (s idx : list nat) :
  in_bounds idx s -> unravel_index (ravel s idx) s = idx.
Proof.
  intros H. rewrite <- nth_indices_unravel by now apply ravel_lt.
  now apply nth_indices.
Qed.

(** The peak is the first index, in row-major order, at which the
    maximum magnitude is reached. *)
Lemma first_maximum_is_peak (a : ndarray) (m : list nat) :
  wf a -> in_bounds m (shape a) ->
  (forall idx, in_bounds idx (shape a) -> Cx.abs (get a idx) <= Cx.abs (get a m)) ->
  (forall idx, in_bounds idx (shape a) ->
     (ravel (shape a) idx < ravel (shape a) m)%nat ->
     Cx.abs (get a idx) < Cx.abs (get a m)) ->
  peak a = m.
Proof.
  intros Hwf Hm Hmax Hfirst. unfold peak.
  rewrite <- (unravel_ravel (shape a) m Hm). f_equal.
  pose proof (ravel_lt _ _ Hm) as Hr. unfold wf in Hwf.
  assert (Hlen : length (map Cx.re (flat (val.abs a))) = prod (shape a))
    by (unfold val.abs, map_arr; cbn [flat]; now rewrite !length_map).
  assert (Hnth : forall i, (i < prod (shape a))%nat ->
             nth i (map Cx.re (flat (val.abs a))) 0
             = Cx.abs (get a (unravel_index i (shape a)))).
  { intros i Hi. unfold val.abs, map_arr. cbn [flat]. rewrite map_map.
    rewrite (nth_map_in_range _ _ _ Cx.zero).
    - cbn [Cx.re Cx.of_R fst]. unfold get. now rewrite ravel_unravel.
    - eapply Nat.lt_le_trans; [exact Hi |]. apply Nat.eq_le_incl. symmetry. exact Hwf. }
  apply argmax_is_first_max.
  - now rewrite Hlen.
  - intros j Hj. rewrite Hlen in Hj. rewrite !Hnth by assumption.
    rewrite (unravel_ravel _ _ Hm). apply Hmax. now apply unravel_index_in_bounds.
  - intros j Hj. rewrite !Hnth by lia.
    rewrite (unravel_ravel _ _ Hm). apply Hfirst.
    + apply unravel_index_in_bounds. lia.
    + rewrite ravel_unravel by lia. exact Hj.
Qed.

Lemma ravel_mono (s m idx : list nat) :
  length m = length s -> Forall2 le m idx ->
  (ravel s m <= ravel s idx)%nat.
Proof.
  intros Hl H. revert s Hl.
  induction H as [| a b m idx Hab _ IH]; intros [| d s] Hl; simpl in *; try lia.
  specialize (IH s ltac:(lia)). nia.
Qed.

(** ** The rounded estimate and the offsets for an integer translation *)

Lemma rounded_translation_shift (uf : Z) (s t : list nat) :
  (0 < uf)%Z ->
  rounded_shift uf (translation_shift s t) = translation_shift s t.
Proof.
  intros Hu. unfold rounded_shift, translation_shift, map2.
  rewrite map_map. apply map_ext. intros [N t0]. cbn [fst snd].
  destruct (2 * t0 <? N)%nat.
  - replace (- INR t0) with (IZR (- Z.of_nat t0))
      by (now rewrite opp_IZR, <- INR_IZR_INZ).
    now apply rounded_integer.
  - replace (INR N - INR t0) with (IZR (Z.of_nat N - Z.of_nat t0))
      by (now rewrite minus_IZR, <- !INR_IZR_INZ).
    now apply rounded_integer.
Qed.

Lemma axis_angle_translated (uf : Z) (N t n k : nat) (c : R) :
  (t < N)%nat -> (n < N)%nat -> uf <> 0%Z ->
  exists z : Z,
    INR n * INR t / INR N
    + (INR k - (c - (if (2 * t <? N)%nat then - INR t else INR N - INR t) * IZR uf))
      * (IZR (jnp.fftfreq_index N n) / (INR N * IZR uf))
    = (INR k - c) * (IZR (jnp.fftfreq_index N n) / (INR N * IZR uf)) + IZR z.
Proof.
  intros Ht Hn Hu.
  assert (HN : INR N <> 0) by (apply not_0_INR; lia).
  assert (Huf : IZR uf <> 0) by now apply not_0_IZR.
  unfold jnp.fftfreq_index.
  destruct (2 * t <? N)%nat, (n <=? (N - 1) / 2)%nat.
  - exists 0%Z. rewrite <- INR_IZR_INZ. field. split; assumption.
  - exists (Z.of_nat t). rewrite minus_IZR, <- !INR_IZR_INZ. field. split; assumption.
  - exists (Z.of_nat n). rewrite <- !INR_IZR_INZ. field. split; assumption.
  - exists (Z.of_nat n - Z.of_nat N + Z.of_nat t)%Z.
    rewrite plus_IZR, !minus_IZR, <- !INR_IZR_INZ. field. split; assumption.
Qed.

(** With the offsets of an integer translation, the angle of a patch
    entry and the angle of the translation add up, modulo whole turns,
    to the angle of the patch entry about the centre. *)
Lemma patch_angle_translated (uf : Z) (c : R) (s t : list nat) :
  uf <> 0%Z -> in_bounds t s ->
  forall n ks, in_bounds n s -> length ks = length s ->
    exists z : Z,
      val.dft_angle s n t
      + patch_angle uf s
          (map (fun x => c - x * IZR uf) (translation_shift s t)) ks n
      = patch_angle uf s (repeat c (length s)) ks n + IZR z.
Proof.
  intros Hu Ht. unfold translation_shift, map2.
  induction Ht as [| t0 N t s Ht0 _ IH]; intros n ks Hn Hk.
  - exists 0%Z. destruct n; simpl; lra.
  - inversion Hn as [| n0 N' n' s' Hn0 Hn']; subst.
    destruct ks as [| k ks]; [discriminate |]. simpl in Hk.
    destruct (IH n' ks Hn' ltac:(lia)) as [z Hz].
    destruct (axis_angle_translated uf N t0 n0 k c Ht0 Hn0 Hu) as [z0 Hz0].
    exists (z0 + z)%Z.
    cbn [combine map fst snd val.dft_angle patch_angle length repeat].
    rewrite plus_IZR. lra.
Qed.

(** ** Angles about the centre of the patch *)

Lemma fftfreq_index_0 (N : nat) : jnp.fftfreq_index N 0 = 0%Z.
Proof. reflexivity. Qed.

Lemma patch_angle_origin (uf : Z) (s : list nat) :
  forall (offs : list R) (ks : list nat),
    patch_angle uf s offs ks (origin (length s)) = 0.
Proof.
  induction s as [| N s IH]; intros [| o offs] [| k ks]; simpl; try reflexivity.
  rewrite IH. unfold jnp.fftfreq_index. simpl. unfold Rdiv. ring.
Qed.

Lemma patch_angle_unit (uf : Z) (s : list nat) :
  forall (offs : list R) (ks : list nat) (d : nat),
    (d < length s)%nat -> length offs = length s -> length ks = length s ->
    patch_angle uf s offs ks (unit_index (length s) d)
    = (INR (nth d ks 0%nat) - nth d offs 0)
      * (IZR (jnp.fftfreq_index (nth d s 0%nat) 1) / (INR (nth d s 0%nat) * IZR uf)).
Proof.
  induction s as [| N s IH]; intros [| o offs] [| k ks] d Hd Ho Hk; simpl in *;
    try lia.
  destruct d as [| d]; cbn [patch_angle nth].
  - rewrite patch_angle_origin. ring.
  - rewrite IH by lia. unfold jnp.fftfreq_index at 1. simpl. unfold Rdiv. ring.
Qed.

Lemma off_center_axis_some (s : list nat) (c : nat) :
  forall (ks : list nat) (d : nat),
    off_center_axis s c ks = Some d ->
    (d < length s)%nat /\ (d < length ks)%nat
    /\ (1 < nth d s 0)%nat /\ nth d ks 0%nat <> c.
Proof.
  induction s as [| N s IH]; intros [| k ks] d H; simpl in H; try discriminate.
  destruct ((1 <? N) && negb (k =? c))%nat eqn:E.
  - injection H as <-. apply andb_prop in E. destruct E as [E1 E2].
    apply Nat.ltb_lt in E1. apply negb_true_iff, Nat.eqb_neq in E2.
    simpl. repeat split; try lia; assumption.
  - destruct (off_center_axis s c ks) as [d' |] eqn:E'; [| discriminate].
    injection H as <-. destruct (IH ks d' E') as (H1 & H2 & H3 & H4).
    simpl. repeat split; try lia; assumption.
Qed.

Lemma off_center_axis_none_angle (uf : Z) (s : list nat) (c : nat) :
  forall (ks ns : list nat),
    off_center_axis s c ks = None -> in_bounds ns s -> length ks = length s ->
    patch_angle uf s (repeat (INR c) (length s)) ks ns = 0.
Proof.
  induction s as [| N s IH]; intros [| k ks] ns H Hn Hk; simpl in Hk; try lia.
  - destruct ns; reflexivity.
  - inversion Hn as [| n0 N' n' s' Hn0 Hn']; subst.
    simpl in H.
    destruct ((1 <? N) && negb (k =? c))%nat eqn:E; [discriminate |].
    destruct (off_center_axis s c ks) eqn:E'; [discriminate |].
    cbn [length repeat patch_angle]. rewrite (IH ks n' E' Hn') by lia.
    apply andb_false_iff in E. destruct E as [E | E].
    + apply Nat.ltb_ge in E. assert (n0 = 0%nat) by lia. subst n0.
      rewrite fftfreq_index_0. unfold Rdiv. ring.
    + apply negb_false_iff, Nat.eqb_eq in E. subst k. ring.
Qed.

Lemma off_center_axis_none_le (s : list nat) (c : nat) :
  forall ks : list nat,
    off_center_axis s c ks = None -> length ks = length s ->
    Forall (fun d => (0 < d)%nat) s ->
    Forall2 le (patch_center s c) ks.
Proof.
  induction s as [| N s IH]; intros [| k ks] H Hk Hpos; simpl in Hk; try lia.
  - constructor.
  - inversion Hpos as [| N' s' HN Hpos']; subst.
    simpl in H.
    destruct ((1 <? N) && negb (k =? c))%nat eqn:E; [discriminate |].
    destruct (off_center_axis s c ks) eqn:E'; [discriminate |].
    cbn [patch_center map]. constructor; [| apply IH; try assumption; lia].
    apply andb_false_iff in E. destruct E as [E | E].
    + apply Nat.ltb_ge in E. assert (N = 1%nat) by lia. subst N. simpl. lia.
    + apply negb_false_iff, Nat.eqb_eq in E. subst k.
      destruct (N =? 1)%nat; lia.
Qed.

Lemma off_center_axis_center (s : list nat) (c : nat) :
  off_center_axis s c (patch_center s c) = None.
Proof.
  induction s as [| N s IH]; simpl; [reflexivity |].
  fold (patch_center s c). rewrite IH.
  destruct (Nat.eqb_spec N 1) as [-> | HN]; simpl; [reflexivity |].
  rewrite Nat.eqb_refl. cbn [negb]. now rewrite andb_false_r.
Qed.

Lemma patch_center_in_bounds (s : list nat) (c K : nat) :
  (c < K)%nat -> in_bounds (patch_center s c) (repeat K (length s)).
Proof.
  intros Hc. induction s as [| N s IH]; simpl; constructor; [| exact IH].
  destruct (N =? 1)%nat; lia.
Qed.

(** [cos (2 pi x) < 1] for [0 < |x| < 1]. *)
Lemma cos_fraction_lt_1 (x : R) : 0 < Rabs x < 1 -> cos (2 * PI * x) < 1.
Proof.
  intros Hx. pose proof PI_RGT_0 as Hpi.
  assert (E : cos (2 * PI * x) = cos (2 * (PI * Rabs x))).
  { unfold Rabs. destruct (Rcase_abs x).
    - replace (2 * (PI * - x)) with (- (2 * PI * x)) by ring. now rewrite cos_neg.
    - f_equal. ring. }
  rewrite E, cos_2a_sin.
  assert (Hs : 0 < sin (PI * Rabs x)) by (apply sin_gt_0; nra).
  nra.
Qed.

(** ** The upsampled patch of an image and its translate *)

Lemma translated_image_product_entry (ref mov : ndarray) (space : string)
    (norm : option string) (t k : list nat) :
  valid_inputs ref mov ->
  spectrum_translated (to_freq space ref) (to_freq space mov) t ->
  in_bounds k (shape ref) ->
  get (image_product_of ref mov space norm) k
  = Cx.mul (Cx.of_R (spectral_weight norm (100 * finfo_eps (float_dtype_of ref mov))
                       (norm_sq (get (to_freq space ref) k))))
      (unit_phase (val.dft_angle (shape ref) k t)).
Proof.
  intros Hv Htr Hk.
  rewrite get_image_product by assumption.
  rewrite (Htr k) by now rewrite shape_to_freq.
  rewrite shape_to_freq, twiddle_forward_phase, mul_conj_phase.
  apply normalize_scaled_phase, norm_sq_nonneg.
Qed.

Lemma dftshift_nonneg (uf : Z) : (1 < uf)%Z -> (0 <= dftshift_of uf)%Z.
Proof.
  intros H. rewrite dftshift_closed.
  apply Z.div_pos; [| lia]. apply Z.div_pos; lia.
Qed.

Lemma dftshift_in_patch (uf : Z) :
  (1 < uf)%Z ->
  (Z.to_nat (dftshift_of uf) < Z.to_nat (upsampled_region_size_of uf))%nat.
Proof.
  intros H. rewrite dftshift_closed, upsampled_region_size_closed.
  assert (2 <= (3 * uf + 1) / 2)%Z by (apply Z.div_le_lower_bound; lia).
  assert ((3 * uf + 1) / 2 / 2 < (3 * uf + 1) / 2)%Z
    by (apply Z.div_lt_upper_bound; lia).
  assert (0 <= (3 * uf + 1) / 2 / 2)%Z by (apply Z.div_pos; lia).
  lia.
Qed.

Lemma patch_size_bound (uf : Z) :
  (1 < uf)%Z -> INR (Z.to_nat (upsampled_region_size_of uf)) <= 2 * IZR uf.
Proof.
  intros H. rewrite upsampled_region_size_closed.
  assert (H2 : (2 <= (3 * uf + 1) / 2)%Z) by (apply Z.div_le_lower_bound; lia).
  assert (H3 : ((3 * uf + 1) / 2 <= 2 * uf)%Z)
    by (apply Z.lt_succ_r, Z.div_lt_upper_bound; lia).
  rewrite INR_IZR_INZ, Z2Nat.id by lia.
  rewrite <- mult_IZR. now apply IZR_le.
Qed.

Lemma translated_patch_entry (ref mov : ndarray) (space : string)
    (norm : option string) (uf : Z) (t ks : list nat) :
  valid_inputs ref mov ->
  spectrum_translated (to_freq space ref) (to_freq space mov) t ->
  in_bounds t (shape ref) ->
  peak (cross_correlation_of ref mov space norm) = translation_peak (shape ref) t ->
  (1 < uf)%Z ->
  is_complex (dtype (image_product_of ref mov space norm)) = true ->
  in_bounds ks (repeat (Z.to_nat (upsampled_region_size_of uf)) (length (shape ref))) ->
  get (upsampled_patch ref mov space norm uf) ks
  = csum_idx (shape ref)
      (fun n =>
         Cx.mul (Cx.of_R (spectral_weight norm
                            (100 * finfo_eps (float_dtype_of ref mov))
                            (norm_sq (get (to_freq space ref) n))))
           (unit_phase (patch_angle uf (shape ref)
                          (repeat (INR (Z.to_nat (dftshift_of uf))) (length (shape ref)))
                          ks n))).
Proof.
  intros Hv Htr Ht Hpk Hu Hc Hks.
  rewrite upsampled_patch_entry by assumption.
  unfold patch_offsets. rewrite Hpk, integer_shift_translation by exact Ht.
  rewrite rounded_translation_shift by lia.
  unfold sample_region_offset_of.
  assert (Ec : IZR (dftshift_of uf) = INR (Z.to_nat (dftshift_of uf))).
  { rewrite INR_IZR_INZ, Z2Nat.id; [reflexivity | now apply dftshift_nonneg]. }
  rewrite Ec.
  apply csum_idx_ext. intros n Hn.
  rewrite (translated_image_product_entry ref mov space norm t n) by assumption.
  rewrite <- Cmul_assoc, unit_phase_add.
  destruct (patch_angle_translated uf (INR (Z.to_nat (dftshift_of uf))) (shape ref) t
              ltac:(lia) Ht n ks Hn) as [z Hz].
  { apply in_bounds_length in Hks. now rewrite repeat_length in Hks. }
  now rewrite Hz, unit_phase_period.
Qed.

Lemma translated_patch_at_center (ref mov : ndarray) (space : string)
    (norm : option string) (uf : Z) (t ks : list nat) :
  valid_inputs ref mov ->
  spectrum_translated (to_freq space ref) (to_freq space mov) t ->
  in_bounds t (shape ref) ->
  peak (cross_correlation_of ref mov space norm) = translation_peak (shape ref) t ->
  (1 < uf)%Z ->
  is_complex (dtype (image_product_of ref mov space norm)) = true ->
  in_bounds ks (repeat (Z.to_nat (upsampled_region_size_of uf)) (length (shape ref))) ->
  off_center_axis (shape ref) (Z.to_nat (dftshift_of uf)) ks = None ->
  get (upsampled_patch ref mov space norm uf) ks
  = Cx.of_R (total_weight (to_freq space ref) norm
               (100 * finfo_eps (float_dtype_of ref mov))).
Proof.
  intros Hv Htr Ht Hpk Hu Hc Hks Hoff.
  rewrite (translated_patch_entry ref mov space norm uf t ks) by assumption.
  unfold total_weight. rewrite shape_to_freq, <- Csum_of_R.
  apply csum_idx_ext. intros n Hn.
  rewrite off_center_axis_none_angle; try assumption.
  - rewrite unit_phase_0. apply Cmul_1_r.
  - apply in_bounds_length in Hks. now rewrite repeat_length in Hks.
Qed.

Lemma translated_patch_bound (ref mov : ndarray) (space : string)
    (norm : option string) (uf : Z) (t ks : list nat) :
  valid_inputs ref mov ->
  spectrum_translated (to_freq space ref) (to_freq space mov) t ->
  in_bounds t (shape ref) ->
  peak (cross_correlation_of ref mov space norm) = translation_peak (shape ref) t ->
  (1 < uf)%Z ->
  is_complex (dtype (image_product_of ref mov space norm)) = true ->
  in_bounds ks (repeat (Z.to_nat (upsampled_region_size_of uf)) (length (shape ref))) ->
  Cx.abs (get (upsampled_patch ref mov space norm uf) ks)
  <= total_weight (to_freq space ref) norm (100 * finfo_eps (float_dtype_of ref mov)).
Proof.
  intros Hv Htr Ht Hpk Hu Hc Hks.
  rewrite (translated_patch_entry ref mov space norm uf t ks) by assumption.
  unfold csum_idx. eapply Rle_trans; [apply Cabs_sum_le |].
  unfold total_weight. rewrite shape_to_freq. right.
  apply Rsum_map_ext. intros k _. apply Cabs_scaled_phase.
  apply spectral_weight_nonneg; [apply finfo_eps_pos | apply norm_sq_nonneg].
Qed.

Lemma fftfreq_index_1 (N : nat) :
  (1 < N)%nat -> jnp.fftfreq_index N 1 = 1%Z \/ jnp.fftfreq_index N 1 = (-1)%Z.
Proof.
  intros HN. unfold jnp.fftfreq_index.
  destruct (Nat.leb_spec 1 ((N - 1) / 2)) as [H | H]; [left; reflexivity |].
  right. assert (N = 2%nat); [| subst; reflexivity].
  destruct (Nat.le_gt_cases 3 N) as [H3 | H3]; [| lia].
  assert (1 <= (N - 1) / 2)%nat by (apply Nat.div_le_lower_bound; lia). lia.
Qed.

Lemma translated_patch_off_center (ref mov : ndarray) (space : string)
    (norm : option string) (uf : Z) (t ks : list nat) (d : nat) :
  valid_inputs ref mov ->
  spectrum_translated (to_freq space ref) (to_freq space mov) t ->
  in_bounds t (shape ref) ->
  peak (cross_correlation_of ref mov space norm) = translation_peak (shape ref) t ->
  (1 < uf)%Z ->
  is_complex (dtype (image_product_of ref mov space norm)) = true ->
  get (to_freq space ref) (origin (ndim ref)) <> Cx.zero ->
  (forall d, (d < ndim ref)%nat -> (1 < nth d (shape ref) 0)%nat ->
     get (to_freq space ref) (unit_index (ndim ref) d) <> Cx.zero) ->
  in_bounds ks (repeat (Z.to_nat (upsampled_region_size_of uf)) (length (shape ref))) ->
  off_center_axis (shape ref) (Z.to_nat (dftshift_of uf)) ks = Some d ->
  Cx.abs (get (upsampled_patch ref mov space norm uf) ks)
  < total_weight (to_freq space ref) norm (100 * finfo_eps (float_dtype_of ref mov)).
Proof.
  intros Hv Htr Ht Hpk Hu Hc H0 H1 Hks Hoff. pose proof Hv as (_ & _ & _ & Hpos).
  pose proof (finfo_eps_pos (float_dtype_of ref mov)) as Hce.
  set (ce := 100 * finfo_eps (float_dtype_of ref mov)) in *.
  unfold ndim in *.
  destruct (off_center_axis_some _ _ _ _ Hoff) as (Hd & Hdk & HN & Hkd).
  pose proof (in_bounds_length _ _ Hks) as Hlk. rewrite repeat_length in Hlk.
  assert (Hkb : (nth d ks 0 < Z.to_nat (upsampled_region_size_of uf))%nat).
  { pose proof (in_bounds_nth _ _ d Hks) as H. rewrite repeat_length in H.
    specialize (H Hd). rewrite nth_repeat_lt in H by exact Hd. exact H. }
  rewrite (translated_patch_entry ref mov space norm uf t ks) by assumption.
  fold ce. unfold csum_idx, total_weight. rewrite shape_to_freq.
  set (c := Z.to_nat (dftshift_of uf)) in *.
  set (w := fun k => spectral_weight norm ce (norm_sq (get (to_freq space ref) k))).
  set (f := fun n =>
              Cx.mul (Cx.of_R (w n))
                (unit_phase (patch_angle uf (shape ref)
                               (repeat (INR c) (length (shape ref))) ks n))).
  change (Cx.abs (Cx.sum (map f (indices (shape ref))))
          < Rsum (map w (indices (shape ref)))).
  assert (Hw : forall k, 0 <= w k)
    by (intros k; apply spectral_weight_nonneg; [exact Hce | apply norm_sq_nonneg]).
  rewrite (Rsum_map_ext w (fun k => Cx.abs (f k)))
    by (intros k _; unfold f; symmetry; apply Cabs_scaled_phase, Hw).
  apply (Cabs_sum_lt f _ (origin (length (shape ref)))
           (unit_index (length (shape ref)) d)).
  - apply in_indices. now apply origin_in_bounds.
  - apply in_indices. now apply unit_index_in_bounds.
  - now apply unit_index_not_origin.
  - unfold f. rewrite !Cabs_scaled_phase by apply Hw.
    rewrite patch_angle_origin, unit_phase_0, Cmul_1_r.
    rewrite patch_angle_unit by (try assumption; now rewrite repeat_length).
    rewrite nth_repeat_lt by exact Hd.
    apply Cabs_pair_lt.
    + apply spectral_weight_pos; [exact Hce | now apply norm_sq_pos].
    + apply spectral_weight_pos; [exact Hce |]. apply norm_sq_pos. now apply H1.
    + apply cos_fraction_lt_1.
      set (N := nth d (shape ref) 0%nat) in *. set (k := nth d ks 0%nat) in *.
      pose proof (dftshift_in_patch uf Hu) as Hcb. fold c in Hcb.
      pose proof (patch_size_bound uf Hu) as HK.
      set (K := Z.to_nat (upsampled_region_size_of uf)) in *.
      assert (HuR : 1 < IZR uf) by now apply IZR_lt.
      assert (HNR : 2 <= INR N) by (apply (le_INR 2); lia).
      assert (Hden : 0 < INR N * IZR uf) by nra.
      assert (Hnum : 1 <= Rabs (INR k - INR c) < INR K).
      { apply lt_INR in Hkb, Hcb.
        pose proof (pos_INR k). pose proof (pos_INR c).
        destruct (Nat.lt_total k c) as [Hlt | [Heq | Hgt]]; [| contradiction |].
        - assert (Hle : INR (k + 1) <= INR c) by (apply le_INR; lia).
          rewrite plus_INR in Hle. simpl in Hle.
          rewrite Rabs_left by lra. lra.
        - assert (Hle : INR (c + 1) <= INR k) by (apply le_INR; lia).
          rewrite plus_INR in Hle. simpl in Hle.
          rewrite Rabs_right by lra. lra. }
      assert (E : Rabs ((INR k - INR c)
                        * (IZR (jnp.fftfreq_index N 1) / (INR N * IZR uf)))
                  = Rabs (INR k - INR c) / (INR N * IZR uf)).
      { rewrite Rabs_mult. unfold Rdiv. rewrite Rabs_mult.
        rewrite (Rabs_pos_eq (/ (INR N * IZR uf)))
          by (left; now apply Rinv_0_lt_compat).
        destruct (fftfreq_index_1 N HN) as [-> | ->].
        - rewrite Rabs_R1. ring.
        - replace (IZR (-1)) with (- (1)) by lra.
          rewrite Rabs_Ropp, Rabs_R1. ring. }
      rewrite E. split.
      * apply Rdiv_lt_0_compat; lra.
      * apply (Rmult_lt_reg_r (INR N * IZR uf)); [exact Hden |].
        unfold Rdiv. rewrite Rmult_assoc, Rinv_l by lra. nra.
Qed.

(** ** Registration of translated images, with refinement *)

Lemma translated_patch_peak (ref mov : ndarray) (space : string)
    (norm : option string) (uf : Z) (t : list nat) :
  valid_inputs ref mov ->
  spectrum_translated (to_freq space ref) (to_freq space mov) t ->
  in_bounds t (shape ref) ->
  peak (cross_correlation_of ref mov space norm) = translation_peak (shape ref) t ->
  (1 < uf)%Z ->
  is_complex (dtype (image_product_of ref mov space norm)) = true ->
  get (to_freq space ref) (origin (ndim ref)) <> Cx.zero ->
  (forall d, (d < ndim ref)%nat -> (1 < nth d (shape ref) 0)%nat ->
     get (to_freq space ref) (unit_index (ndim ref) d) <> Cx.zero) ->
  peak (upsampled_patch ref mov space norm uf)
  = patch_center (shape ref) (Z.to_nat (dftshift_of uf)).
Proof.
  intros Hv Htr Ht Hpk Hu Hc H0 H1. pose proof Hv as (_ & _ & _ & Hpos).
  destruct (upsampled_patch_shape ref mov space norm uf Hv) as [Hs Hwf].
  pose proof (finfo_eps_pos (float_dtype_of ref mov)) as Hce.
  set (c := Z.to_nat (dftshift_of uf)).
  assert (Hm : in_bounds (patch_center (shape ref) c)
                 (repeat (Z.to_nat (upsampled_region_size_of uf)) (length (shape ref))))
    by (apply patch_center_in_bounds, dftshift_in_patch; exact Hu).
  assert (Hcenter : Cx.abs (get (upsampled_patch ref mov space norm uf)
                              (patch_center (shape ref) c))
                    = total_weight (to_freq space ref) norm
                        (100 * finfo_eps (float_dtype_of ref mov))).
  { rewrite (translated_patch_at_center ref mov space norm uf t) by
      first [ assumption | apply off_center_axis_center ].
    apply Cabs_of_R, total_weight_nonneg, Hce. }
  apply first_maximum_is_peak.
  - exact Hwf.
  - now rewrite Hs.
  - rewrite Hs. intros idx Hidx. rewrite Hcenter.
    now apply (translated_patch_bound ref mov space norm uf t).
  - rewrite Hs. intros idx Hidx Hlt. rewrite Hcenter.
    destruct (off_center_axis (shape ref) c idx) as [d |] eqn:Hoff.
    + now apply (translated_patch_off_center ref mov space norm uf t idx d).
    + exfalso.
      pose proof (in_bounds_length _ _ Hidx) as Hl. rewrite repeat_length in Hl.
      pose proof (off_center_axis_none_le _ _ _ Hoff Hl Hpos) as Hle.
      apply (ravel_mono (repeat (Z.to_nat (upsampled_region_size_of uf))
                           (length (shape ref)))) in Hle.
      * lia.
      * unfold patch_center. now rewrite length_map, repeat_length.
Qed.

Lemma refined_shift_at_center (uf : Z) (s t : list nat) :
  (1 < uf)%Z -> in_bounds t s ->
  zero_singleton s
    (refined_shift uf (translation_shift s t)
       (patch_center s (Z.to_nat (dftshift_of uf))))
  = translation_shift s t.
Proof.
  intros Hu Ht.
  assert (Ec : INR (Z.to_nat (dftshift_of uf)) = IZR (dftshift_of uf)).
  { rewrite INR_IZR_INZ, Z2Nat.id; [reflexivity | now apply dftshift_nonneg]. }
  assert (HuR : IZR uf <> 0) by (apply not_0_IZR; lia).
  unfold zero_singleton, refined_shift, translation_shift, patch_center, map2.
  induction Ht as [| t0 N t s Ht0 _ IH]; [reflexivity |].
  cbn [combine map fst snd]. rewrite IH. f_equal.
  destruct (Nat.eqb_spec N 1) as [-> | HN].
  - assert (t0 = 0%nat) by lia. subst t0. simpl. lra.
  - rewrite Ec. field. exact HuR.
Qed.

Lemma translated_registration_refined (ref mov : ndarray) (uf : Z) (space : string)
    (ov : R) (norm : option string) (t : list nat) :
  valid_inputs ref mov -> valid_space space -> valid_normalization norm ->
  in_bounds t (shape ref) ->
  spectrum_translated (to_freq space ref) (to_freq space mov) t ->
  get (to_freq space ref) (origin (ndim ref)) <> Cx.zero ->
  (forall d, (d < ndim ref)%nat -> (1 < nth d (shape ref) 0)%nat ->
     get (to_freq space ref) (unit_index (ndim ref) d) <> Cx.zero) ->
  (1 < uf)%Z ->
  is_complex (dtype (image_product_of ref mov space norm)) = true ->
  exists error,
    outcome (phase_cross_correlation ref mov uf space false None None ov norm)
    = inr (translation_shift (shape ref) t, error, 0)
    /\ (norm = None -> error = 0).
Proof.
  intros Hv Hsp Hn Ht Htr H0 H1 Hu Hc. pose proof Hv as (Hwr & Hwm & Hsh & Hpos).
  pose proof (finfo_eps_pos (float_dtype_of ref mov)) as Hce.
  pose proof (translated_correlation_peak ref mov space norm t Hv Htr Ht H0 H1) as Hpk.
  pose proof (translated_patch_peak ref mov space norm uf t Hv Htr Ht Hpk Hu Hc H0 H1)
    as Hpp.
  rewrite pcc_outcome_upsampled by assumption. cbv zeta.
  rewrite Hpp, Hpk, integer_shift_translation by exact Ht.
  rewrite rounded_translation_shift by lia.
  rewrite refined_shift_at_center by assumption.
  rewrite (translated_patch_at_center ref mov space norm uf t) by
    first [ assumption
          | apply off_center_axis_center
          | apply patch_center_in_bounds, dftshift_in_patch; exact Hu ].
  set (A := total_weight (to_freq space ref) norm
              (100 * finfo_eps (float_dtype_of ref mov))).
  assert (HA : 0 <= A) by (apply total_weight_nonneg; exact Hce).
  eexists. split.
  - f_equal. f_equal. now apply phasediff_of_nonnegative.
  - intros ->.
    rewrite (translated_energy (to_freq space ref) (to_freq space mov) t);
      try assumption; try (now apply wf_to_freq);
      [| rewrite !shape_to_freq; congruence].
    unfold A. rewrite <- energy_as_total_weight by now apply wf_to_freq.
    apply error_of_matched_amplitudes.
    apply nonzero_spectrum_energy.
    + now apply wf_to_freq.
    + now rewrite shape_to_freq.
    + unfold ndim in *. now rewrite shape_to_freq.
Qed.

(** When the spectrum of the moving image is the spectrum of the
    reference image with the linear phase of a translation by [t]
    samples, and the reference spectrum does not vanish at the zero
    frequency and at the first harmonic of every axis longer than one,
    a valid call returns on every axis the shift [- t] taken in
    [(-shape/2, shape/2]] and the phase difference zero, for every
    [upsample_factor >= 1] and either normalization; with
    [normalization = None] the error is zero.  (With
    [upsample_factor > 1] the cross-power spectrum is taken to have a
    complex element type.) *)
Theorem integer_translation_is_recovered
    (reference_image moving_image : ndarray) (upsample_factor : Z) (space : string)
    (overlap_ratio : R) (normalization : option string) (t : list nat) :
  valid_inputs reference_image moving_image -> valid_space space ->
  valid_normalization normalization -> (1 <= upsample_factor)%Z ->
  ((1 < upsample_factor)%Z ->
   is_complex (dtype (image_product_of reference_image moving_image space
                        normalization)) = true) ->
  in_bounds t (shape reference_image) ->
  spectrum_translated (to_freq space reference_image) (to_freq space moving_image) t ->
  get (to_freq space reference_image) (origin (ndim reference_image)) <> Cx.zero ->
  (forall d, (d < ndim reference_image)%nat ->
     (1 < nth d (shape reference_image) 0)%nat ->
     get (to_freq space reference_image) (unit_index (ndim reference_image) d)
     <> Cx.zero) ->
  exists error,
    outcome (phase_cross_correlation reference_image moving_image upsample_factor
               space false None None overlap_ratio normalization)
    = inr (translation_shift (shape reference_image) t, error, 0)
    /\ (normalization = None -> error = 0).
Proof.
  intros Hv Hsp Hn Hu Hc Ht Htr H0 H1. pose proof Hv as (Hwr & Hwm & Hsh & Hpos).
  destruct (Z.eq_dec upsample_factor 1) as [-> | Hne].
  - destruct (registration_result_at_translation_peak reference_image moving_image
                space overlap_ratio normalization t Hv Hsp Hn Ht Htr)
      as (error & Hrun & Herr).
    + now apply translated_correlation_peak.
    + exists error. split; [exact Hrun |].
      intros E. apply Herr; [exact E |].
      apply nonzero_spectrum_energy.
      * now apply wf_to_freq.
      * now rewrite shape_to_freq.
      * unfold ndim in *. now rewrite shape_to_freq.
  - apply translated_registration_refined; try assumption; try lia.
    apply Hc. lia.
Qed.

Lemma integer_translation_is_recovered_witness :
  exists error,
    outcome (phase_cross_correlation example_reference example_translated 20
               "fourier" false None None 0 None)
    = inr (translation_shift [2%nat] [1%nat], error, 0)
    /\ error = 0.
Proof.
  destruct (integer_translation_is_recovered example_reference example_translated 20
              "fourier" 0 None [1%nat]) as (error & Hrun & Herr).
  - exact example_translated_valid.
  - right. reflexivity.
  - left. reflexivity.
  - lia.
  - reflexivity.
  - apply in_bounds_one. lia.
  - exact example_spectrum_translated.
  - apply example_reference_nonzero.
  - apply example_reference_nonzero.
  - exists error. split; [exact Hrun | now apply Herr].
Defined.

Lemma is_complex_result_type (a b : scalar_type) :
  is_complex a = true -> is_complex (result_type a b) = true.
Proof. destruct a, b; simpl; intros H; try discriminate H; reflexivity. Qed.

Lemma is_complex_complex_dtype (d : scalar_type) : is_complex (complex_dtype d) = true.
Proof. now destruct d. Qed.

Lemma real_space_product_is_complex (ref mov : ndarray) (space : string)
    (norm : option string) :
  lower space = "real"%string ->
  is_complex (dtype (image_product_of ref mov space norm)) = true.
Proof.
  intros Hsp. unfold image_product_of, to_freq. rewrite Hsp.
  change ("real" =? "fourier")%string with false. cbv iota.
  destruct norm; cbn [dtype val.divide val.multiply zip_arr val.fftn build];
    repeat apply is_complex_result_type; apply is_complex_complex_dtype.
Qed.

(** When the moving image is the reference image translated
    periodically by [t] samples ([jnp.roll]), and the DFT of the
    reference image does not vanish at the zero frequency and at the
    first harmonic of every axis longer than one, a real-space call
    returns on every axis the shift [- t] taken in [(-shape/2,
    shape/2]] and the phase difference zero, for every
    [upsample_factor >= 1] and either normalization; with
    [normalization = None] the error is zero. *)
Theorem translated_image_is_registered
    (image : ndarray) (t : list nat) (upsample_factor : Z) (space : string)
    (overlap_ratio : R) (normalization : option string) :
  wf image -> Forall (fun d => (0 < d)%nat) (shape image) ->
  in_bounds t (shape image) ->
  lower space = "real"%string -> valid_normalization normalization ->
  (1 <= upsample_factor)%Z ->
  get (val.fftn image) (origin (ndim image)) <> Cx.zero ->
  (forall d, (d < ndim image)%nat -> (1 < nth d (shape image) 0)%nat ->
     get (val.fftn image) (unit_index (ndim image) d) <> Cx.zero) ->
  exists error,
    outcome (phase_cross_correlation image (roll image t) upsample_factor space
               false None None overlap_ratio normalization)
    = inr (translation_shift (shape image) t, error, 0)
    /\ (normalization = None -> error = 0).
Proof.
  intros Hwf Hpos Ht Hsp Hn Hu H0 H1.
  assert (Hv : valid_inputs image (roll image t)).
  { split; [exact Hwf |]. split; [apply wf_roll |]. split; [reflexivity | exact Hpos]. }
  assert (Hf : forall a, to_freq space a = val.fftn a).
  { intros a. unfold to_freq. now rewrite Hsp. }
  assert (Htr : spectrum_translated (to_freq space image)
                  (to_freq space (roll image t)) t).
  { rewrite !Hf. now apply fftn_roll. }
  assert (H0' : get (to_freq space image) (origin (ndim image)) <> Cx.zero)
    by now rewrite Hf.
  assert (H1' : forall d, (d < ndim image)%nat -> (1 < nth d (shape image) 0)%nat ->
             get (to_freq space image) (unit_index (ndim image) d) <> Cx.zero)
    by (rewrite Hf; exact H1).
  destruct (Z.eq_dec upsample_factor 1) as [-> | Hne].
  - destruct (registration_result_at_translation_peak image (roll image t)
                space overlap_ratio normalization t Hv (or_introl Hsp) Hn Ht Htr)
      as (error & Hrun & Herr).
    + now apply translated_correlation_peak.
    + exists error. split; [exact Hrun |].
      intros E. apply Herr; [exact E |].
      rewrite Hf. apply nonzero_spectrum_energy;
        [apply wf_build | exact Hpos | exact H0].
  - apply translated_registration_refined; try assumption; try lia.
    + now left.
    + now apply real_space_product_is_complex.
Qed.

Lemma example_image_dft (k : nat) :
  (k < 2)%nat ->
  get (val.fftn example_image) [k]
  = Cx.add (3, 0) (Cx.conj (quarter_turn (2 * Z.of_nat k))).
Proof.
  intros Hk. unfold val.fftn.
  change (shape example_image) with [2%nat].
  rewrite get_build by (apply in_bounds_one; exact Hk).
  unfold csum_idx. cbn [indices flat_map map seq app Cx.sum fold_right].
  rewrite !twiddle_forward_phase, <- !twiddle_inverse_phase, !twiddle_two.
  change (get example_image [0%nat]) with ((3, 0) : C).
  change (get example_image [1%nat]) with ((1, 0) : C).
  replace (2 * Z.of_nat k * Z.of_nat 0)%Z with 0%Z by lia.
  replace (2 * Z.of_nat k * Z.of_nat 1)%Z with (2 * Z.of_nat k)%Z by lia.
  change (quarter_turn 0) with ((1, 0) : C).
  destruct (quarter_turn (2 * Z.of_nat k)) as [a b].
  cx_unfold. simpl. f_equal; ring.
Qed.

Lemma example_image_dft_nonzero :
  get (val.fftn example_image) (origin (ndim example_image)) <> Cx.zero
  /\ forall d, (d < ndim example_image)%nat ->
       (1 < nth d (shape example_image) 0)%nat ->
       get (val.fftn example_image) (unit_index (ndim example_image) d) <> Cx.zero.
Proof.
  change (ndim example_image) with 1%nat. split.
  - change (origin 1) with [0%nat]. rewrite example_image_dft by lia.
    change (quarter_turn (2 * Z.of_nat 0)) with ((1, 0) : C).
    cx_unfold. simpl. intros E. injection E as E. lra.
  - intros d Hd _. replace d with 0%nat by lia.
    change (unit_index 1 0) with [1%nat]. rewrite example_image_dft by lia.
    change (quarter_turn (2 * Z.of_nat 1)) with ((-1, 0) : C).
    cx_unfold. simpl. intros E. injection E as E. lra.
Qed.

Lemma translated_image_is_registered_witness :
  exists error,
    outcome (phase_cross_correlation example_image (roll example_image [1%nat]) 20
               "real" false None None 0 (Some "phase"%string))
    = inr (translation_shift [2%nat] [1%nat], error, 0).
Proof.
  destruct (translated_image_is_registered example_image [1%nat] 20 "real" 0
              (Some "phase"%string)) as (error & Hrun & _).
  - reflexivity.
  - repeat constructor.
  - apply in_bounds_one. lia.
  - reflexivity.
  - right. reflexivity.
  - lia.
  - apply example_image_dft_nonzero.
  - apply example_image_dft_nonzero.
  - exists error. exact Hrun.
Defined.

(** ** Scaling an image *)

Lemma ndarray_ext (a b : ndarray) :
  shape a = shape b -> dtype a = dtype b -> flat a = flat b -> a = b.
Proof. destruct a, b. simpl. now intros -> -> ->. Qed.

Lemma Cmul_real_assoc (c : R) (a b : C) :
  Cx.mul (Cx.mul (Cx.of_R c) a) b = Cx.mul (Cx.of_R c) (Cx.mul a b).
Proof. symmetry. apply Cmul_assoc. Qed.

Lemma Cconj_real_mul (c : R) (a : C) :
  Cx.conj (Cx.mul (Cx.of_R c) a) = Cx.mul (Cx.of_R c) (Cx.conj a).
Proof.
  destruct a. unfold Cx.conj, Cx.mul, Cx.of_R, Cx.re, Cx.im. cbn [fst snd].
  f_equal; ring.
Qed.

Lemma Cdiv_real_mul (c : R) (a : C) (x : R) :
  Cx.div_R (Cx.mul (Cx.of_R c) a) x = Cx.mul (Cx.of_R c) (Cx.div_R a x).
Proof.
  destruct a. unfold Cx.div_R, Cx.mul, Cx.of_R, Cx.re, Cx.im. cbn [fst snd].
  unfold Rdiv. f_equal; ring.
Qed.

Lemma get_scale (c : R) (a : ndarray) (idx : list nat) :
  wf a -> in_bounds idx (shape a) ->
  get (scale c a) idx = Cx.mul (Cx.of_R c) (get a idx).
Proof. apply get_map_arr. Qed.

Lemma wf_scale (c : R) (a : ndarray) : wf a -> wf (scale c a).
Proof. apply wf_map_arr. Qed.

Lemma scale_build (c : R) (s : list nat) (d : scalar_type) (f : list nat -> C) :
  scale c (build s d f) = build s d (fun k => Cx.mul (Cx.of_R c) (f k)).
Proof. unfold scale, map_arr, build. cbn [shape dtype flat]. now rewrite map_map. Qed.

Lemma build_ext (s : list nat) (d : scalar_type) (f g : list nat -> C) :
  (forall k, in_bounds k s -> f k = g k) -> build s d f = build s d g.
Proof.
  intros H. unfold build. f_equal. apply map_ext_in. intros k Hk.
  apply H. now apply in_indices.
Qed.

Lemma csum_idx_scale (c : R) (s : list nat) (f : list nat -> C) :
  csum_idx s (fun n => Cx.mul (Cx.of_R c) (f n)) = Cx.mul (Cx.of_R c) (csum_idx s f).
Proof. unfold csum_idx. apply Csum_map_mul_l. Qed.

Lemma fftn_scale (c : R) (a : ndarray) :
  wf a -> val.fftn (scale c a) = scale c (val.fftn a).
Proof.
  intros Hwf. unfold val.fftn. rewrite scale_build.
  change (shape (scale c a)) with (shape a). change (dtype (scale c a)) with (dtype a).
  apply build_ext. intros k Hk. rewrite <- csum_idx_scale.
  apply csum_idx_ext. intros n Hn. rewrite get_scale by assumption.
  apply Cmul_real_assoc.
Qed.

Lemma ifftn_scale (c : R) (a : ndarray) :
  wf a -> val.ifftn (scale c a) = scale c (val.ifftn a).
Proof.
  intros Hwf. unfold val.ifftn. rewrite scale_build.
  change (shape (scale c a)) with (shape a). change (dtype (scale c a)) with (dtype a).
  change (size (scale c a)) with (size a).
  apply build_ext. intros k Hk. rewrite <- Cdiv_real_mul, <- csum_idx_scale.
  f_equal. apply csum_idx_ext. intros n Hn. rewrite get_scale by assumption.
  apply Cmul_real_assoc.
Qed.

Lemma to_freq_scale (c : R) (space : string) (a : ndarray) :
  wf a -> to_freq space (scale c a) = scale c (to_freq space a).
Proof.
  intros Hwf. unfold to_freq.
  destruct (lower space =? "fourier")%string; [reflexivity | now apply fftn_scale].
Qed.

Lemma conj_scale (c : R) (a : ndarray) : val.conj (scale c a) = scale c (val.conj a).
Proof.
  unfold val.conj, scale, map_arr. cbn [shape dtype flat]. f_equal.
  rewrite !map_map. apply map_ext. intros z. apply Cconj_real_mul.
Qed.

Lemma combine_map_r {A B D} (f : B -> D) (l : list A) (l' : list B) :
  combine l (map f l') = map (fun p => (fst p, f (snd p))) (combine l l').
Proof.
  revert l'. induction l as [| x l IH]; intros [| y l']; simpl; try reflexivity.
  now rewrite IH.
Qed.

Lemma multiply_scale_r (c : R) (a b : ndarray) :
  val.multiply a (scale c b) = scale c (val.multiply a b).
Proof.
  unfold val.multiply, scale, zip_arr, map_arr. cbn [shape dtype flat]. f_equal.
  rewrite combine_map_r, !map_map. apply map_ext. intros [x y]. cbn [fst snd].
  rewrite (Cmul_comm x), Cmul_real_assoc. f_equal. apply Cmul_comm.
Qed.

Lemma image_product_scale (c : R) (ref mov : ndarray) (space : string) :
  wf mov ->
  image_product_of ref (scale c mov) space None
  = scale c (image_product_of ref mov space None).
Proof.
  intros Hwf. unfold image_product_of.
  now rewrite to_freq_scale, conj_scale, multiply_scale_r.
Qed.

Lemma Cabs_real_mul (c : R) (z : C) :
  0 <= c -> Cx.abs (Cx.mul (Cx.of_R c) z) = c * Cx.abs z.
Proof. intros Hc. now rewrite Cabs_mul, Cabs_of_R. Qed.

Lemma argmax_from_scale (c : R) (l : list R) :
  0 < c ->
  forall (best : R) (besti i : nat),
    val.argmax_from (c * best) besti i (map (Rmult c) l)
    = val.argmax_from best besti i l.
Proof.
  intros Hc. induction l as [| x l IH]; intros best besti i; simpl; [reflexivity |].
  destruct (Rlt_dec (c * best) (c * x)) as [H | H], (Rlt_dec best x) as [H' | H'].
  - apply IH.
  - exfalso. apply H'. now apply (Rmult_lt_reg_l c).
  - exfalso. apply H. now apply Rmult_lt_compat_l.
  - apply IH.
Qed.

Lemma argmax_scale (c : R) (l : list R) :
  0 < c -> val.argmax (map (Rmult c) l) = val.argmax l.
Proof.
  intros Hc. destruct l as [| x l]; [reflexivity |]. simpl.
  now apply argmax_from_scale.
Qed.

Lemma peak_scale (c : R) (a : ndarray) : 0 < c -> peak (scale c a) = peak a.
Proof.
  intros Hc. unfold peak. change (shape (scale c a)) with (shape a). f_equal.
  unfold val.abs, scale, map_arr. cbn [dtype flat]. rewrite !map_map.
  transitivity (val.argmax (map (Rmult c)
                              (map (fun x => Cx.re (Cx.of_R (Cx.abs x))) (flat a))));
    [| now apply argmax_scale].
  f_equal. rewrite map_map. apply map_ext. intros z.
  cbn [Cx.re Cx.of_R fst]. apply Cabs_real_mul. lra.
Qed.

Lemma Rsum_scal {A} (c : R) (f : A -> R) (l : list A) :
  Rsum (map (fun x => c * f x) l) = c * Rsum (map f l).
Proof. induction l as [| x l IH]; simpl; [ring | rewrite IH; ring]. Qed.

Lemma energy_scale (c : R) (a : ndarray) : energy (scale c a) = c * c * energy a.
Proof.
  rewrite !energy_as_sum. unfold scale, map_arr. cbn [flat]. rewrite map_map.
  rewrite <- Rsum_scal. apply Rsum_map_ext. intros z _.
  rewrite norm_sq_mul. unfold norm_sq at 1, Cx.of_R, Cx.re, Cx.im. cbn [fst snd]. ring.
Qed.

Lemma phasediff_scale (c : R) (z : C) :
  0 < c -> _compute_phasediff (Cx.mul (Cx.of_R c) z) = _compute_phasediff z.
Proof.
  intros Hc. destruct z as [x y].
  unfold _compute_phasediff, arctan2, Cx.mul, Cx.of_R, Cx.re, Cx.im. cbn [fst snd].
  replace (c * y + 0 * x) with (c * y) by ring.
  replace (c * x - 0 * y) with (c * x) by ring.
  assert (Eq : x <> 0 -> c * y / (c * x) = y / x) by (intros Hx; field; lra).
  destruct (Rlt_dec 0 (c * x)) as [H1 | H1], (Rlt_dec 0 x) as [H1' | H1'];
    try (exfalso; nra).
  - now rewrite Eq by lra.
  - destruct (Rlt_dec (c * x) 0) as [H2 | H2], (Rlt_dec x 0) as [H2' | H2'];
      try (exfalso; nra).
    + rewrite Eq by lra.
      destruct (Rle_dec 0 (c * y)) as [H3 | H3], (Rle_dec 0 y) as [H3' | H3'];
        try (exfalso; nra); reflexivity.
    + destruct (Rlt_dec 0 (c * y)) as [H3 | H3], (Rlt_dec 0 y) as [H3' | H3'];
        try (exfalso; nra); try reflexivity.
      destruct (Rlt_dec (c * y) 0) as [H4 | H4], (Rlt_dec y 0) as [H4' | H4'];
        try (exfalso; nra); reflexivity.
Qed.

Lemma error_scale (c : R) (z : C) (a b : R) :
  0 < c -> a * b <> 0 ->
  _compute_error (Cx.mul (Cx.of_R c) z) a (c * c * b) = _compute_error z a b.
Proof.
  intros Hc Hab. rewrite !compute_error_formula, Cabs_real_mul by lra.
  f_equal. f_equal. f_equal. unfold Rsqr. field.
  split; [| split]; [| | lra].
  - intros ->. apply Hab. ring.
  - intros ->. apply Hab. ring.
Qed.

(** ** The result does not depend on the intensity of the moving image *)

(** [_upsampled_dft] is homogeneous in the data. *)
Lemma upsampled_dft_scale (c : R) (data : ndarray) (urs : Z + list Z) (uf : Z)
    (ao : option (list R)) :
  wf data -> lengths_match data urs ao ->
  exists out,
    outcome (_upsampled_dft data urs uf ao) = inr out
    /\ outcome (_upsampled_dft (scale c data) urs uf ao) = inr (scale c out).
Proof.
  intros Hwf Hl.
  destruct (upsampled_dft_run data urs uf ao Hwf Hl)
    as (out & Hrun & Hsh & Hdt & Hwfo & Hget).
  destruct (upsampled_dft_run (scale c data) urs uf ao (wf_scale c data Hwf) Hl)
    as (out' & Hrun' & Hsh' & Hdt' & Hwfo' & Hget').
  exists out. rewrite Hrun, Hrun'. split; [reflexivity |].
  cbn [outcome snd]. f_equal.
  change (region_sizes (scale c data) urs) with (region_sizes data urs) in *.
  change (dtype (scale c data)) with (dtype data) in *.
  change (shape (scale c data)) with (shape data) in *.
  change (dim_properties (scale c data) urs ao) with (dim_properties data urs ao) in *.
  apply ndarray_ext.
  - now rewrite Hsh'.
  - change (dtype (scale c out)) with (dtype out). congruence.
  - rewrite (flat_as_gets out' Hwfo'), (flat_as_gets _ (wf_scale c out Hwfo)).
    change (shape (scale c out)) with (shape out). rewrite Hsh', Hsh.
    apply map_ext_in. intros ks Hks. apply in_indices in Hks.
    rewrite get_scale by (try assumption; now rewrite Hsh).
    rewrite (Hget' ks Hks), (Hget ks Hks), <- csum_idx_scale.
    apply csum_idx_ext. intros ns Hns. rewrite get_scale by assumption.
    rewrite !Cmul_assoc. f_equal. apply Cmul_comm.
Qed.

Lemma cross_correlation_scale (c : R) (ref mov : ndarray) (space : string) :
  wf ref -> wf mov -> shape ref = shape mov ->
  cross_correlation_of ref (scale c mov) space None
  = scale c (cross_correlation_of ref mov space None).
Proof.
  intros Hwr Hwm Hsh. unfold cross_correlation_of.
  rewrite image_product_scale by exact Hwm.
  apply ifftn_scale. now apply wf_image_product.
Qed.

Lemma upsampled_patch_scale (c : R) (ref mov : ndarray) (space : string) (uf : Z) :
  valid_inputs ref mov -> 0 < c ->
  upsampled_patch ref (scale c mov) space None uf
  = scale c (upsampled_patch ref mov space None uf).
Proof.
  intros Hv Hc. pose proof Hv as (Hwr & Hwm & Hsh & Hpos).
  unfold upsampled_patch.
  rewrite image_product_scale by exact Hwm.
  set (ip := image_product_of ref mov space None).
  assert (Hwip : wf ip) by now apply wf_image_product.
  rewrite ifftn_scale, peak_scale, conj_scale by assumption.
  set (offs := sample_region_offset_of uf
                 (rounded_shift uf (integer_shift (shape ref) (peak (val.ifftn ip))))).
  destruct (upsampled_dft_scale c (val.conj ip) (inl (upsampled_region_size_of uf)) uf
              (Some offs)) as (out & Hout & Hout').
  - now apply wf_map_arr.
  - split; cbn [region_sizes offsets]; unfold ndim, val.conj, map_arr; cbn [shape].
    + apply repeat_length.
    + unfold offs, sample_region_offset_of, rounded_shift. rewrite !length_map.
      unfold ip. rewrite shape_image_product.
      apply (integer_estimate_length ref mov space None).
  - unfold value_of. rewrite Hout, Hout'. apply conj_scale.
Qed.

(** With [normalization = None], multiplying the moving image by a
    positive number changes nothing in the result of a valid call on
    two images that are not zero everywhere: the shift, the error and
    the phase difference are the same. *)
Theorem result_is_invariant_under_scaling_of_moving_image
    (reference_image moving_image : ndarray) (c : R) (upsample_factor : Z)
    (space : string) (overlap_ratio : R) :
  valid_inputs reference_image moving_image -> valid_space space ->
  (1 <= upsample_factor)%Z -> 0 < c ->
  energy (to_freq space reference_image) <> 0 ->
  energy (to_freq space moving_image) <> 0 ->
  outcome (phase_cross_correlation reference_image (scale c moving_image)
             upsample_factor space false None None overlap_ratio None)
  = outcome (phase_cross_correlation reference_image moving_image
               upsample_factor space false None None overlap_ratio None).
Proof.
  intros Hv Hsp Hu Hc HEr HEm. pose proof Hv as (Hwr & Hwm & Hsh & Hpos).
  assert (Hv' : valid_inputs reference_image (scale c moving_image)).
  { split; [exact Hwr |]. split; [now apply wf_scale |]. split; assumption. }
  pose proof (prod_INR_pos _ Hpos) as HN.
  destruct (Z.eq_dec upsample_factor 1) as [-> | Hne].
  - rewrite !pcc_outcome_integer by (try assumption; now left). cbv zeta.
    rewrite cross_correlation_scale, peak_scale by assumption.
    rewrite to_freq_scale, energy_scale by exact Hwm.
    set (cc := cross_correlation_of reference_image moving_image space None).
    assert (Hpk : in_bounds (peak cc) (shape cc)).
    { unfold cc. rewrite shape_cross_correlation.
      now apply cross_correlation_peak_in_bounds. }
    rewrite get_scale by (try assumption; apply wf_build).
    rewrite phasediff_scale by exact Hc.
    change (size (scale c (to_freq space moving_image)))
      with (size (to_freq space moving_image)).
    unfold size. rewrite !shape_to_freq, <- Hsh.
    set (N := INR (prod (shape reference_image))) in *.
    replace (c * c * energy (to_freq space moving_image) / N)
      with (c * c * (energy (to_freq space moving_image) / N))
      by (unfold Rdiv; ring).
    rewrite error_scale; [reflexivity | exact Hc |].
    unfold Rdiv. assert (/ N <> 0) by (apply Rinv_neq_0_compat; lra).
    repeat apply Rmult_integral_contrapositive_currified; assumption.
  - rewrite !pcc_outcome_upsampled by (try assumption; try lia; now left). cbv zeta.
    rewrite cross_correlation_scale, peak_scale by assumption.
    rewrite upsampled_patch_scale, peak_scale by assumption.
    rewrite to_freq_scale, energy_scale by exact Hwm.
    set (patch := upsampled_patch reference_image moving_image space None
                    upsample_factor).
    destruct (upsampled_patch_shape reference_image moving_image space None
                upsample_factor Hv) as [Hps Hpw]. fold patch in Hps, Hpw.
    assert (Hpk : in_bounds (peak patch) (shape patch)).
    { rewrite Hps. apply upsampled_patch_peak_in_bounds; [exact Hv | lia]. }
    rewrite get_scale by assumption.
    rewrite phasediff_scale by exact Hc.
    rewrite error_scale; [reflexivity | exact Hc |].
    now apply Rmult_integral_contrapositive_currified.
Qed.

Lemma result_is_invariant_under_scaling_of_moving_image_witness :
  outcome (phase_cross_correlation example_reference (scale 3 example_moving) 20
             "fourier" false None None 0 None)
  = outcome (phase_cross_correlation example_reference example_moving 20
               "fourier" false None None 0 None).
Proof.
  apply result_is_invariant_under_scaling_of_moving_image.
  - exact example_valid_inputs.
  - right. reflexivity.
  - lia.
  - lra.
  - rewrite energy_as_sum. unfold norm_sq, Rsum. simpl. lra.
  - rewrite energy_as_sum. unfold norm_sq, Rsum. simpl. lra.
Defined.
